(** * yamleditor: path compiler, navigator and mutation engine

    A shallow embedding of [pkg/path] (parser.go, types.go, navigator.go and
    the navigator revision that carries [FindWithWhere]) and of [pkg/engine]
    (the [Engine] methods), with the properties of the specification stated
    and proved over it.

    Conventions.
    - A Go [string] is a byte string: Rocq's [string].  The [range] loop of
      [splitPath] walks the runes of the path as [unicode/utf8] decodes them
      and [WriteRune] writes each back encoded, so a byte that is part of no
      valid UTF-8 sequence comes back as the three bytes of U+FFFD.
    - A [*yaml.Node] is an index into a heap of node records; [nil] and
      dangling indices make a dereference panic.
    - A Go function returning [(T, error)] returns a [result]; a computation
      on the heap additionally may panic or exhaust its recursion budget. *)

From Stdlib Require Import String Ascii ZArith List Lia Bool DecimalString.
From Stdlib Require DecimalPos.
From stdpp Require Import base list.
Import ListNotations.

Local Open Scope string_scope.
Local Open Scope list_scope.
Local Open Scope Z_scope.

(** ** Results of Go functions *)

Inductive result (E A : Type) : Type :=
| Ok (a : A)
| Err (e : E).
Arguments Ok {E A} a.
Arguments Err {E A} e.

(** ** The [strings] and [strconv] functions the parser calls *)

Module GoStrings.

(** [strings.Contains(s, c)] and [strings.Index(s, c)] for a one-byte [c]. *)
Fixpoint Contains (s : string) (c : ascii) : bool :=
  match s with
  | EmptyString => false
  | String ch rest => if Ascii.eqb ch c then true else Contains rest c
  end.

Fixpoint IndexFrom (s : string) (c : ascii) (i : Z) : Z :=
  match s with
  | EmptyString => -1
  | String ch rest => if Ascii.eqb ch c then i else IndexFrom rest c (i + 1)
  end.

Definition Index (s : string) (c : ascii) : Z := IndexFrom s c 0.

(** [len(s)] and the slice expression [s[lo:hi]]. *)
Definition len (s : string) : Z := Z.of_nat (String.length s).

Definition slice (s : string) (lo hi : Z) : string :=
  substring (Z.to_nat lo) (Z.to_nat (hi - lo)) s.

(** [strings.SplitN(s, c, 2)]: one piece when [c] does not occur, otherwise
    the text before and the text after its first occurrence. *)
Fixpoint SplitN2 (s : string) (c : ascii) : list string :=
  match s with
  | EmptyString => [EmptyString]
  | String ch rest =>
      if Ascii.eqb ch c then [EmptyString; rest]
      else match SplitN2 rest c with
           | before :: more => String ch before :: more
           | [] => []
           end
  end.

Definition HasPrefix (s : string) (c : ascii) : bool :=
  match s with
  | String ch _ => Ascii.eqb ch c
  | EmptyString => false
  end.

Fixpoint HasSuffix (s : string) (c : ascii) : bool :=
  match s with
  | EmptyString => false
  | String ch EmptyString => Ascii.eqb ch c
  | String _ rest => HasSuffix rest c
  end.

(** [strings.Trim(s, c)]: every leading and every trailing [c] is removed. *)
Fixpoint TrimLeft (s : string) (c : ascii) : string :=
  match s with
  | String ch rest => if Ascii.eqb ch c then TrimLeft rest c else s
  | EmptyString => EmptyString
  end.

Fixpoint TrimRight (s : string) (c : ascii) : string :=
  match s with
  | EmptyString => EmptyString
  | String ch rest =>
      match TrimRight rest c with
      | EmptyString => if Ascii.eqb ch c then EmptyString else String ch EmptyString
      | kept => String ch kept
      end
  end.

Definition Trim (s : string) (c : ascii) : string := TrimRight (TrimLeft s c) c.

(** [strconv.Atoi] on a 64-bit platform: an optional sign, then one or more
    decimal digits, the value within the range of [int]. *)
Definition isDigit (ch : ascii) : bool :=
  let n := Z.of_nat (nat_of_ascii ch) in (48 <=? n) && (n <=? 57).

Fixpoint digitsValue (s : string) (acc : Z) : option Z :=
  match s with
  | EmptyString => Some acc
  | String ch rest =>
      if isDigit ch
      then digitsValue rest (acc * 10 + (Z.of_nat (nat_of_ascii ch) - 48))
      else None
  end.

Definition minInt : Z := - 2 ^ 63.
Definition maxInt : Z := 2 ^ 63 - 1.

Definition Atoi (s : string) : option Z :=
  let '(neg, digits) :=
    match s with
    | String "-" rest => (true, rest)
    | String "+" rest => (false, rest)
    | _ => (false, s)
    end in
  match digits with
  | EmptyString => None
  | _ =>
      match digitsValue digits 0 with
      | None => None
      | Some n =>
          let v := if neg then - n else n in
          if (minInt <=? v) && (v <=? maxInt) then Some v else None
      end
  end.

(** [fmt.Sprint] of an [int] and of a [bool]. *)
Definition SprintInt (n : Z) : string := NilZero.string_of_int (Z.to_int n).
Definition SprintBool (b : bool) : string := if b then "true" else "false".

End GoStrings.

(** ** Runes: what [unicode/utf8] does for a [range] loop over a string and
    for [strings.Builder.WriteRune] *)

Module GoUtf8.

(** A [rune] is an [int32] holding a code point. *)
Definition rune : Type := Z.

(** [utf8.RuneError], U+FFFD. *)
Definition RuneError : rune := 0xFFFD.

(** A byte of a string as a number, the conversion [byte(x)], and the rune
    of a character literal such as ['.']. *)
Definition byteOf (c : ascii) : Z := Z.of_N (N_of_ascii c).
Definition toByte (x : Z) : ascii := ascii_of_N (Z.to_N (Z.land x 0xFF)).
Definition lit (c : ascii) : rune := byteOf c.

(** [s[i]]; the decoder compares [i] with the length before it reads. *)
Definition at_ (s : string) (i : nat) : Z :=
  match String.get i s with
  | Some c => byteOf c
  | None => 0
  end.

(** The tables [first] and [acceptRanges] of the package: the width that a
    leading byte announces and the bounds it sets on the second byte; no
    entry for a byte that cannot lead (a continuation byte, 0xC0, 0xC1, 0xF5
    and above). *)
Definition accept (s0 : Z) : option (Z * Z * Z) :=
  if (0xC2 <=? s0) && (s0 <=? 0xDF) then Some (2, 0x80, 0xBF)
  else if s0 =? 0xE0 then Some (3, 0xA0, 0xBF)
  else if (0xE1 <=? s0) && (s0 <=? 0xEC) then Some (3, 0x80, 0xBF)
  else if s0 =? 0xED then Some (3, 0x80, 0x9F)
  else if (0xEE <=? s0) && (s0 <=? 0xEF) then Some (3, 0x80, 0xBF)
  else if s0 =? 0xF0 then Some (4, 0x90, 0xBF)
  else if (0xF1 <=? s0) && (s0 <=? 0xF3) then Some (4, 0x80, 0xBF)
  else if s0 =? 0xF4 then Some (4, 0x80, 0x8F)
  else None.

(** [utf8.DecodeRuneInString(s)]: the first rune of [s] and its width in
    bytes; [(RuneError, 0)] for the empty string and [(RuneError, 1)] where
    [s] does not start with the encoding of a rune. *)
Definition DecodeRuneInString (s : string) : rune * nat :=
  match s with
  | EmptyString => (RuneError, 0%nat)
  | String c0 _ =>
      let s0 := byteOf c0 in
      if s0 <? 0x80 then (s0, 1%nat)
      else
        match accept s0 with
        | None => (RuneError, 1%nat)
        | Some (sz, lo, hi) =>
            if Z.of_nat (String.length s) <? sz then (RuneError, 1%nat)
            else
              let s1 := at_ s 1 in
              if (s1 <? lo) || (hi <? s1) then (RuneError, 1%nat)
              else if sz <=? 2 then
                (Z.lor (Z.shiftl (Z.land s0 0x1F) 6) (Z.land s1 0x3F), 2%nat)
              else
                let s2 := at_ s 2 in
                if (s2 <? 0x80) || (0xBF <? s2) then (RuneError, 1%nat)
                else if sz <=? 3 then
                  (Z.lor (Z.lor (Z.shiftl (Z.land s0 0x0F) 12)
                                (Z.shiftl (Z.land s1 0x3F) 6))
                         (Z.land s2 0x3F), 3%nat)
                else
                  let s3 := at_ s 3 in
                  if (s3 <? 0x80) || (0xBF <? s3) then (RuneError, 1%nat)
                  else
                    (Z.lor (Z.lor (Z.lor (Z.shiftl (Z.land s0 0x07) 18)
                                         (Z.shiftl (Z.land s1 0x3F) 12))
                                  (Z.shiftl (Z.land s2 0x3F) 6))
                           (Z.land s3 0x3F), 4%nat)
        end
  end.

(** The three bytes that encode a rune from U+0800 to U+FFFF. *)
Definition encode3 (r : rune) : string :=
  String (toByte (Z.lor 0xE0 (Z.land (Z.shiftr r 12) 0xFF)))
    (String (toByte (Z.lor 0x80 (Z.land (Z.land (Z.shiftr r 6) 0xFF) 0x3F)))
       (String (toByte (Z.lor 0x80 (Z.land (Z.land r 0xFF) 0x3F))) EmptyString)).

(** [utf8.AppendRune(nil, r)], the bytes that [WriteRune(r)] appends to a
    builder: the encoding of [r], and that of [RuneError] for a surrogate
    or a value that is no code point. *)
Definition AppendRune (r : rune) : string :=
  let i := r mod 2 ^ 32 in
  if i <=? 0x7F then String (toByte r) EmptyString
  else if i <=? 0x7FF then
    String (toByte (Z.lor 0xC0 (Z.land (Z.shiftr r 6) 0xFF)))
      (String (toByte (Z.lor 0x80 (Z.land (Z.land r 0xFF) 0x3F))) EmptyString)
  else if (0x10FFFF <? i) || ((0xD800 <=? i) && (i <=? 0xDFFF)) then
    encode3 RuneError
  else if i <=? 0xFFFF then encode3 r
  else
    String (toByte (Z.lor 0xF0 (Z.land (Z.shiftr r 18) 0xFF)))
      (String (toByte (Z.lor 0x80 (Z.land (Z.land (Z.shiftr r 12) 0xFF) 0x3F)))
         (String (toByte (Z.lor 0x80 (Z.land (Z.land (Z.shiftr r 6) 0xFF) 0x3F)))
            (String (toByte (Z.lor 0x80 (Z.land (Z.land r 0xFF) 0x3F)))
               EmptyString))).

(** The runes that [for _, ch := range s] hands to its body, in order: the
    rune decoded at the current byte, then on from the byte after its
    encoding.  Where the bytes encode no rune the loop yields [RuneError] and
    goes on one byte further.  [skip] counts the bytes of the current rune
    that are still to be passed over. *)
Fixpoint rangeFrom (s : string) (skip : nat) : list rune :=
  match s with
  | EmptyString => []
  | String _ rest =>
      match skip with
      | S k => rangeFrom rest k
      | O => let (ch, width) := DecodeRuneInString s in
             ch :: rangeFrom rest (width - 1)
      end
  end.

Definition runes (s : string) : list rune := rangeFrom s 0.

(** [utf8.ValidString(s)]: no position at which a rune starts decodes to
    [(RuneError, 1)]. *)
Fixpoint validFrom (s : string) (skip : nat) : bool :=
  match s with
  | EmptyString => true
  | String _ rest =>
      match skip with
      | S k => validFrom rest k
      | O => let (ch, width) := DecodeRuneInString s in
             negb ((ch =? RuneError) && (width =? 1)%nat)
             && validFrom rest (width - 1)
      end
  end.

Definition ValidString (s : string) : bool := validFrom s 0.

End GoUtf8.

(** ** pkg/path/types.go *)

Inductive Operator : Type :=
| OpEqual
| OpNotEqual
| OpRegex.

Record Condition : Type := mkCondition {
  CondField : string;
  Op : Operator;
  CondValue : string
}.

(** [Selector.Type] together with the part of [Selector.Condition] that the
    type uses: the index of [SelectorTypeIndex] is the [int] the parser
    stores in [Condition.Value]. *)
Inductive Selector : Type :=
| SelectorTypeWildcard
| SelectorTypeIndex (idx : Z)
| SelectorTypeCondition (cond : Condition).

Inductive Segment : Type :=
| SegmentTypeField (Field : string)
| SegmentTypeArray (Field : string) (Sel : Selector).

Record Path : Type := mkPath { Segments : list Segment }.

(** ** pkg/path/parser.go *)

(** The errors of [parseSegment] and below, one per [fmt.Errorf]. *)
Inductive SegmentError : Type :=
| ErrNoOpeningBracket
| ErrNoClosingBracket
| ErrInvalidConditionSyntax
| ErrFieldNameEmpty
| ErrRegexPatternEmpty
| ErrInvalidRegexPattern
| ErrUnknownSelectorSyntax (selectorStr : string).

Inductive ParseError : Type :=
| ErrEmptyPath
| ErrInvalidSegment (part : string) (cause : SegmentError).

Section Parser.

(** [regexp2.Compile(pattern, 0)] of github.com/dlclark/regexp2 succeeds. *)
Variable regexp2_Compile : string -> bool.

(** The loop of [splitPath]: [parts], [current] and [inBracket] are its
    three variables, [pathStr] the runes the [range] clause yields. *)
Fixpoint splitPathLoop (pathStr : list GoUtf8.rune) (parts : list string)
    (current : string) (inBracket : bool) : list string :=
  match pathStr with
  | [] =>
      if 0 <? GoStrings.len current then parts ++ [current] else parts
  | ch :: rest =>
      if ch =? GoUtf8.lit "[" then
        splitPathLoop rest parts (current ++ GoUtf8.AppendRune ch)%string true
      else if ch =? GoUtf8.lit "]" then
        splitPathLoop rest parts (current ++ GoUtf8.AppendRune ch)%string false
      else if ch =? GoUtf8.lit "." then
        if inBracket then
          splitPathLoop rest parts (current ++ GoUtf8.AppendRune ch)%string inBracket
        else if 0 <? GoStrings.len current then
          splitPathLoop rest (parts ++ [current]) EmptyString inBracket
        else
          splitPathLoop rest parts current inBracket
      else
        splitPathLoop rest parts (current ++ GoUtf8.AppendRune ch)%string inBracket
  end.

Definition splitPath (pathStr : string) : list string :=
  splitPathLoop (GoUtf8.runes pathStr) [] EmptyString false.

(** The loop of [findClosingBracket]: [s] is the text from position [i]. *)
Fixpoint findClosingBracketLoop (s : string) (i : Z) (inRegex : bool) : Z :=
  match s with
  | EmptyString => -1
  | String ch rest =>
      let inRegex := if Ascii.eqb ch "@" then negb inRegex else inRegex in
      if Ascii.eqb ch "]" && negb inRegex then i
      else findClosingBracketLoop rest (i + 1) inRegex
  end.

Definition findClosingBracket (s : string) (start : Z) : Z :=
  findClosingBracketLoop (GoStrings.slice s start (GoStrings.len s)) start false.

Definition parseSelector (selectorStr : string) : result SegmentError Selector :=
  if String.eqb selectorStr "*" then Ok SelectorTypeWildcard
  else if String.eqb selectorStr "?" then Ok SelectorTypeWildcard
  else
    match GoStrings.Atoi selectorStr with
    | Some idx => Ok (SelectorTypeIndex idx)
    | None =>
        if GoStrings.Contains selectorStr "=" then
          match GoStrings.SplitN2 selectorStr "=" with
          | [field; value] =>
              if String.eqb field "" then Err ErrFieldNameEmpty
              else if GoStrings.HasPrefix value "@" && GoStrings.HasSuffix value "@" then
                let pattern := GoStrings.Trim value "@" in
                if String.eqb pattern "" then Err ErrRegexPatternEmpty
                else if regexp2_Compile pattern
                then Ok (SelectorTypeCondition (mkCondition field OpRegex pattern))
                else Err ErrInvalidRegexPattern
              else Ok (SelectorTypeCondition (mkCondition field OpEqual value))
          | _ => Err ErrInvalidConditionSyntax
          end
        else Err (ErrUnknownSelectorSyntax selectorStr)
    end.

Definition parseArraySegment (part : string) : result SegmentError Segment :=
  let bracketStart := GoStrings.Index part "[" in
  if bracketStart =? -1 then Err ErrNoOpeningBracket
  else
    let field := GoStrings.slice part 0 bracketStart in
    let bracketEnd := findClosingBracket part (bracketStart + 1) in
    if bracketEnd =? -1 then Err ErrNoClosingBracket
    else
      let selectorStr := GoStrings.slice part (bracketStart + 1) bracketEnd in
      match parseSelector selectorStr with
      | Err e => Err e
      | Ok selector => Ok (SegmentTypeArray field selector)
      end.

Definition parseSegment (part : string) : result SegmentError Segment :=
  if GoStrings.Contains part "[" then parseArraySegment part
  else Ok (SegmentTypeField part).

(** The loop of [Parse] over the parts, appending to [segments]. *)
Fixpoint parseParts (parts : list string) (segments : list Segment)
    : result ParseError Path :=
  match parts with
  | [] => Ok (mkPath segments)
  | part :: rest =>
      match parseSegment part with
      | Err e => Err (ErrInvalidSegment part e)
      | Ok seg => parseParts rest (segments ++ [seg])
      end
  end.

Definition Parse (pathStr : string) : result ParseError Path :=
  if String.eqb pathStr "" then Err ErrEmptyPath
  else parseParts (splitPath pathStr) [].

End Parser.

(** ** The document tree: gopkg.in/yaml.v3's [Node], held in a heap *)

Local Close Scope Z_scope.
Local Open Scope nat_scope.

(** [yaml.Kind]; [OtherKind] is any value that is none of the five constants
    (the zero value of a fresh [yaml.Node] among them). *)
Inductive Kind : Type :=
| DocumentNode
| SequenceNode
| MappingNode
| ScalarNode
| AliasNode
| OtherKind.

Definition Kind_eqb (a b : Kind) : bool :=
  match a, b with
  | DocumentNode, DocumentNode | SequenceNode, SequenceNode
  | MappingNode, MappingNode | ScalarNode, ScalarNode
  | AliasNode, AliasNode | OtherKind, OtherKind => true
  | _, _ => false
  end.

(** A [*yaml.Node] is an index into the heap.  yaml.v3 stores no [nil] in
    [Content], and neither does the core, so [Content] holds indices; [Alias]
    is [nil] outside alias nodes.  An index the heap does not hold stands for
    an invalid pointer: dereferencing it panics. *)
Abbreviation ptr := nat.

(** The fields of [yaml.Node] the core reads or writes one by one.  [Style],
    [Anchor], the comments and the position travel with the record and are
    never inspected. *)
Record Node : Type := mkNode {
  kind : Kind;
  Tag : string;
  Value : string;
  Alias : option ptr;
  Content : list ptr
}.

Abbreviation heap := (list Node).

(** ** Computations on the heap *)

Inductive outcome (E A : Type) : Type :=
| Return (r : result E A)
| Panic
| OutOfFuel.
Arguments Return {E A} r.
Arguments Panic {E A}.
Arguments OutOfFuel {E A}.

Definition M (E A : Type) : Type := heap -> heap * outcome E A.

Definition ret {E A} (a : A) : M E A := fun h => (h, Return (Ok a)).
Definition fail {E A} (e : E) : M E A := fun h => (h, Return (Err e)).
Definition panic {E A} : M E A := fun h => (h, Panic).
Definition outOfFuel {E A} : M E A := fun h => (h, OutOfFuel).

Definition bind {E A B} (m : M E A) (k : A -> M E B) : M E B :=
  fun h =>
    match m h with
    | (h', Return (Ok a)) => k a h'
    | (h', Return (Err e)) => (h', Return (Err e))
    | (h', Panic) => (h', Panic)
    | (h', OutOfFuel) => (h', OutOfFuel)
    end.

Notation "'do' x <- m ;; k" := (bind m (fun x => k))
  (at level 10, x name, m at level 99, k at level 200).

(** [v, err := f()] followed by a test of [err]: the callee's error becomes a
    value of the caller; a panic or a missing result still ends the caller. *)
Definition attempt {E E' A} (m : M E A) : M E' (result E A) :=
  fun h =>
    match m h with
    | (h', Return r) => (h', Return (Ok r))
    | (h', Panic) => (h', Panic)
    | (h', OutOfFuel) => (h', OutOfFuel)
    end.

(** [*p] read, [*p = n] written, and [&yaml.Node{...}] allocated. *)
Definition load {E} (p : ptr) : M E Node :=
  fun h => match h !! p with
           | Some n => (h, Return (Ok n))
           | None => (h, Panic)
           end.

Definition store {E} (p : ptr) (n : Node) : M E unit :=
  fun h => if decide (p < List.length h)
           then (<[p := n]> h, Return (Ok tt))
           else (h, Panic).

Definition alloc {E} (n : Node) : M E ptr :=
  fun h => (h ++ [n], Return (Ok (List.length h))).

(** A [for _, x := range l] loop whose body updates the loop's variables
    [acc]. *)
Fixpoint forRange {E A S} (l : list A) (body : S -> A -> M E S) (acc : S)
    : M E S :=
  match l with
  | [] => ret acc
  | x :: rest => do acc' <- body acc x ;; forRange rest body acc'
  end.

(** ** pkg/path/navigator.go *)

Inductive NavError : Type :=
| ErrEmptyDocument
| ErrExpectedMapping (got : Kind)
| ErrFieldNotFound (field : string)
| ErrExpectedMappingForArray
| ErrArrayFieldNotFound (field : string)
| ErrNotAnArray (field : string)
| ErrIndexOutOfRange (idx : Z)
| ErrNoElementsMatch.

Record WhereCondition : Type := mkWhere {
  NameRegex : string;
  NameNotIn : list string;
  NameIn : list string
}.

Section Navigator.

(** [regexp.MatchString(pattern, s)] of Go's standard library: [None] is a
    non-nil error (the pattern does not compile), otherwise whether [s]
    contains a match. *)
Variable regexp_MatchString : string -> string -> option bool.

(** The scan [for i := 0; i < len(node.Content); i += 2] with
    [keyNode := node.Content[i]], [valueNode := node.Content[i+1]], leaving
    at the first key equal to [name].  [findField] returns from inside the
    loop and [findArray] breaks out of it; [None] is the loop running to its
    end.  A key without a value makes [node.Content[i+1]] panic. *)
Fixpoint mappingScan {E} (content : list ptr) (name : string)
    : M E (option ptr) :=
  match content with
  | [] => ret None
  | [_] => panic
  | keyNode :: valueNode :: rest =>
      do key <- load keyNode ;;
      if String.eqb (Value key) name then ret (Some valueNode)
      else mappingScan rest name
  end.

(** The loop of [matchCondition].  When the key is found, [OpEqual] and
    [OpRegex] return; for [OpNotEqual] no case of the [switch] applies and the
    scan goes on.  (The navigator revision that carries [FindWithWhere] has a
    case [OpNotEqual] in place of [OpRegex]; the parser produces neither
    [OpNotEqual] nor any other third operator there.) *)
Fixpoint matchConditionLoop {E} (content : list ptr) (cond : Condition)
    : M E bool :=
  match content with
  | [] => ret false
  | [_] => panic
  | keyNode :: valueNode :: rest =>
      do key <- load keyNode ;;
      if String.eqb (Value key) (CondField cond) then
        match Op cond with
        | OpEqual =>
            do value <- load valueNode ;;
            ret (String.eqb (Value value) (CondValue cond))
        | OpRegex =>
            do value <- load valueNode ;;
            ret (match regexp_MatchString (CondValue cond) (Value value) with
                 | Some matched => matched
                 | None => false
                 end)
        | OpNotEqual => matchConditionLoop rest cond
        end
      else matchConditionLoop rest cond
  end.

Definition matchCondition {E} (node : ptr) (cond : Condition) : M E bool :=
  do n <- load node ;;
  if negb (Kind_eqb (kind n) MappingNode) then ret false
  else matchConditionLoop (Content n) cond.

Section Recursion.

(** The recursive call [n.findRecursive(node, segments, segmentIdx)]. *)
Variable findRecursive : ptr -> list Segment -> nat -> M NavError (list ptr).

Definition findField (node : ptr) (field : string)
    (segments : list Segment) (segmentIdx : nat) : M NavError (list ptr) :=
  do n <- load node ;;
  if negb (Kind_eqb (kind n) MappingNode) then fail (ErrExpectedMapping (kind n))
  else
    do found <- mappingScan (Content n) field ;;
    match found with
    | Some valueNode => findRecursive valueNode segments (segmentIdx + 1)
    | None => fail (ErrFieldNotFound field)
    end.

Definition findArray (node : ptr) (field : string) (selector : Selector)
    (segments : list Segment) (segmentIdx : nat) : M NavError (list ptr) :=
  do n <- load node ;;
  if negb (Kind_eqb (kind n) MappingNode) then fail ErrExpectedMappingForArray
  else
    do found <- mappingScan (Content n) field ;;
    match found with
    | None => fail (ErrArrayFieldNotFound field)
    | Some arrayNode =>
        do a <- load arrayNode ;;
        if negb (Kind_eqb (kind a) SequenceNode) then fail (ErrNotAnArray field)
        else
          match selector with
          | SelectorTypeWildcard =>
              forRange (Content a)
                (fun results elem =>
                   do r <- attempt (findRecursive elem segments (segmentIdx + 1)) ;;
                   match r with
                   | Err _ => ret results
                   | Ok matched => ret (results ++ matched)
                   end) []
          | SelectorTypeIndex idx =>
              if ((idx <? 0) || (Z.of_nat (List.length (Content a)) <=? idx))%Z
              then fail (ErrIndexOutOfRange idx)
              else
                match Content a !! Z.to_nat idx with
                | Some elem => findRecursive elem segments (segmentIdx + 1)
                | None => panic
                end
          | SelectorTypeCondition cond =>
              do results <-
                forRange (Content a)
                  (fun results elem =>
                     do ok <- matchCondition elem cond ;;
                     if ok : bool then
                       do r <- attempt (findRecursive elem segments (segmentIdx + 1)) ;;
                       match r with
                       | Err _ => ret results
                       | Ok matched => ret (results ++ matched)
                       end
                     else ret results) [] ;;
              match results with
              | [] => fail ErrNoElementsMatch
              | _ => ret results
              end
          end
    end.

End Recursion.

(** [fuel] bounds the depth of the recursion: the Go function has no bound
    of its own and does not return on a cycle of aliases. *)
Fixpoint findRecursive (fuel : nat) (node : ptr) (segments : list Segment)
    (segmentIdx : nat) {struct fuel} : M NavError (list ptr) :=
  match segments !! segmentIdx with
  | None => ret [node]
  | Some segment =>
      match fuel with
      | O => outOfFuel
      | S fuel =>
          do n <- load node ;;
          match kind n with
          | DocumentNode =>
              match Content n with
              | [] => fail ErrEmptyDocument
              | child :: _ => findRecursive fuel child segments segmentIdx
              end
          | AliasNode =>
              match Alias n with
              | Some target => findRecursive fuel target segments segmentIdx
              | None => panic
              end
          | _ =>
              match segment with
              | SegmentTypeField field =>
                  findField (findRecursive fuel) node field segments segmentIdx
              | SegmentTypeArray field selector =>
                  findArray (findRecursive fuel) node field selector
                    segments segmentIdx
              end
          end
      end
  end.

Definition Find (fuel : nat) (root : ptr) (path : Path) : M NavError (list ptr) :=
  findRecursive fuel root (Segments path) 0.

(** The loop of [matchWhere] that looks for the "name" member: [nameValue]
    stays empty when no key is "name". *)
Fixpoint nameScan {E} (content : list ptr) : M E string :=
  match content with
  | [] => ret EmptyString
  | [_] => panic
  | keyNode :: valueNode :: rest =>
      do key <- load keyNode ;;
      if String.eqb (Value key) "name" then
        do value <- load valueNode ;;
        ret (Value value)
      else nameScan rest
  end.

Definition inList (s : string) (l : list string) : bool :=
  existsb (String.eqb s) l.

Definition matchWhere {E} (node : ptr) (where_ : WhereCondition) : M E bool :=
  do n <- load node ;;
  if negb (Kind_eqb (kind n) MappingNode) then ret false
  else
    do nameValue <- nameScan (Content n) ;;
    if String.eqb nameValue "" then ret false
    else if negb (String.eqb (NameRegex where_) "")
            && negb (match regexp_MatchString (NameRegex where_) nameValue with
                     | Some matched => matched
                     | None => false
                     end)
    then ret false
    else if (0 <? List.length (NameNotIn where_)) && inList nameValue (NameNotIn where_)
    then ret false
    else if (0 <? List.length (NameIn where_)) && negb (inList nameValue (NameIn where_))
    then ret false
    else ret true.

Definition FindWithWhere (fuel : nat) (root : ptr) (path : Path)
    (where_ : option WhereCondition) : M NavError (list ptr) :=
  do candidates <- Find fuel root path ;;
  match where_ with
  | None => ret candidates
  | Some w =>
      forRange candidates
        (fun results node =>
           do ok <- matchWhere node w ;;
           if ok : bool then ret (results ++ [node]) else ret results) []
  end.

End Navigator.

(** ** pkg/engine *)

(** [Rule.Value], an [interface{}] filled by the rule loader: the dynamic
    types yaml.v3 decodes into.  A float carries its text. *)
#[warnings="-register-all"]
Inductive RuleValue : Type :=
| VNil
| VBool (b : bool)
| VInt (n : Z)
| VFloat (text : string)
| VString (s : string)
| VMap (members : list (string * RuleValue))
| VSlice (elems : list RuleValue).

Definition ActionType : Type := string.
Definition ActionReplace : ActionType := "replace".
Definition ActionSet : ActionType := "set".
Definition ActionDelete : ActionType := "delete".
Definition ActionRegexReplace : ActionType := "regex_replace".

Record Rule : Type := mkRule {
  Action : ActionType;
  RulePath : string;
  RuleVal : RuleValue;
  Pattern : string;
  Where : option WhereCondition
}.

Inductive EngineError : Type :=
| ErrParsePath (cause : ParseError)
| ErrFindNodes (cause : NavError)
| ErrNoNodesFound
| ErrEncodeValue
| ErrPatternRequired
| ErrCompileRegex
| ErrReplacementMustBeString
| ErrUnknownAction (action : ActionType).

Definition scalarNode (tag value : string) : Node :=
  mkNode ScalarNode tag value None [].

(** [node.Value = v; node.Kind = yaml.ScalarNode; node.Tag = tag]: the other
    fields of the node stay. *)
Definition setScalar (n : Node) (tag value : string) : Node :=
  mkNode ScalarNode tag value (Alias n) (Content n).

(** [node.Content = c] and [node.Value = v]. *)
Definition setContent (n : Node) (c : list ptr) : Node :=
  mkNode (kind n) (Tag n) (Value n) (Alias n) c.

Definition setValue (n : Node) (v : string) : Node :=
  mkNode (kind n) (Tag n) v (Alias n) (Content n).

(** The [Content] of an encoded mapping or sequence: the nodes each entry
    contributes, one entry after the other. *)
Section EncodeContent.

Context {E A : Type}.
Variable encodeEntry : A -> M E (list ptr).

Fixpoint encodeContent (entries : list A) : M E (list ptr) :=
  match entries with
  | [] => ret []
  | entry :: rest =>
      do nodes <- encodeEntry entry ;;
      do more <- encodeContent rest ;;
      ret (nodes ++ more)
  end.

End EncodeContent.

(** [Node.Encode] of yaml.v3, library code outside the repository, on the
    values of [RuleValue]: a scalar for a primitive value, a mapping node
    whose [Content] alternates freshly allocated keys and values, a sequence
    node over freshly allocated elements.  The result is the record written
    into the receiver. *)
Fixpoint Encode {E} (v : RuleValue) : M E Node :=
  match v with
  | VNil => ret (scalarNode "!!null" "null")
  | VBool b => ret (scalarNode "!!bool" (GoStrings.SprintBool b))
  | VInt n => ret (scalarNode "!!int" (GoStrings.SprintInt n))
  | VFloat text => ret (scalarNode "!!float" text)
  | VString s => ret (scalarNode "!!str" s)
  | VMap members =>
      do content <-
        encodeContent
          (fun member =>
             do keyNode <- alloc (scalarNode "!!str" (fst member)) ;;
             do value <- Encode (snd member) ;;
             do valueNode <- alloc value ;;
             ret [keyNode; valueNode]) members ;;
      ret (mkNode MappingNode "!!map" "" None content)
  | VSlice elems =>
      do content <-
        encodeContent
          (fun elem =>
             do encoded <- Encode elem ;;
             do elemNode <- alloc encoded ;;
             ret [elemNode]) elems ;;
      ret (mkNode SequenceNode "!!seq" "" None content)
  end.

Section Engine.

Variable regexp2_Compile : string -> bool.
Variable regexp_MatchString : string -> string -> option bool.

(** [regexp.Compile(pattern)] succeeds, and
    [re.ReplaceAllString(src, repl)] for the compiled [pattern]. *)
Variable regexp_Compile : string -> bool.
Variable regexp_ReplaceAllString : string -> string -> string -> string.

(** The loop of [deleteNodeRecursive] over a mapping:
    [for i := 0; i < len(node.Content); i += 2], reading [node.Content] at
    every turn.  [budget] bounds the number of turns. *)
Fixpoint deleteMappingLoop {E} (recurse : ptr -> M E unit) (budget : nat)
    (node target : ptr) (i : nat) (newContent : list ptr) : M E (list ptr) :=
  do n <- load node ;;
  if List.length (Content n) <=? i then ret newContent
  else
    match budget with
    | O => outOfFuel
    | S budget =>
        match Content n !! i, Content n !! (i + 1) with
        | Some keyNode, Some valueNode =>
            if valueNode =? target then
              deleteMappingLoop recurse budget node target (i + 2) newContent
            else
              do _ <- recurse valueNode ;;
              deleteMappingLoop recurse budget node target (i + 2)
                (newContent ++ [keyNode; valueNode])
        | _, _ => panic
        end
    end.

Fixpoint deleteNodeRecursive {E} (fuel : nat) (node target : ptr) {struct fuel}
    : M E unit :=
  match fuel with
  | O => outOfFuel
  | S fuel =>
      do n <- load node ;;
      match kind n with
      | DocumentNode =>
          forRange (Content n)
            (fun _ child => deleteNodeRecursive fuel child target) tt
      | MappingNode =>
          do newContent <-
            deleteMappingLoop (fun child => deleteNodeRecursive fuel child target)
              fuel node target 0 [] ;;
          do n' <- load node ;;
          store node (setContent n' newContent)
      | SequenceNode =>
          do newContent <-
            forRange (Content n)
              (fun newContent elem =>
                 if elem =? target then ret newContent
                 else
                   do _ <- deleteNodeRecursive fuel elem target ;;
                   ret (newContent ++ [elem])) [] ;;
          do n' <- load node ;;
          store node (setContent n' newContent)
      | _ => ret tt
      end
  end.

Definition deleteNode {E} (fuel : nat) (root target : ptr) : M E unit :=
  deleteNodeRecursive fuel root target.

Definition replace (fuel : nat) (root : ptr) (rule : Rule) : M EngineError unit :=
  match Parse regexp2_Compile (RulePath rule) with
  | Err e => fail (ErrParsePath e)
  | Ok p =>
      do found <- attempt (Find regexp_MatchString fuel root p) ;;
      match found with
      | Err e => fail (ErrFindNodes e)
      | Ok nodes =>
          if List.length nodes =? 0 then fail ErrNoNodesFound
          else
            do newNode <- Encode (RuleVal rule) ;;
            forRange nodes (fun _ node => store node newNode) tt
      end
  end.

Definition set (fuel : nat) (root : ptr) (rule : Rule) : M EngineError unit :=
  match Parse regexp2_Compile (RulePath rule) with
  | Err e => fail (ErrParsePath e)
  | Ok p =>
      do found <- attempt (Find regexp_MatchString fuel root p) ;;
      match found with
      | Err e => fail (ErrFindNodes e)
      | Ok nodes =>
          if List.length nodes =? 0 then fail ErrNoNodesFound
          else
            forRange nodes
              (fun _ node =>
                 match RuleVal rule with
                 | VString v =>
                     do n <- load node ;; store node (setScalar n "!!str" v)
                 | VInt v =>
                     do n <- load node ;;
                     store node (setScalar n "!!int" (GoStrings.SprintInt v))
                 | VBool v =>
                     do n <- load node ;;
                     store node (setScalar n "!!bool" (GoStrings.SprintBool v))
                 | v =>
                     do newNode <- Encode v ;; store node newNode
                 end) tt
      end
  end.

Definition delete (fuel : nat) (root : ptr) (rule : Rule) : M EngineError unit :=
  match Parse regexp2_Compile (RulePath rule) with
  | Err e => fail (ErrParsePath e)
  | Ok p =>
      do found <-
        attempt (FindWithWhere regexp_MatchString fuel root p (Where rule)) ;;
      match found with
      | Err e => fail (ErrFindNodes e)
      | Ok nodes =>
          if List.length nodes =? 0 then ret tt
          else forRange nodes (fun _ node => deleteNode fuel root node) tt
      end
  end.

Definition regexReplace (fuel : nat) (root : ptr) (rule : Rule)
    : M EngineError unit :=
  match Parse regexp2_Compile (RulePath rule) with
  | Err e => fail (ErrParsePath e)
  | Ok p =>
      do found <- attempt (Find regexp_MatchString fuel root p) ;;
      match found with
      | Err e => fail (ErrFindNodes e)
      | Ok nodes =>
          if List.length nodes =? 0 then fail ErrNoNodesFound
          else if String.eqb (Pattern rule) "" then fail ErrPatternRequired
          else if negb (regexp_Compile (Pattern rule)) then fail ErrCompileRegex
          else
            match RuleVal rule with
            | VString replacement =>
                forRange nodes
                  (fun _ node =>
                     do n <- load node ;;
                     if negb (Kind_eqb (kind n) ScalarNode) then ret tt
                     else
                       store node
                         (setValue n
                            (regexp_ReplaceAllString (Pattern rule) (Value n)
                               replacement))) tt
            | _ => fail ErrReplacementMustBeString
            end
      end
  end.

Definition Apply (fuel : nat) (root : ptr) (rule : Rule) : M EngineError unit :=
  if String.eqb (Action rule) ActionReplace then replace fuel root rule
  else if String.eqb (Action rule) ActionSet then set fuel root rule
  else if String.eqb (Action rule) ActionDelete then delete fuel root rule
  else if String.eqb (Action rule) ActionRegexReplace then regexReplace fuel root rule
  else fail (ErrUnknownAction (Action rule)).

End Engine.

(** ** pkg/rule/loader.go *)

(** The errors of [Validate], one per [fmt.Errorf]. *)
Inductive ValidateError : Type :=
| ErrPathRequired
| ErrValueRequired (action : ActionType)
| ErrRegexPatternRequired
| ErrRegexReplacementRequired
| ErrRegexValueMustBeString
| ErrUnknownRuleAction (action : ActionType).

(** [rule.Value == nil] is [VNil]; the type assertion [rule.Value.(string)]
    holds of [VString] alone.  The [switch] has the cases replace,
    regex_replace and delete. *)
Definition Validate (rule : Rule) : result ValidateError unit :=
  if String.eqb (RulePath rule) "" then Err ErrPathRequired
  else if String.eqb (Action rule) ActionReplace then
    match RuleVal rule with
    | VNil => Err (ErrValueRequired (Action rule))
    | _ => Ok tt
    end
  else if String.eqb (Action rule) ActionRegexReplace then
    if String.eqb (Pattern rule) "" then Err ErrRegexPatternRequired
    else
      match RuleVal rule with
      | VNil => Err ErrRegexReplacementRequired
      | VString _ => Ok tt
      | _ => Err ErrRegexValueMustBeString
      end
  else if String.eqb (Action rule) ActionDelete then Ok tt
  else Err (ErrUnknownRuleAction (Action rule)).




(** ** pkg/processor *)

Inductive ProcessError : Type :=
| ErrApplyRule (i : nat) (path : string) (cause : EngineError).

Section Processor.

Variable regexp2_Compile : string -> bool.
Variable regexp_MatchString : string -> string -> option bool.
Variable regexp_Compile : string -> bool.
Variable regexp_ReplaceAllString : string -> string -> string -> string.

(** The loop [for i, r := range p.rules] of [ProcessFile], in the revision
    of the processor that reports a [ProcessResult]: it returns at the first
    rule [Apply] fails on, with the rule's index and path.  (The revision
    before it went on after an error whose text holds "not found".) *)
Fixpoint applyRules (fuel : nat) (root : ptr) (i : nat) (rules : list Rule)
    : M ProcessError unit :=
  match rules with
  | [] => ret tt
  | r :: rest =>
      do applied <-
        attempt (Apply regexp2_Compile regexp_MatchString regexp_Compile
                   regexp_ReplaceAllString fuel root r) ;;
      match applied with
      | Err e => fail (ErrApplyRule i (RulePath r) e)
      | Ok _ => applyRules fuel root (S i) rest
      end
  end.

End Processor.

(** [ProcessDirectory], in the same revision.  The file system is outside
    the program: [filepath.Walk] is the list of its calls to the callback
    (the path, whether it is a directory, whether the walk met an error
    there), and [filepath.Rel], [filepath.Join], [copyFile] and
    [ProcessFile], which read and write files, are given by what they
    return.  The calls to [copyFile] and [ProcessFile] are kept in a log. *)
Inductive FileError : Type :=
| ErrComputeRelativePath
| ErrBackupFile
| ErrProcessFile.

Record FailedFile : Type := mkFailedFile {
  FailedPath : string;
  FailedError : FileError
}.

(** The two counters are Go [int]s; a walk visits fewer files than an [int]
    holds, so they are written as unbounded integers. *)
Record ProcessResult : Type := mkProcessResult {
  TotalFiles : Z;
  SuccessFiles : Z;
  FailedFiles : list FailedFile
}.

Record WalkEntry : Type := mkWalkEntry {
  EntryPath : string;
  EntryIsDir : bool;
  EntryErr : bool
}.

Inductive FileOp : Type :=
| OpCopyFile (src dst : string)
| OpProcessFile (inputPath outputPath : string) (dryRun : bool).

(** [strings.HasSuffix(s, suffix)]. *)
Fixpoint hasSuffix (s suffix : string) : bool :=
  String.eqb s suffix
  || match s with
     | EmptyString => false
     | String _ rest => hasSuffix rest suffix
     end.

Section ProcessDirectory.

Variable filepath_Rel : string -> string -> option string.
Variable filepath_Join : string -> string -> string.
Variable copyFile : string -> string -> bool.
Variable ProcessFile : string -> string -> bool -> bool.

Variables (inputDir outputDir : string) (dryRun backup : bool).

(** The callback handed to [filepath.Walk]: [None] is a non-nil error
    returned to the walk, which ends it. *)
Definition walkFunc (result : ProcessResult) (log : list FileOp)
    (entry : WalkEntry) : option (ProcessResult * list FileOp) :=
  let path := EntryPath entry in
  if EntryErr entry then None
  else if EntryIsDir entry
          || (negb (hasSuffix path ".yaml") && negb (hasSuffix path ".yml"))
  then Some (result, log)
  else
    let result :=
      mkProcessResult (TotalFiles result + 1)%Z (SuccessFiles result)
        (FailedFiles result) in
    match filepath_Rel inputDir path with
    | None =>
        Some (mkProcessResult (TotalFiles result) (SuccessFiles result)
                (FailedFiles result ++ [mkFailedFile path ErrComputeRelativePath]),
              log)
    | Some relPath =>
        let outputPath :=
          if negb (String.eqb outputDir "") then filepath_Join outputDir relPath
          else path in
        let doBackup := backup && negb dryRun && String.eqb outputDir "" in
        let log := if doBackup
                   then log ++ [OpCopyFile path (path ++ ".bak")%string]
                   else log in
        if doBackup && negb (copyFile path (path ++ ".bak")%string) then
          Some (mkProcessResult (TotalFiles result) (SuccessFiles result)
                  (FailedFiles result ++ [mkFailedFile path ErrBackupFile]),
                log)
        else
          let log := log ++ [OpProcessFile path outputPath dryRun] in
          if negb (ProcessFile path outputPath dryRun) then
            Some (mkProcessResult (TotalFiles result) (SuccessFiles result)
                    (FailedFiles result ++ [mkFailedFile path ErrProcessFile]),
                  log)
          else
            Some (mkProcessResult (TotalFiles result) (SuccessFiles result + 1)%Z
                    (FailedFiles result),
                  log)
    end.

(** [filepath.Walk]: the callback on every entry in turn, up to the first
    error it returns.  The result is what [ProcessDirectory] returns: the
    [ProcessResult], and whether the walk ended in an error. *)
Fixpoint walk (entries : list WalkEntry) (result : ProcessResult)
    (log : list FileOp) : ProcessResult * list FileOp * bool :=
  match entries with
  | [] => (result, log, false)
  | entry :: rest =>
      match walkFunc result log entry with
      | None => (result, log, true)
      | Some (result', log') => walk rest result' log'
      end
  end.

Definition ProcessDirectory (entries : list WalkEntry)
    : ProcessResult * list FileOp * bool :=
  walk entries (mkProcessResult 0 0 []) [].

End ProcessDirectory.

(** * The vocabulary of the properties *)

(** ** Computations that only read, computations that only allocate *)

(** A computation leaves the heap as it was. *)
Definition readonly {E A} (m : M E A) : Prop := forall h, fst (m h) = h.

(** A computation returns and only allocates: the heap it leaves is the heap
    it was given followed by new nodes. *)
Definition extends {E A} (m : M E A) : Prop :=
  forall h, exists extra a, m h = (h ++ extra, Return (Ok a)).

(** The heap after [*node = *newNode] for every node of a list. *)
Definition overwritten (newNode : Node) (h : heap) (nodes : list ptr) : heap :=
  foldl (fun heap_ node => <[node := newNode]> heap_) h nodes.

(** ** Well-formed heaps *)

(** What yaml.v3 guarantees of a tree it parsed or encoded: every pointer a
    node holds is a node of the heap, and the [Content] of a mapping pairs
    keys with values. *)
Definition nodeWellFormed (h : heap) (n : Node) : bool :=
  forallb (fun p => p <? List.length h) (Content n)
  && match Alias n with
     | Some target => target <? List.length h
     | None => true
     end
  && (negb (Kind_eqb (kind n) MappingNode) || Nat.even (List.length (Content n))).

Definition wellFormed (h : heap) : bool := forallb (nodeWellFormed h) h.

(** ** Elements and candidates that pass *)

(** Whether the condition holds of an element, when it can be evaluated. *)
Definition satisfies (regexp_MatchString : string -> string -> option bool)
    (h : heap) (cond : Condition) (elem : ptr) : bool :=
  match snd (@matchCondition regexp_MatchString NavError elem cond h) with
  | Return (Ok true) => true
  | _ => false
  end.

(** The condition can be evaluated on an element: [matchCondition] returns. *)
Definition evaluable (regexp_MatchString : string -> string -> option bool)
    (h : heap) (cond : Condition) (elem : ptr) : Prop :=
  exists b, snd (@matchCondition regexp_MatchString NavError elem cond h)
            = Return (Ok b).

(** The walk from one node to another that consumes a prefix of an address
    one node at a time: through a document to its first child, through an
    alias to its target, through a field segment to the member it names,
    through an index segment to the element it counts.  [leadsTo h prefix k
    from i to j]: in [k] steps, from [from] at segment [i] to [to] at segment
    [j]. *)
Inductive leadsTo (h : heap) (prefix : list Segment)
    : nat -> ptr -> nat -> ptr -> nat -> Prop :=
| leads_here node idx :
    leadsTo h prefix 0 node idx node idx
| leads_document k node idx n child rest to j :
    h !! node = Some n -> kind n = DocumentNode -> Content n = child :: rest ->
    leadsTo h prefix k child idx to j ->
    leadsTo h prefix (S k) node idx to j
| leads_alias k node idx n target to j :
    h !! node = Some n -> kind n = AliasNode -> Alias n = Some target ->
    leadsTo h prefix k target idx to j ->
    leadsTo h prefix (S k) node idx to j
| leads_field k node idx n field valueNode to j :
    prefix !! idx = Some (SegmentTypeField field) ->
    h !! node = Some n -> kind n = MappingNode ->
    snd (@mappingScan NavError (Content n) field h)
      = Return (Ok (Some valueNode)) ->
    leadsTo h prefix k valueNode (idx + 1) to j ->
    leadsTo h prefix (S k) node idx to j
| leads_index k node idx n field i arrayNode a elem to j :
    prefix !! idx = Some (SegmentTypeArray field (SelectorTypeIndex i)) ->
    h !! node = Some n -> kind n = MappingNode ->
    snd (@mappingScan NavError (Content n) field h)
      = Return (Ok (Some arrayNode)) ->
    h !! arrayNode = Some a -> kind a = SequenceNode ->
    (0 <= i)%Z -> Content a !! Z.to_nat i = Some elem ->
    leadsTo h prefix k elem (idx + 1) to j ->
    leadsTo h prefix (S k) node idx to j.

(** The where-clause in the words of the specification: the name matches the
    regex if one is set, is outside the exclusion set if one is set, and
    inside the inclusion set if one is set. *)
Definition whereAccepts (regexp_MatchString : string -> string -> option bool)
    (w : WhereCondition) (name : string) : bool :=
  (String.eqb (NameRegex w) ""
   || match regexp_MatchString (NameRegex w) name with
      | Some true => true
      | _ => false
      end)
  && match NameNotIn w with
     | [] => true
     | excluded => negb (inList name excluded)
     end
  && match NameIn w with
     | [] => true
     | included => inList name included
     end.

(** Whether [matchWhere] keeps a candidate, when it returns. *)
Definition kept (regexp_MatchString : string -> string -> option bool)
    (h : heap) (w : WhereCondition) (candidate : ptr) : bool :=
  match snd (@matchWhere regexp_MatchString NavError candidate w h) with
  | Return (Ok true) => true
  | _ => false
  end.

(** [matchWhere] returns on a candidate. *)
Definition decided (regexp_MatchString : string -> string -> option bool)
    (h : heap) (w : WhereCondition) (candidate : ptr) : Prop :=
  exists b, snd (@matchWhere regexp_MatchString NavError candidate w h)
            = Return (Ok b).

(** ** Malformed paths *)

(** A path of [n] dots. *)
Fixpoint dots (n : nat) : string :=
  match n with
  | O => EmptyString
  | S n => String "." (dots n)
  end.

(** The text between the first "[" of a part and its closing "]", as
    [parseArraySegment] cuts it out. *)
Definition selectorText (part : string) : option string :=
  let bracketStart := GoStrings.Index part "[" in
  let bracketEnd := findClosingBracket part (bracketStart + 1) in
  if GoStrings.Contains part "[" && negb (bracketEnd =? -1)%Z
  then Some (GoStrings.slice part (bracketStart + 1) bracketEnd)
  else None.

(** The selectors the compiler refuses for their field name or their regex:
    an empty field name before "="; a value wrapped in "@" whose pattern is
    empty or does not compile. *)
Inductive refusedSelector (regexp2_Compile : string -> bool) : string -> Prop :=
| refused_empty_field value :
    refusedSelector regexp2_Compile (String "=" value)
| refused_regex selectorStr field value :
    GoStrings.Contains selectorStr "=" = true ->
    GoStrings.SplitN2 selectorStr "=" = [field; value] ->
    GoStrings.HasPrefix value "@" = true ->
    GoStrings.HasSuffix value "@" = true ->
    GoStrings.Trim value "@" = EmptyString
      \/ regexp2_Compile (GoStrings.Trim value "@") = false ->
    refusedSelector regexp2_Compile selectorStr.

(** The parts the compiler refuses: a first "[" that no "]" outside "@...@"
    closes, or a refused selector. *)
Inductive refusedPart (regexp2_Compile : string -> bool) : string -> Prop :=
| refused_unclosed part :
    GoStrings.Contains part "[" = true ->
    findClosingBracket part (GoStrings.Index part "[" + 1) = (-1)%Z ->
    refusedPart regexp2_Compile part
| refused_selector part selectorStr :
    selectorText part = Some selectorStr ->
    refusedSelector regexp2_Compile selectorStr ->
    refusedPart regexp2_Compile part.

(** The malformed paths the compiler is shown to reject: the empty path, and
    a path one of whose parts is refused. *)
Inductive malformed (regexp2_Compile : string -> bool) : string -> Prop :=
| malformed_empty : malformed regexp2_Compile EmptyString
| malformed_part pathStr part :
    In part (splitPath pathStr) -> refusedPart regexp2_Compile part ->
    malformed regexp2_Compile pathStr.

(** Induction over a rule value, through the lists it nests. *)
Section RuleValueInduction.

Variable P : RuleValue -> Prop.
Hypothesis HNil : P VNil.
Hypothesis HBool : forall b, P (VBool b).
Hypothesis HInt : forall n, P (VInt n).
Hypothesis HFloat : forall text, P (VFloat text).
Hypothesis HString : forall s, P (VString s).
Hypothesis HMap :
  forall members, Forall (fun member => P (snd member)) members -> P (VMap members).
Hypothesis HSlice : forall elems, Forall P elems -> P (VSlice elems).

Fixpoint RuleValue_nested_ind (v : RuleValue) : P v :=
  match v with
  | VNil => HNil
  | VBool b => HBool b
  | VInt n => HInt n
  | VFloat text => HFloat text
  | VString s => HString s
  | VMap members =>
      HMap members
        ((fix each (ms : list (string * RuleValue))
            : Forall (fun member => P (snd member)) ms :=
            match ms with
            | [] => List.Forall_nil _
            | (k, x) :: rest =>
                List.Forall_cons _ (k, x) rest (RuleValue_nested_ind x) (each rest)
            end) members)
  | VSlice elems =>
      HSlice elems
        ((fix each (vs : list RuleValue) : Forall P vs :=
            match vs with
            | [] => List.Forall_nil _
            | x :: rest => List.Forall_cons _ x rest (RuleValue_nested_ind x) (each rest)
            end) elems)
  end.

End RuleValueInduction.

(** ** Regex functions for closed examples

    The theorems below hold whatever the regex libraries do.  A closed
    example needs concrete functions: here a pattern free of metacharacters
    matches where it occurs, any other pattern is refused by the matcher, and
    the validator only asks for balanced parentheses. *)
Module Sample.

Definition isMeta (ch : ascii) : bool :=
  existsb (Ascii.eqb ch) (list_ascii_of_string "\.+*?()|[]{}^$").

Fixpoint hasMeta (pattern : string) : bool :=
  match pattern with
  | EmptyString => false
  | String ch rest => isMeta ch || hasMeta rest
  end.

Fixpoint stripPrefix (p s : string) : option string :=
  match p, s with
  | EmptyString, _ => Some s
  | String a p', String b s' => if Ascii.eqb a b then stripPrefix p' s' else None
  | String _ _, EmptyString => None
  end.

Fixpoint occursIn (p s : string) : bool :=
  match stripPrefix p s with
  | Some _ => true
  | None => match s with
            | EmptyString => false
            | String _ s' => occursIn p s'
            end
  end.

Definition regexp_MatchString (pattern s : string) : option bool :=
  if hasMeta pattern then None else Some (occursIn pattern s).

Definition regexp_Compile (pattern : string) : bool := negb (hasMeta pattern).

(** Every occurrence of a non-empty literal [p] replaced, left to right;
    [budget] is the length of the text still to read. *)
Fixpoint replaceLiteral (budget : nat) (p s repl : string) : string :=
  match budget with
  | O => s
  | S budget =>
      match stripPrefix p s with
      | Some rest =>
          (repl ++ replaceLiteral budget p rest repl)%string
      | None =>
          match s with
          | EmptyString => EmptyString
          | String ch s' => String ch (replaceLiteral budget p s' repl)
          end
      end
  end.

Definition regexp_ReplaceAllString (pattern src repl : string) : string :=
  if String.eqb pattern "" then src
  else replaceLiteral (String.length src) pattern src repl.

Fixpoint parensBalanced (pattern : string) (depth : nat) : bool :=
  match pattern with
  | EmptyString => depth =? 0
  | String "(" rest => parensBalanced rest (S depth)
  | String ")" rest =>
      match depth with
      | O => false
      | S depth => parensBalanced rest depth
      end
  | String _ rest => parensBalanced rest depth
  end.

Definition regexp2_Compile (pattern : string) : bool := parensBalanced pattern 0.

End Sample.

(** ** Documents and rules of the examples *)

(** A document holding [items: []]. *)
Definition emptyItems : heap :=
  [ mkNode DocumentNode "" "" None [1];
    mkNode MappingNode "!!map" "" None [2; 3];
    scalarNode "!!str" "items";
    mkNode SequenceNode "!!seq" "" None [] ].

(** Scenario A of the specification: a document whose [spec.containers] is
    the sequence [{name: nginx, image: old}, {name: other, image: x}]. *)
Definition scenarioA : heap :=
  [ mkNode DocumentNode "" "" None [1];
    mkNode MappingNode "!!map" "" None [2; 3];
    scalarNode "!!str" "spec";
    mkNode MappingNode "!!map" "" None [4; 5];
    scalarNode "!!str" "containers";
    mkNode SequenceNode "!!seq" "" None [6; 11];
    mkNode MappingNode "!!map" "" None [7; 8; 9; 10];
    scalarNode "!!str" "name"; scalarNode "!!str" "nginx";
    scalarNode "!!str" "image"; scalarNode "!!str" "old";
    mkNode MappingNode "!!map" "" None [12; 13; 14; 15];
    scalarNode "!!str" "name"; scalarNode "!!str" "other";
    scalarNode "!!str" "image"; scalarNode "!!str" "x" ].

(** Scenario B of the specification: a document whose [items] is a sequence
    of four mappings named foo1, foo2, foo3, foo4. *)
Definition scenarioB : heap :=
  [ mkNode DocumentNode "" "" None [1];
    mkNode MappingNode "!!map" "" None [2; 3];
    scalarNode "!!str" "items";
    mkNode SequenceNode "!!seq" "" None [4; 7; 10; 13];
    mkNode MappingNode "!!map" "" None [5; 6];
    scalarNode "!!str" "name"; scalarNode "!!str" "foo1";
    mkNode MappingNode "!!map" "" None [8; 9];
    scalarNode "!!str" "name"; scalarNode "!!str" "foo2";
    mkNode MappingNode "!!map" "" None [11; 12];
    scalarNode "!!str" "name"; scalarNode "!!str" "foo3";
    mkNode MappingNode "!!map" "" None [14; 15];
    scalarNode "!!str" "name"; scalarNode "!!str" "foo4" ].

Definition scenarioB_rule : Rule :=
  mkRule ActionDelete "items[*]" VNil ""
    (Some (mkWhere "" ["foo1"; "foo2"] [])).

(** A document with an anchor and an alias:
    [items: [{x: &A {x: "5"}}, *A]]. *)
Definition aliasDocument : heap :=
  [ mkNode DocumentNode "" "" None [1];
    mkNode MappingNode "!!map" "" None [2; 3];
    scalarNode "!!str" "items";
    mkNode SequenceNode "!!seq" "" None [4; 9];
    mkNode MappingNode "!!map" "" None [5; 6];
    scalarNode "!!str" "x";
    mkNode MappingNode "!!map" "" None [7; 8];
    scalarNode "!!str" "x";
    scalarNode "!!str" "5";
    mkNode AliasNode "" "A" (Some 6) [] ].


(** The path of the README's delete example, and its pattern with a
    negative lookahead. *)
Definition lookaheadPath : string := "env[name=@^xxx_(?!(foo1|foo2)$).*@]".
Definition lookaheadPattern : string := "^xxx_(?!(foo1|foo2)$).*".
Definition lookaheadCondition : Condition :=
  mkCondition "name" OpRegex lookaheadPattern.

(** A document holding [env: [{name: xxx_bar}]]. *)
Definition envDocument : heap :=
  [ mkNode DocumentNode "" "" None [1];
    mkNode MappingNode "!!map" "" None [2; 3];
    scalarNode "!!str" "env";
    mkNode SequenceNode "!!seq" "" None [4];
    mkNode MappingNode "!!map" "" None [5; 6];
    scalarNode "!!str" "name"; scalarNode "!!str" "xxx_bar" ].

(** A document with a sequence inside the elements of a sequence:
    [items: [{env: [{name: a}]}]]. *)
Definition nestedDocument : heap :=
  [ mkNode DocumentNode "" "" None [1];
    mkNode MappingNode "!!map" "" None [2; 3];
    scalarNode "!!str" "items";
    mkNode SequenceNode "!!seq" "" None [4];
    mkNode MappingNode "!!map" "" None [5; 6];
    scalarNode "!!str" "env";
    mkNode SequenceNode "!!seq" "" None [7];
    mkNode MappingNode "!!map" "" None [8; 9];
    scalarNode "!!str" "name"; scalarNode "!!str" "a" ].

(** ** Paths written out *)

(** [strings.Join(parts, ".")]: the parts of a path, a dot between them. *)
Fixpoint joinDots (parts : list string) : string :=
  match parts with
  | [] => EmptyString
  | [part] => part
  | part :: rest => (part ++ String "." (joinDots rest))%string
  end.

(** A text all of whose bytes are outside ASCII. *)
Fixpoint highBytes (s : string) : bool :=
  match s with
  | EmptyString => true
  | String c rest => (0x80 <=? GoUtf8.byteOf c)%Z && highBytes rest
  end.

(** The loop of [splitPath] as it runs on a text that is valid UTF-8, one
    byte at a time: a rune of several bytes has none of the three bytes the
    loop looks for, and is written back as it was read. *)
Fixpoint splitPathBytes (pathStr : string) (parts : list string)
    (current : string) (inBracket : bool) : list string :=
  match pathStr with
  | EmptyString =>
      if (0 <? GoStrings.len current)%Z then parts ++ [current] else parts
  | String ch rest =>
      if Ascii.eqb ch "[" then
        splitPathBytes rest parts (current ++ String ch EmptyString)%string true
      else if Ascii.eqb ch "]" then
        splitPathBytes rest parts (current ++ String ch EmptyString)%string false
      else if Ascii.eqb ch "." then
        if inBracket then
          splitPathBytes rest parts (current ++ String ch EmptyString)%string inBracket
        else if (0 <? GoStrings.len current)%Z then
          splitPathBytes rest (parts ++ [current]) EmptyString inBracket
        else
          splitPathBytes rest parts current inBracket
      else
        splitPathBytes rest parts (current ++ String ch EmptyString)%string inBracket
  end.

(** A text that the loop of [splitPath], entered with [inBracket], reads to
    its end without cutting it and leaves outside brackets: each "." of it
    comes after a "[" with no "]" in between, and after the last "[" comes a
    "]". *)
Fixpoint closedPart (part : string) (inBracket : bool) : bool :=
  match part with
  | EmptyString => negb inBracket
  | String ch rest =>
      if Ascii.eqb ch "[" then closedPart rest true
      else if Ascii.eqb ch "]" then closedPart rest false
      else if Ascii.eqb ch "." then inBracket && closedPart rest inBracket
      else closedPart rest inBracket
  end.

(** The text of a selector and of a segment in the syntax of the README:
    "*", a decimal integer, "field=value", "field=@pattern@"; a field name,
    and a field name followed by a selector in brackets. *)
Definition renderSelector (selector : Selector) : string :=
  match selector with
  | SelectorTypeWildcard => "*"
  | SelectorTypeIndex idx => GoStrings.SprintInt idx
  | SelectorTypeCondition cond =>
      match Op cond with
      | OpRegex =>
          (CondField cond ++ String "=" (String "@" (CondValue cond ++ "@")))%string
      | _ => (CondField cond ++ String "=" (CondValue cond))%string
      end
  end.

Definition renderSegment (segment : Segment) : string :=
  match segment with
  | SegmentTypeField field => field
  | SegmentTypeArray field selector =>
      (field ++ String "[" (renderSelector selector ++ "]"))%string
  end.

(** None of the bytes of [excluded] occurs in [s]. *)
Definition plain (s : string) (excluded : list ascii) : bool :=
  forallb (fun c => negb (GoStrings.Contains s c)) excluded.

(** The selectors and segments whose text the compiler reads back.  An
    index fits an [int].  The field name of a condition is not empty and
    holds none of "=", "]", "@"; a value compared for equality holds no "]"
    and no "@"; a pattern is not empty, holds no "@" and compiles.  The
    field name of a segment holds no "[", and the text of the segment is one
    part of a path: it is not empty and its dots stand inside its
    brackets. *)
Definition renderableSelector (regexp2_Compile : string -> bool)
    (selector : Selector) : bool :=
  match selector with
  | SelectorTypeWildcard => true
  | SelectorTypeIndex idx =>
      ((GoStrings.minInt <=? idx) && (idx <=? GoStrings.maxInt))%Z
  | SelectorTypeCondition cond =>
      negb (String.eqb (CondField cond) "")
      && plain (CondField cond) ["="; "]"; "@"]%char
      && match Op cond with
         | OpEqual => plain (CondValue cond) ["]"; "@"]%char
         | OpRegex =>
             negb (String.eqb (CondValue cond) "")
             && plain (CondValue cond) ["@"]%char
             && regexp2_Compile (CondValue cond)
         | OpNotEqual => false
         end
  end.

Definition renderable (regexp2_Compile : string -> bool) (segment : Segment)
    : bool :=
  negb (String.eqb (renderSegment segment) "")
  && closedPart (renderSegment segment) false
  && match segment with
     | SegmentTypeField field => negb (GoStrings.Contains field "[")
     | SegmentTypeArray field selector =>
         negb (GoStrings.Contains field "[")
         && renderableSelector regexp2_Compile selector
     end.

(** ** Mappings as lists of members *)

(** The members of a mapping in the order of its [Content]: the text of
    each key with the node of its value.  [None] when a key has no value or
    is no node of the heap. *)
Fixpoint members (h : heap) (content : list ptr) : option (list (string * ptr)) :=
  match content with
  | [] => Some []
  | [_] => None
  | keyNode :: valueNode :: rest =>
      match h !! keyNode, members h rest with
      | Some key, Some more => Some ((Value key, valueNode) :: more)
      | _, _ => None
      end
  end.

(** The value of the first member with a given key. *)
Definition firstNamed (name : string) (ms : list (string * ptr)) : option ptr :=
  match List.find (fun member => String.eqb (fst member) name) ms with
  | Some member => Some (snd member)
  | None => None
  end.

(** A condition holds of a node: the node is a mapping, it has a member
    with the condition's field as key, and the text of the first such
    member's value equals the condition's value or matches its pattern. *)
Definition holds (regexp_MatchString : string -> string -> option bool)
    (h : heap) (cond : Condition) (n : Node) : bool :=
  Kind_eqb (kind n) MappingNode
  && match members h (Content n) with
     | None => false
     | Some ms =>
         match firstNamed (CondField cond) ms with
         | None => false
         | Some valueNode =>
             match h !! valueNode, Op cond with
             | Some value, OpEqual => String.eqb (Value value) (CondValue cond)
             | Some value, OpRegex =>
                 match regexp_MatchString (CondValue cond) (Value value) with
                 | Some matched => matched
                 | None => false
                 end
             | _, _ => false
             end
         end
     end.

(** ** Trees as yaml.v3 parses them *)

(** A node at which the lookup stops unwrapping: a node of the heap that is
    neither a document nor an alias. *)
Definition settles (h : heap) (p : ptr) : bool :=
  match h !! p with
  | Some n =>
      negb (Kind_eqb (kind n) DocumentNode) && negb (Kind_eqb (kind n) AliasNode)
  | None => false
  end.

(** The content of a document is the root of its tree and an alias stands
    for an anchored node: neither is a document or an alias itself. *)
Definition nodeParsed (h : heap) (n : Node) : bool :=
  match kind n with
  | DocumentNode =>
      match Content n with
      | child :: _ => settles h child
      | [] => true
      end
  | AliasNode =>
      match Alias n with
      | Some target => settles h target
      | None => false
      end
  | _ => true
  end.

Definition parsed (h : heap) : bool :=
  wellFormed h && forallb (nodeParsed h) h.

(** A computation returns, a value or an error, on the heap it was given and
    leaves it as it was; a value it returns satisfies [P]. *)
Definition returns {E A} (m : M E A) (h : heap) (P : A -> Prop) : Prop :=
  exists r, m h = (h, Return r) /\ forall a, r = Ok a -> P a.

(** ** Failing without a trace *)

(** A computation never returns an error: it returns a value, panics or
    runs out of its budget. *)
Definition noError {E A} (m : M E A) : Prop :=
  forall h e, snd (m h) <> Return (Err e).

(** When a computation returns an error, the heap is the heap it was
    given. *)
Definition failsClean {E A} (m : M E A) : Prop :=
  forall h e, snd (m h) = Return (Err e) -> fst (m h) = h.

(** ** Nodes rewritten in place *)

(** The heap after each node of a list, one after the other, has been
    overwritten with [f] of its record. *)
Definition rewritten (f : Node -> Node) (h : heap) (nodes : list ptr) : heap :=
  foldl (fun heap_ node =>
           match heap_ !! node with
           | Some n => <[node := f n]> heap_
           | None => heap_
           end) h nodes.

(** The tag and the text [set] writes for a string, an [int] and a
    [bool]. *)
Definition scalarOf (v : RuleValue) : option (string * string) :=
  match v with
  | VString s => Some ("!!str", s)
  | VInt n => Some ("!!int", GoStrings.SprintInt n)
  | VBool b => Some ("!!bool", GoStrings.SprintBool b)
  | _ => None
  end.

(** ** Trees that only lose entries *)

(** A node after entries were taken out of its [Content]: kind, tag, text
    and alias are what they were, the children that remain stand in the
    order they had, a mapping that paired keys with values still does, and
    a document has lost nothing. *)
Definition prunedNode (n n' : Node) : Prop :=
  kind n' = kind n /\ Tag n' = Tag n /\ Value n' = Value n /\
  Alias n' = Alias n /\
  sublist (Content n') (Content n) /\
  (kind n = MappingNode -> Nat.even (List.length (Content n)) = true ->
   Nat.even (List.length (Content n')) = true) /\
  (kind n = DocumentNode -> Content n' = Content n).

(** A heap whose nodes are the nodes of another, each one pruned. *)
Definition pruned (h h' : heap) : Prop :=
  List.length h' = List.length h /\
  forall q n, h !! q = Some n -> exists n', h' !! q = Some n' /\ prunedNode n n'.

(** Whatever its outcome, a computation leaves a pruned heap. *)
Definition prunes {E A} (m : M E A) : Prop := forall h, pruned h (fst (m h)).

(** ** Errors that depend on the document *)

(** The errors a rule can meet in the engine although it is well made: a
    part of its path that does not parse, a lookup that fails, an address
    that resolves to nothing, and a pattern Go's regexp does not compile. *)
Inductive expectedError : EngineError -> Prop :=
| expected_segment part cause :
    expectedError (ErrParsePath (ErrInvalidSegment part cause))
| expected_lookup cause : expectedError (ErrFindNodes cause)
| expected_nothing : expectedError ErrNoNodesFound
| expected_regex : expectedError ErrCompileRegex.

(** ** What the rest of an address resolves to *)

(** The nodes the segments from position [segmentIdx] on resolve to, from
    an element; none when the lookup from the element fails. *)
Definition resolvedFrom (regexp_MatchString : string -> string -> option bool)
    (fuel : nat) (segments : list Segment) (segmentIdx : nat) (h : heap)
    (elem : ptr) : list ptr :=
  match snd (findRecursive regexp_MatchString fuel elem segments segmentIdx h) with
  | Return (Ok matched) => matched
  | _ => []
  end.

(** ** Writing into a parsed tree *)

(** A record that can be written into a heap: its pointers are nodes of the
    heap, a mapping pairs keys with values, and it is neither a document
    nor an alias. *)
Definition fits (h : heap) (n : Node) : Prop :=
  nodeWellFormed h n = true /\ kind n <> DocumentNode /\ kind n <> AliasNode.

(** A property of heaps that holds on when the heap grows. *)
Definition growing (P : heap -> Prop) : Prop :=
  forall h h', List.length h <= List.length h' -> P h -> P h'.

(** On a parsed heap that satisfies [P] the computation returns, a value or
    an error; the heap it leaves is parsed and no shorter, and with a value
    [a] it satisfies [Q a]. *)
Definition safely {E A} (P : heap -> Prop) (m : M E A)
    (Q : A -> heap -> Prop) : Prop :=
  forall h, parsed h = true -> P h ->
    exists h' r,
      m h = (h', Return r) /\ parsed h' = true /\
      List.length h <= List.length h' /\
      forall a, r = Ok a -> Q a h'.

(** ** The books of a directory run *)

(** A file the processor works on: an entry of the walk that is no
    directory and whose path ends in ".yaml" or ".yml". *)
Definition isYamlFile (entries : list WalkEntry) (path : string) : Prop :=
  exists entry,
    In entry entries /\ EntryPath entry = path /\ EntryIsDir entry = false /\
    hasSuffix path ".yaml" || hasSuffix path ".yml" = true.

(** What holds of the result and of the log of file operations all through
    a walk: every counted file is a success or a failure; a backup is made
    only of a file processed in place, outside a dry run, under the name of
    the file with ".bak"; only the YAML files of the walk are processed,
    with the dry-run flag of the run and, without an output directory, onto
    themselves; and only such files are reported as failed. *)
Definition booksBalance (entries : list WalkEntry) (outputDir : string)
    (dryRun backup : bool) (result : ProcessResult) (log : list FileOp) : Prop :=
  TotalFiles result
  = (SuccessFiles result + Z.of_nat (List.length (FailedFiles result)))%Z
  /\
  (forall src dst, In (OpCopyFile src dst) log ->
     backup = true /\ dryRun = false /\ outputDir = EmptyString
     /\ dst = (src ++ ".bak")%string /\ isYamlFile entries src)
  /\
  (forall inputPath outputPath flag,
     In (OpProcessFile inputPath outputPath flag) log ->
     flag = dryRun /\ (outputDir = EmptyString -> outputPath = inputPath)
     /\ isYamlFile entries inputPath)
  /\
  (forall failed, In failed (FailedFiles result) ->
     isYamlFile entries (FailedPath failed)).

(** ** What delete goes through, and what it leaves *)

(** The entries of a mapping that delete keeps: the pairs whose value is not
    the target. *)
Fixpoint dropPairs (target : ptr) (content : list ptr) : list ptr :=
  match content with
  | keyNode :: valueNode :: rest =>
      if valueNode =? target then dropPairs target rest
      else keyNode :: valueNode :: dropPairs target rest
  | _ => []
  end.

(** The values of a mapping, in order. *)
Fixpoint values (content : list ptr) : list ptr :=
  match content with
  | _ :: valueNode :: rest => valueNode :: values rest
  | _ => []
  end.

(** A node without the target among the values of a mapping or the elements
    of a sequence. *)
Definition withoutTarget (target : ptr) (n : Node) : Node :=
  match kind n with
  | MappingNode => setContent n (dropPairs target (Content n))
  | SequenceNode =>
      setContent n (List.filter (fun elem => negb (elem =? target)) (Content n))
  | _ => n
  end.

(** The children [deleteNodeRecursive] goes into from a node: the content of
    a document, the values of a mapping and the elements of a sequence other
    than the target. *)
Definition kids (target : ptr) (n : Node) : list ptr :=
  match kind n with
  | DocumentNode => Content n
  | MappingNode =>
      List.filter (fun child => negb (child =? target)) (values (Content n))
  | SequenceNode =>
      List.filter (fun child => negb (child =? target)) (Content n)
  | _ => []
  end.

(** The nodes [deleteNodeRecursive] goes through from a node. *)
Inductive visits (h : heap) (target : ptr) : ptr -> ptr -> Prop :=
| visits_here node : visits h target node node
| visits_child node n child q :
    h !! node = Some n -> In child (kids target n) ->
    visits h target child q ->
    visits h target node q.

(** A tree without cycles, whose nodes a measure bounds: the measure of a
    node exceeds that of each of its children and is at least half the
    length of its content. *)
Definition measured (h : heap) (measure : ptr -> nat) : Prop :=
  forall node n, h !! node = Some n ->
    List.length (Content n) <= 2 * measure node /\
    forall child, In child (Content n) -> measure child < measure node.

(** A heap in which delete has got to some of the nodes of [h0]. *)
Definition partlyDeleted (h0 : heap) (target : ptr) (h : heap) : Prop :=
  List.length h = List.length h0 /\
  forall q n0, h0 !! q = Some n0 ->
    h !! q = Some n0 \/ h !! q = Some (withoutTarget target n0).

(** What a run of [deleteNodeRecursive] over some nodes [from] has done to a
    heap [h] on its way to [h']: every node visited from them is without the
    target, and every other node is as it was. *)
Definition swept (h0 : heap) (target : ptr) (from : list ptr) (h h' : heap)
    : Prop :=
  partlyDeleted h0 target h' /\
  (forall q n0, h0 !! q = Some n0 ->
     (exists c, In c from /\ visits h0 target c q) ->
     h' !! q = Some (withoutTarget target n0)) /\
  (forall q, h' !! q = h !! q
             \/ ((exists c, In c from /\ visits h0 target c q)
                 /\ exists n0, h0 !! q = Some n0
                               /\ h' !! q = Some (withoutTarget target n0))).

(** ** Further documents of the examples *)

(** A document whose mapping has the key [a] twice: [a: 1] and [a: 2]. *)
Definition duplicateKeys : heap :=
  [ mkNode DocumentNode "" "" None [1];
    mkNode MappingNode "!!map" "" None [2; 3; 4; 5];
    scalarNode "!!str" "a"; scalarNode "!!int" "1";
    scalarNode "!!str" "a"; scalarNode "!!int" "2" ].

(** A document with a sequence under an anchor and an alias to it:
    [a: &S [x]] and [b: *S]. *)
Definition aliasedSequence : heap :=
  [ mkNode DocumentNode "" "" None [1];
    mkNode MappingNode "!!map" "" None [2; 3; 5; 6];
    scalarNode "!!str" "a";
    mkNode SequenceNode "!!seq" "" None [4];
    scalarNode "!!str" "x";
    scalarNode "!!str" "b";
    mkNode AliasNode "" "S" (Some 3) [] ].

(** * Lemmas and theorems *)

(** Induction over a [Content] read two entries at a time. *)
Lemma list_pair_ind {A} (P : list A -> Prop) :
  P [] -> (forall x, P [x]) -> (forall x y l, P l -> P (x :: y :: l)) ->
  forall l, P l.
Proof.
  intros Hnil Hone Hstep.
  assert (H : forall l, P l /\ forall x, P (x :: l)).
  { induction l as [| y l [IH1 IH2]]; split; auto. }
  intro l. apply H.
Qed.

(** ** Computations that leave the heap as it was *)

Create HintDb readonly.

Lemma readonly_ret {E A} (a : A) : readonly (@ret E A a).
Proof. intro h. reflexivity. Qed.

Lemma readonly_fail {E A} (e : E) : readonly (@fail E A e).
Proof. intro h. reflexivity. Qed.

Lemma readonly_panic {E A} : readonly (@panic E A).
Proof. intro h. reflexivity. Qed.

Lemma readonly_outOfFuel {E A} : readonly (@outOfFuel E A).
Proof. intro h. reflexivity. Qed.

Lemma readonly_load {E} (p : ptr) : readonly (@load E p).
Proof. intro h. unfold load. destruct (h !! p); reflexivity. Qed.

Lemma readonly_bind {E A B} (m : M E A) (k : A -> M E B) :
  readonly m -> (forall a, readonly (k a)) -> readonly (bind m k).
Proof.
  intros Hm Hk h. unfold bind. specialize (Hm h).
  destruct (m h) as [h' [[a | e] | | ]]; simpl in *; subst; try reflexivity.
  apply Hk.
Qed.

Lemma readonly_attempt {E E' A} (m : M E A) :
  readonly m -> readonly (@attempt E E' A m).
Proof.
  intros Hm h. unfold attempt. specialize (Hm h).
  destruct (m h) as [h' [r | | ]]; simpl in *; subst; reflexivity.
Qed.

Lemma readonly_forRange {E A S} (l : list A) (body : S -> A -> M E S) :
  (forall acc x, readonly (body acc x)) ->
  forall acc, readonly (forRange l body acc).
Proof.
  intros Hbody. induction l as [| x rest IH]; intro acc; simpl.
  - apply readonly_ret.
  - apply readonly_bind; [apply Hbody | exact IH].
Qed.

#[local] Hint Resolve readonly_ret readonly_fail readonly_panic
  readonly_outOfFuel readonly_load readonly_attempt : readonly.

(** Walks down a computation: a bind, a loop, then a case analysis on what
    a [match] or an [if] looks at. *)
Ltac readonly_step :=
  match goal with
  | |- readonly (bind _ _) => apply readonly_bind; [| intro]
  | |- readonly (forRange _ _ _) => apply readonly_forRange; intros
  | |- readonly (match ?x with _ => _ end) => destruct x
  | |- readonly _ => solve [auto with readonly]
  end.

Ltac readonly_auto := repeat readonly_step.

(** The result of a read-only computation. *)
Lemma readonly_run {E A} (m : M E A) (h : heap) :
  readonly m -> m h = (h, snd (m h)).
Proof. intro Hm. specialize (Hm h). destruct (m h); simpl in *; subst. reflexivity. Qed.

Section NavigatorReadonly.

Variable regexp_MatchString : string -> string -> option bool.

Lemma readonly_mappingScan {E} (content : list ptr) (name : string) :
  readonly (@mappingScan E content name).
Proof.
  induction content as [| k | k v rest IH] using list_pair_ind;
    simpl; try solve [auto with readonly].
  readonly_auto.
Qed.

#[local] Hint Resolve readonly_mappingScan : readonly.

Lemma readonly_matchConditionLoop {E} (content : list ptr) (cond : Condition) :
  readonly (@matchConditionLoop regexp_MatchString E content cond).
Proof.
  induction content as [| k | k v rest IH] using list_pair_ind;
    simpl; try solve [auto with readonly].
  readonly_auto.
Qed.

Lemma readonly_matchCondition {E} (node : ptr) (cond : Condition) :
  readonly (@matchCondition regexp_MatchString E node cond).
Proof.
  unfold matchCondition. readonly_auto. apply readonly_matchConditionLoop.
Qed.

Lemma readonly_nameScan {E} (content : list ptr) : readonly (@nameScan E content).
Proof.
  induction content as [| k | k v rest IH] using list_pair_ind;
    simpl; try solve [auto with readonly].
  readonly_auto.
Qed.

Lemma readonly_matchWhere {E} (node : ptr) (w : WhereCondition) :
  readonly (@matchWhere regexp_MatchString E node w).
Proof.
  unfold matchWhere. readonly_auto. apply readonly_nameScan.
Qed.

#[local] Hint Resolve readonly_matchCondition readonly_matchWhere : readonly.

Lemma readonly_findField rec node field segments segmentIdx :
  (forall n s i, readonly (rec n s i)) ->
  readonly (findField rec node field segments segmentIdx).
Proof.
  intro Hrec. unfold findField. readonly_auto.
Qed.

Lemma readonly_findArray rec node field selector segments segmentIdx :
  (forall n s i, readonly (rec n s i)) ->
  readonly (findArray regexp_MatchString rec node field selector segments segmentIdx).
Proof.
  intro Hrec. unfold findArray. readonly_auto.
Qed.

Lemma readonly_findRecursive fuel : forall node segments segmentIdx,
  readonly (findRecursive regexp_MatchString fuel node segments segmentIdx).
Proof.
  induction fuel as [| fuel IH]; intros node segments segmentIdx; simpl.
  - destruct (segments !! segmentIdx); auto with readonly.
  - destruct (segments !! segmentIdx) as [segment |]; [| auto with readonly].
    apply readonly_bind; [auto with readonly | intro n].
    destruct (kind n); try (destruct segment;
      [apply readonly_findField | apply readonly_findArray]; exact IH).
    + destruct (Content n); auto with readonly.
    + destruct (Alias n); auto with readonly.
Qed.

Lemma readonly_Find fuel root path :
  readonly (Find regexp_MatchString fuel root path).
Proof. apply readonly_findRecursive. Qed.

#[local] Hint Resolve readonly_Find : readonly.

Lemma readonly_FindWithWhere fuel root path w :
  readonly (FindWithWhere regexp_MatchString fuel root path w).
Proof.
  unfold FindWithWhere. readonly_auto.
Qed.

End NavigatorReadonly.

(** C10. [Find] and [FindWithWhere] are queries: whatever they return, a
    node list, an error, a panic or no result within the recursion budget,
    the heap after the call is the heap before it, so no kind, tag, value,
    key or child list of any node has changed. *)
Theorem Find_FindWithWhere_leave_tree_unchanged
    (regexp_MatchString : string -> string -> option bool)
    (fuel : nat) (root : ptr) (path : Path) (w : option WhereCondition)
    (h : heap) :
  fst (Find regexp_MatchString fuel root path h) = h /\
  fst (FindWithWhere regexp_MatchString fuel root path w h) = h.
Proof.
  split; [apply readonly_Find | apply readonly_FindWithWhere].
Qed.

(** ** Running a computation step by step *)

Lemma run_bind {E A B} (m : M E A) (k : A -> M E B) h h' a :
  m h = (h', Return (Ok a)) -> bind m k h = k a h'.
Proof. intro Hm. unfold bind. rewrite Hm. reflexivity. Qed.

Lemma run_load {E} (p : ptr) (n : Node) (h : heap) :
  h !! p = Some n -> @load E p h = (h, Return (Ok n)).
Proof. intro Hp. unfold load. rewrite Hp. reflexivity. Qed.

Lemma run_attempt {E E' A} (m : M E A) h h' r :
  m h = (h', Return r) -> @attempt E E' A m h = (h', Return (Ok r)).
Proof. intro Hm. unfold attempt. rewrite Hm. reflexivity. Qed.

(** ** Zero resolved nodes: delete against the other actions *)

(** C2. A delete rule whose address, after the where-clause, resolves to no
    node succeeds and hands back the heap it was given; replace, set and
    regex_replace on an address that resolves to no node report
    "no nodes found" instead.  (A lookup that itself fails is another matter:
    delete passes its error on, the heap untouched.) *)
Theorem delete_without_candidates_is_a_noop
    (regexp2_Compile : string -> bool)
    (regexp_MatchString : string -> string -> option bool)
    (regexp_Compile : string -> bool)
    (regexp_ReplaceAllString : string -> string -> string -> string)
    (fuel : nat) (root : ptr) (rule : Rule) (p : Path) (h : heap) :
  Parse regexp2_Compile (RulePath rule) = Ok p ->
  (Action rule = ActionDelete ->
   snd (FindWithWhere regexp_MatchString fuel root p (Where rule) h)
     = Return (Ok []) ->
   Apply regexp2_Compile regexp_MatchString regexp_Compile
     regexp_ReplaceAllString fuel root rule h = (h, Return (Ok tt)))
  /\
  (Action rule = ActionReplace \/ Action rule = ActionSet
     \/ Action rule = ActionRegexReplace ->
   snd (Find regexp_MatchString fuel root p h) = Return (Ok []) ->
   Apply regexp2_Compile regexp_MatchString regexp_Compile
     regexp_ReplaceAllString fuel root rule h
     = (h, Return (Err ErrNoNodesFound)))
  /\
  (forall e,
     Action rule = ActionDelete ->
     snd (FindWithWhere regexp_MatchString fuel root p (Where rule) h)
       = Return (Err e) ->
     Apply regexp2_Compile regexp_MatchString regexp_Compile
       regexp_ReplaceAllString fuel root rule h
     = (h, Return (Err (ErrFindNodes e)))).
Proof.
  intro Hparse.
  assert (Hdelete : forall r,
    Action rule = ActionDelete ->
    snd (FindWithWhere regexp_MatchString fuel root p (Where rule) h) = Return r ->
    Apply regexp2_Compile regexp_MatchString regexp_Compile
      regexp_ReplaceAllString fuel root rule h
    = (match r with
       | Err e => fail (ErrFindNodes e)
       | Ok nodes =>
           if List.length nodes =? 0 then ret tt
           else forRange nodes (fun _ node => deleteNode fuel root node) tt
       end) h).
  { intros r Haction Hfind. unfold Apply. rewrite Haction. simpl.
    unfold delete. rewrite Hparse.
    erewrite run_bind.
    2:{ apply run_attempt. rewrite (readonly_run _ h) by apply readonly_FindWithWhere.
        rewrite Hfind. reflexivity. }
    reflexivity. }
  split; [| split].
  - intros Haction Hfind. rewrite (Hdelete _ Haction Hfind). reflexivity.
  - intros Haction Hfind.
    assert (Hrun : forall E', @attempt _ E' _ (Find regexp_MatchString fuel root p) h
                   = (h, Return (Ok (Ok [])))).
    { intro E'. apply run_attempt.
      rewrite (readonly_run _ h) by apply readonly_Find.
      rewrite Hfind. reflexivity. }
    unfold Apply.
    destruct Haction as [Ha | [Ha | Ha]]; rewrite Ha; simpl.
    + unfold replace. rewrite Hparse. erewrite run_bind by apply Hrun. reflexivity.
    + unfold set. rewrite Hparse. erewrite run_bind by apply Hrun. reflexivity.
    + unfold regexReplace. rewrite Hparse. erewrite run_bind by apply Hrun.
      reflexivity.
  - intros e Haction Hfind. rewrite (Hdelete _ Haction Hfind). reflexivity.
Qed.

(** An instance: deleting [items[*]] from a document whose [items] is empty. *)
Lemma delete_without_candidates_witness :
  Apply Sample.regexp2_Compile Sample.regexp_MatchString Sample.regexp_Compile
    Sample.regexp_ReplaceAllString 8 0
    (mkRule ActionDelete "items[*]" VNil "" None) emptyItems
  = (emptyItems, Return (Ok tt)).
Proof.
  refine (proj1 (delete_without_candidates_is_a_noop _ _ _ _ 8 0
                   (mkRule ActionDelete "items[*]" VNil "" None)
                   (mkPath [SegmentTypeArray "items" SelectorTypeWildcard])
                   emptyItems _) _ _); reflexivity.
Defined.

(** ** Resolving an array segment *)

Section ArraySegment.

Variable regexp_MatchString : string -> string -> option bool.

Local Abbreviation findRec := (findRecursive regexp_MatchString).
Local Abbreviation findArr := (findArray regexp_MatchString).

Lemma findRecursive_at_end fuel node segments segmentIdx h :
  segments !! segmentIdx = None ->
  findRec fuel node segments segmentIdx h = (h, Return (Ok [node])).
Proof. intro Hend. destruct fuel; simpl; rewrite Hend; reflexivity. Qed.

Lemma findRecursive_array fuel node segments segmentIdx field selector n h :
  segments !! segmentIdx = Some (SegmentTypeArray field selector) ->
  h !! node = Some n -> kind n = MappingNode ->
  findRec (S fuel) node segments segmentIdx h
  = findArr (findRec fuel) node field selector segments segmentIdx h.
Proof.
  intros Hseg Hnode Hkind. simpl. rewrite Hseg.
  erewrite run_bind by (apply run_load; eassumption).
  rewrite Hkind. reflexivity.
Qed.

Section AtSequence.

(** The node the segment is applied to is a mapping whose member [field] is
    a sequence. *)
Variables (h : heap) (node arrayNode : ptr) (n a : Node) (field : string).
Hypothesis Hnode : h !! node = Some n.
Hypothesis Hmapping : kind n = MappingNode.
Hypothesis Hfield :
  snd (@mappingScan NavError (Content n) field h) = Return (Ok (Some arrayNode)).
Hypothesis Harray : h !! arrayNode = Some a.
Hypothesis Hsequence : kind a = SequenceNode.

Lemma run_mappingScan :
  @mappingScan NavError (Content n) field h = (h, Return (Ok (Some arrayNode))).
Proof.
  rewrite (readonly_run _ h) by apply readonly_mappingScan.
  rewrite Hfield. reflexivity.
Qed.

Lemma findArray_wildcard rec segments segmentIdx :
  findArr rec node field SelectorTypeWildcard segments segmentIdx h
  = forRange (Content a)
      (fun results elem =>
         do r <- attempt (rec elem segments (segmentIdx + 1)) ;;
         match r with
         | Err _ => ret results
         | Ok matched => ret (results ++ matched)
         end) [] h.
Proof.
  unfold findArray.
  erewrite run_bind by (apply run_load; eassumption).
  rewrite Hmapping. cbn [negb Kind_eqb].
  erewrite run_bind by apply run_mappingScan. cbv beta iota.
  erewrite run_bind by (apply run_load; eassumption).
  rewrite Hsequence. reflexivity.
Qed.

Lemma findArray_condition rec cond segments segmentIdx :
  findArr rec node field (SelectorTypeCondition cond) segments segmentIdx h
  = (do results <-
       forRange (Content a)
         (fun results elem =>
            do ok <- matchCondition regexp_MatchString elem cond ;;
            if ok : bool then
              do r <- attempt (rec elem segments (segmentIdx + 1)) ;;
              match r with
              | Err _ => ret results
              | Ok matched => ret (results ++ matched)
              end
            else ret results) [] ;;
     match results with
     | [] => fail ErrNoElementsMatch
     | _ => ret results
     end) h.
Proof.
  unfold findArray.
  erewrite run_bind by (apply run_load; eassumption).
  rewrite Hmapping. cbn [negb Kind_eqb].
  erewrite run_bind by apply run_mappingScan. cbv beta iota.
  erewrite run_bind by (apply run_load; eassumption).
  rewrite Hsequence. reflexivity.
Qed.

Lemma findArray_index rec idx segments segmentIdx :
  findArr rec node field (SelectorTypeIndex idx) segments segmentIdx h
  = (if ((idx <? 0) || (Z.of_nat (List.length (Content a)) <=? idx))%Z
     then fail (ErrIndexOutOfRange idx)
     else match Content a !! Z.to_nat idx with
          | Some elem => rec elem segments (segmentIdx + 1)
          | None => panic
          end) h.
Proof.
  unfold findArray.
  erewrite run_bind by (apply run_load; eassumption).
  rewrite Hmapping. cbn [negb Kind_eqb].
  erewrite run_bind by apply run_mappingScan. cbv beta iota.
  erewrite run_bind by (apply run_load; eassumption).
  rewrite Hsequence. reflexivity.
Qed.

End AtSequence.

Lemma findRecursive_field fuel node segments segmentIdx field n valueNode h :
  segments !! segmentIdx = Some (SegmentTypeField field) ->
  h !! node = Some n -> kind n = MappingNode ->
  snd (@mappingScan NavError (Content n) field h) = Return (Ok (Some valueNode)) ->
  findRec (S fuel) node segments segmentIdx h
  = findRec fuel valueNode segments (segmentIdx + 1) h.
Proof.
  intros Hseg Hnode Hkind Hfield. simpl. rewrite Hseg.
  erewrite run_bind by (apply run_load; eassumption).
  rewrite Hkind. unfold findField.
  erewrite run_bind by (apply run_load; eassumption).
  rewrite Hkind. cbn [negb Kind_eqb].
  erewrite run_bind by (eapply run_mappingScan; eassumption).
  reflexivity.
Qed.

(** The lookup follows the walk: what [leadsTo] describes is what
    [findRecursive] does while segments remain. *)
Lemma findRecursive_leadsTo h prefix suffix k from i to j :
  leadsTo h prefix k from i to j ->
  i <= List.length prefix -> suffix <> [] ->
  forall fuel,
    findRec (k + fuel) from (prefix ++ suffix) i h
    = findRec fuel to (prefix ++ suffix) j h.
Proof.
  intros Hwalk Hi Hsuffix.
  assert (Hin : forall idx, idx <= List.length prefix ->
            exists segment, (prefix ++ suffix) !! idx = Some segment).
  { intros idx Hidx. apply lookup_lt_is_Some_2. rewrite length_app.
    destruct suffix; [congruence | simpl; lia]. }
  induction Hwalk as
    [ node idx
    | k node idx n child rest to j Hnode Hkind Hcontent _ IH
    | k node idx n target to j Hnode Hkind Halias _ IH
    | k node idx n field valueNode to j Hseg Hnode Hkind Hfield _ IH
    | k node idx n field pos arrayNode a elem to j
        Hseg Hnode Hkind Hfield Harray Hsequence Hpos Helem _ IH ];
    intro fuel.
  - reflexivity.
  - destruct (Hin idx Hi) as [segment Hsegment].
    cbn [Nat.add findRecursive]. rewrite Hsegment.
    erewrite run_bind by (apply run_load; eassumption).
    rewrite Hkind, Hcontent. apply IH. exact Hi.
  - destruct (Hin idx Hi) as [segment Hsegment].
    cbn [Nat.add findRecursive]. rewrite Hsegment.
    erewrite run_bind by (apply run_load; eassumption).
    rewrite Hkind, Halias. apply IH. exact Hi.
  - assert (Hlt : idx < List.length prefix) by (eapply lookup_lt_Some; eassumption).
    cbn [Nat.add].
    erewrite findRecursive_field;
      [| apply lookup_app_l_Some; eassumption | eassumption..].
    apply IH. lia.
  - assert (Hlt : idx < List.length prefix) by (eapply lookup_lt_Some; eassumption).
    cbn [Nat.add].
    erewrite findRecursive_array;
      [| apply lookup_app_l_Some; eassumption | eassumption..].
    erewrite findArray_index by eassumption.
    assert (Hguard : ((pos <? 0) || (Z.of_nat (List.length (Content a)) <=? pos))%Z
                     = false).
    { apply lookup_lt_Some in Helem. apply orb_false_iff.
      split; [apply Z.ltb_ge | apply Z.leb_gt]; lia. }
    rewrite Hguard, Helem. apply IH. lia.
Qed.

(** On a well-formed heap the condition can be evaluated on every node. *)
Lemma wellFormed_node h p n :
  wellFormed h = true -> h !! p = Some n ->
  Forall (fun q => q < List.length h) (Content n) /\
  (kind n = MappingNode -> Nat.even (List.length (Content n)) = true).
Proof.
  intros Hwf Hp. unfold wellFormed in Hwf. rewrite forallb_forall in Hwf.
  assert (Hn : nodeWellFormed h n = true).
  { apply Hwf. apply list_elem_of_In. eapply list_elem_of_lookup_2. exact Hp. }
  unfold nodeWellFormed in Hn.
  apply andb_prop in Hn as [Hn Heven]. apply andb_prop in Hn as [Hcontent _].
  split.
  - apply List.Forall_forall. intros q Hq.
    rewrite forallb_forall in Hcontent. apply Nat.ltb_lt. apply Hcontent. exact Hq.
  - intro Hkind. rewrite Hkind in Heven. exact Heven.
Qed.

Lemma wellFormed_alias h p n target :
  wellFormed h = true -> h !! p = Some n -> Alias n = Some target ->
  target < List.length h.
Proof.
  intros Hwf Hp Halias. unfold wellFormed in Hwf. rewrite forallb_forall in Hwf.
  assert (Hn : nodeWellFormed h n = true).
  { apply Hwf. apply list_elem_of_In. eapply list_elem_of_lookup_2. exact Hp. }
  unfold nodeWellFormed in Hn.
  apply andb_prop in Hn as [Hn _]. apply andb_prop in Hn as [_ Htarget].
  rewrite Halias in Htarget. apply Nat.ltb_lt. exact Htarget.
Qed.

Lemma matchConditionLoop_returns {E} h cond content :
  Forall (fun q => q < List.length h) content ->
  Nat.even (List.length content) = true ->
  exists b, @matchConditionLoop regexp_MatchString E content cond h
            = (h, Return (Ok b)).
Proof.
  induction content as [| k | k v rest IH] using list_pair_ind;
    intros Hvalid Heven.
  - exists false. reflexivity.
  - discriminate.
  - inversion Hvalid as [| ? ? Hk Hrest]; subst.
    inversion Hrest as [| ? ? Hv Hrest']; subst.
    destruct (lookup_lt_is_Some_2 h k Hk) as [key Hkey].
    destruct (lookup_lt_is_Some_2 h v Hv) as [value Hvalue].
    cbn [matchConditionLoop].
    erewrite run_bind by (apply run_load; exact Hkey).
    destruct (String.eqb (Value key) (CondField cond)); [| apply IH; assumption].
    destruct (Op cond).
    + erewrite run_bind by (apply run_load; exact Hvalue). eexists. reflexivity.
    + apply IH; assumption.
    + erewrite run_bind by (apply run_load; exact Hvalue). eexists. reflexivity.
Qed.

Lemma wellFormed_evaluable h cond elem :
  wellFormed h = true -> elem < List.length h ->
  evaluable regexp_MatchString h cond elem.
Proof.
  intros Hwf Hvalid.
  destruct (lookup_lt_is_Some_2 h elem Hvalid) as [n Hn].
  destruct (wellFormed_node h elem n Hwf Hn) as [Hcontent Heven].
  unfold evaluable, matchCondition.
  erewrite run_bind by (apply run_load; exact Hn).
  destruct (kind n) eqn:Hkind; cbn [negb Kind_eqb];
    try (exists false; reflexivity).
  destruct (@matchConditionLoop_returns NavError h cond (Content n) Hcontent
              (Heven eq_refl)) as [b Hb].
  exists b. rewrite Hb. reflexivity.
Qed.

(** ** The nodes a lookup returns are nodes of the heap *)

(** A loop whose body only reads keeps what its body keeps. *)
Lemma forRange_invariant {E A S} (P : S -> Prop) (body : S -> A -> M E S) h l :
  (forall acc x, readonly (body acc x)) ->
  (forall acc x r, In x l -> P acc -> snd (body acc x h) = Return (Ok r) -> P r) ->
  forall acc r, P acc -> snd (forRange l body acc h) = Return (Ok r) -> P r.
Proof.
  intros Hread. induction l as [| x rest IH]; intros Hbody acc r Hacc; simpl.
  - intro Heq. injection Heq as <-. exact Hacc.
  - unfold bind at 1. rewrite (readonly_run (body acc x) h) by apply Hread.
    destruct (snd (body acc x h)) as [[acc' | e] | |] eqn:Hstep; try discriminate.
    apply IH.
    + intros acc0 y r0 Hy. apply Hbody. right. exact Hy.
    + eapply Hbody; [left; reflexivity | exact Hacc | exact Hstep].
Qed.

Lemma mappingScan_In {E} h name content : forall valueNode,
  snd (@mappingScan E content name h) = Return (Ok (Some valueNode)) ->
  In valueNode content.
Proof.
  induction content as [| k | k v rest IH] using list_pair_ind;
    intros valueNode; simpl; try discriminate.
  unfold bind at 1. unfold load at 1.
  destruct (h !! k) as [key |]; [| discriminate].
  destruct (String.eqb (Value key) name).
  - intro Heq. injection Heq as <-. right. left. reflexivity.
  - intro Hrest. right. right. apply IH. exact Hrest.
Qed.

Section ValidResults.

Variable h : heap.
Hypothesis Hwf : wellFormed h = true.

Local Abbreviation valid := (fun q : ptr => q < List.length h).

Variable rec : ptr -> list Segment -> nat -> M NavError (list ptr).
Hypothesis Hread : forall node segments segmentIdx,
  readonly (rec node segments segmentIdx).
Hypothesis Hrec : forall node segments segmentIdx l,
  valid node ->
  snd (rec node segments segmentIdx h) = Return (Ok l) -> Forall valid l.

Lemma findField_valid node field segments segmentIdx l :
  snd (findField rec node field segments segmentIdx h) = Return (Ok l) ->
  Forall valid l.
Proof.
  unfold findField. unfold bind at 1. unfold load at 1.
  destruct (h !! node) as [n |] eqn:Hnode; [| discriminate].
  destruct (negb (Kind_eqb (kind n) MappingNode)); [discriminate |].
  unfold bind at 1.
  rewrite (readonly_run (mappingScan (Content n) field) h)
    by apply readonly_mappingScan.
  destruct (snd (@mappingScan NavError (Content n) field h))
    as [[[valueNode |] | e] | |] eqn:Hscan; try discriminate.
  apply Hrec. apply mappingScan_In in Hscan.
  destruct (wellFormed_node h node n Hwf Hnode) as [Hcontent _].
  rewrite List.Forall_forall in Hcontent. apply Hcontent. exact Hscan.
Qed.

Lemma findArray_valid node field selector segments segmentIdx l :
  snd (findArr rec node field selector segments segmentIdx h) = Return (Ok l) ->
  Forall valid l.
Proof.
  unfold findArray. unfold bind at 1. unfold load at 1.
  destruct (h !! node) as [n |] eqn:Hnode; [| discriminate].
  destruct (negb (Kind_eqb (kind n) MappingNode)); [discriminate |].
  unfold bind at 1.
  rewrite (readonly_run (mappingScan (Content n) field) h)
    by apply readonly_mappingScan.
  destruct (snd (@mappingScan NavError (Content n) field h))
    as [[[arrayNode |] | e] | |] eqn:Hscan; try discriminate.
  unfold bind at 1. unfold load at 1.
  destruct (h !! arrayNode) as [a |] eqn:Harray; [| discriminate].
  destruct (negb (Kind_eqb (kind a) SequenceNode)); [discriminate |].
  destruct (wellFormed_node h arrayNode a Hwf Harray) as [Hcontent _].
  rewrite List.Forall_forall in Hcontent.
  assert (Hstep : forall (acc : list ptr) elem r,
            In elem (Content a) -> Forall valid acc ->
            snd ((do r0 <- @attempt NavError NavError _
                             (rec elem segments (segmentIdx + 1)) ;;
                  match r0 with
                  | Err _ => ret acc
                  | Ok matched => ret (acc ++ matched)
                  end) h) = Return (Ok r) ->
            Forall valid r).
  { intros acc elem r Hin Hacc. unfold bind, attempt.
    destruct (rec elem segments (segmentIdx + 1) h)
      as [h' [[matched | e] | |]] eqn:Hsub; simpl; try discriminate.
    - intro Heq. injection Heq as <-. apply Forall_app. split; [exact Hacc |].
      eapply Hrec; [apply Hcontent; exact Hin | rewrite Hsub; reflexivity].
    - intro Heq. injection Heq as <-. exact Hacc. }
  destruct selector as [| idx | cond].
  - apply (forRange_invariant (Forall valid)); [| exact Hstep | constructor].
    intros acc x. readonly_auto.
  - destruct ((idx <? 0) || (Z.of_nat (List.length (Content a)) <=? idx))%Z;
      [discriminate |].
    destruct (Content a !! Z.to_nat idx) as [elem |] eqn:Helem; [| discriminate].
    apply Hrec. apply Hcontent. apply list_elem_of_In.
    eapply list_elem_of_lookup_2. exact Helem.
  - unfold bind at 1.
    match goal with
    | |- context [forRange ?l ?body ?acc h] =>
        assert (Hloop : forall r, snd (forRange l body acc h) = Return (Ok r) ->
                                  Forall valid r);
        [| destruct (forRange l body acc h) as [h' [[results | e] | |]] eqn:Hrun;
           try discriminate ]
    end.
    + intro r. apply (forRange_invariant (Forall valid)); [| | constructor].
      * intros acc x. readonly_auto. apply readonly_matchCondition.
      * intros acc elem r' Hin Hacc. unfold bind at 1.
        rewrite (readonly_run (matchCondition regexp_MatchString elem cond) h)
          by apply readonly_matchCondition.
        destruct (snd (@matchCondition regexp_MatchString NavError elem cond h))
          as [[[|] | e] | |]; try discriminate.
        -- apply Hstep; assumption.
        -- intro Heq. injection Heq as <-. exact Hacc.
    + destruct results as [| first more]; [discriminate |].
      intro Heq. injection Heq as <-. apply Hloop. reflexivity.
Qed.

End ValidResults.

Lemma findRecursive_valid h fuel : wellFormed h = true ->
  forall node segments segmentIdx l,
    node < List.length h ->
    snd (findRec fuel node segments segmentIdx h) = Return (Ok l) ->
    Forall (fun q => q < List.length h) l.
Proof.
  intro Hwf. induction fuel as [| fuel IH];
    intros node segments segmentIdx l Hnode; simpl;
    destruct (segments !! segmentIdx) as [segment |];
    try (intro Heq; injection Heq as <-; repeat constructor; exact Hnode);
    try discriminate.
  unfold bind at 1. unfold load at 1.
  destruct (h !! node) as [n |] eqn:Hn; [| discriminate].
  destruct (wellFormed_node h node n Hwf Hn) as [Hcontent _].
  destruct (kind n);
    try (destruct segment;
         [apply findField_valid | apply findArray_valid];
         solve [assumption | apply readonly_findRecursive]).
  - destruct (Content n) as [| child rest]; [discriminate |].
    apply IH. inversion Hcontent; assumption.
  - destruct (Alias n) as [target |] eqn:Halias; [| discriminate].
    apply IH. eapply wellFormed_alias; eassumption.
Qed.

(** The wildcard loop when nothing is left of the address: every element
    resolves to itself. *)
Lemma wildcard_loop_at_end
    (rec : ptr -> list Segment -> nat -> M NavError (list ptr)) segments segmentIdx h :
  (forall elem, rec elem segments (segmentIdx + 1) h = (h, Return (Ok [elem]))) ->
  forall elems acc,
    forRange elems
      (fun results elem =>
         do r <- @attempt NavError NavError _ (rec elem segments (segmentIdx + 1)) ;;
         match r with
         | Err _ => ret results
         | Ok matched => ret (results ++ matched)
         end) acc h
    = (h, Return (Ok (acc ++ elems))).
Proof.
  intros Hrec elems. induction elems as [| elem rest IH]; intro acc; simpl.
  - rewrite app_nil_r. reflexivity.
  - erewrite run_bind.
    2:{ erewrite run_bind by (apply run_attempt; apply Hrec). reflexivity. }
    rewrite IH. rewrite <- app_assoc. reflexivity.
Qed.

Lemma run_matchCondition h cond elem b :
  snd (@matchCondition regexp_MatchString NavError elem cond h) = Return (Ok b) ->
  @matchCondition regexp_MatchString NavError elem cond h = (h, Return (Ok b)).
Proof.
  intro Hb. rewrite (readonly_run _ h) by apply readonly_matchCondition.
  rewrite Hb. reflexivity.
Qed.

(** The condition loop when nothing is left of the address: the elements
    that satisfy the condition, in order. *)
Lemma condition_loop_at_end
    (rec : ptr -> list Segment -> nat -> M NavError (list ptr)) cond segments segmentIdx h :
  (forall elem, rec elem segments (segmentIdx + 1) h = (h, Return (Ok [elem]))) ->
  forall elems acc,
    Forall (evaluable regexp_MatchString h cond) elems ->
    forRange elems
      (fun results elem =>
         do ok <- matchCondition regexp_MatchString elem cond ;;
         if ok : bool then
           do r <- @attempt NavError NavError _ (rec elem segments (segmentIdx + 1)) ;;
           match r with
           | Err _ => ret results
           | Ok matched => ret (results ++ matched)
           end
         else ret results) acc h
    = (h, Return (Ok (acc ++ List.filter (satisfies regexp_MatchString h cond) elems))).
Proof.
  intros Hrec elems. induction elems as [| elem rest IH]; intros acc Hall; simpl.
  - rewrite app_nil_r. reflexivity.
  - inversion Hall as [| ? ? [b Hb] Hrest]; subst.
    unfold satisfies at 1. rewrite Hb.
    destruct b.
    + erewrite run_bind.
      2:{ cbv beta. erewrite run_bind by (apply run_matchCondition; exact Hb).
          cbv beta iota.
          erewrite run_bind by (apply run_attempt; apply Hrec). reflexivity. }
      rewrite IH by assumption. rewrite <- app_assoc. reflexivity.
    + erewrite run_bind.
      2:{ cbv beta. erewrite run_bind by (apply run_matchCondition; exact Hb).
          cbv beta iota. reflexivity. }
      rewrite IH by assumption. reflexivity.
Qed.

(** No error leaves the wildcard loop, whatever is left of the address. *)
Lemma wildcard_loop_no_error
    (rec : ptr -> list Segment -> nat -> M NavError (list ptr)) segments segmentIdx elems :
  forall acc h e,
    snd (forRange elems
           (fun results elem =>
              do r <- @attempt NavError NavError _ (rec elem segments (segmentIdx + 1)) ;;
              match r with
              | Err _ => ret results
              | Ok matched => ret (results ++ matched)
              end) acc h)
    <> Return (Err e).
Proof.
  induction elems as [| elem rest IH]; intros acc h e; simpl.
  - discriminate.
  - unfold bind at 1. unfold bind at 1. unfold attempt.
    destruct (rec elem segments (segmentIdx + 1) h) as [h' [[matched | e'] | | ]];
      simpl; try discriminate; apply IH.
Qed.

(** A condition selector never hands back an empty list. *)
Lemma findArray_condition_nonempty rec node field cond segments segmentIdx h l :
  snd (findArr rec node field (SelectorTypeCondition cond) segments segmentIdx h)
    = Return (Ok l) ->
  l <> [].
Proof.
  unfold findArray, bind.
  repeat match goal with
         | |- context [match ?x with _ => _ end] => destruct x eqn:?
         end; simpl; try discriminate.
  intro Heq. injection Heq as <-. discriminate.
Qed.

Lemma findRecursive_condition_nonempty fuel :
  forall node segments segmentIdx field cond h l,
    segments !! segmentIdx = Some (SegmentTypeArray field (SelectorTypeCondition cond)) ->
    snd (findRec fuel node segments segmentIdx h) = Return (Ok l) ->
    l <> [].
Proof.
  induction fuel as [| fuel IH]; intros node segments segmentIdx field cond h l Hseg;
    simpl; rewrite Hseg; [discriminate |].
  unfold bind at 1. unfold load at 1.
  destruct (h !! node) as [n |]; [| discriminate].
  destruct (kind n);
    try (apply findArray_condition_nonempty).
  - destruct (Content n); [discriminate | eapply IH; eassumption].
  - destruct (Alias n); [eapply IH; eassumption | discriminate].
Qed.

End ArraySegment.

(** C1. For a well-formed tree and an address that ends in an array segment,
    where the segments before it lead from the root to a mapping whose member
    is a sequence: with a condition selector [Find] returns the elements
    satisfying the condition, in order, and fails with "no elements match
    condition" when there is none; with the wildcard it returns all the
    elements in order, the empty list for an empty sequence, and no error.
    At any position of an address a condition selector never yields an empty
    list, and the wildcard never yields an error once the sequence is
    found. *)
Theorem condition_fails_where_wildcard_succeeds
    (regexp_MatchString : string -> string -> option bool)
    (h : heap) (fuel k : nat) (root node arrayNode : ptr) (n a : Node)
    (field : string) (cond : Condition) (prefix : list Segment) :
  leadsTo h prefix k root 0 node (List.length prefix) ->
  h !! node = Some n -> kind n = MappingNode ->
  snd (@mappingScan NavError (Content n) field h) = Return (Ok (Some arrayNode)) ->
  h !! arrayNode = Some a -> kind a = SequenceNode ->
  wellFormed h = true ->
  Find regexp_MatchString (k + S fuel) root
    (mkPath (prefix ++ [SegmentTypeArray field (SelectorTypeCondition cond)])) h
  = (h, match List.filter (satisfies regexp_MatchString h cond) (Content a) with
        | [] => Return (Err ErrNoElementsMatch)
        | survivors => Return (Ok survivors)
        end)
  /\
  Find regexp_MatchString (k + S fuel) root
    (mkPath (prefix ++ [SegmentTypeArray field SelectorTypeWildcard])) h
  = (h, Return (Ok (Content a)))
  /\
  (forall fuel' node' segments segmentIdx l,
     segments !! segmentIdx
       = Some (SegmentTypeArray field (SelectorTypeCondition cond)) ->
     snd (findRecursive regexp_MatchString fuel' node' segments segmentIdx h)
       = Return (Ok l) ->
     l <> [])
  /\
  (forall segments segmentIdx e,
     segments !! segmentIdx = Some (SegmentTypeArray field SelectorTypeWildcard) ->
     snd (findRecursive regexp_MatchString (S fuel) node segments segmentIdx h)
       <> Return (Err e)).
Proof.
  intros Hwalk Hnode Hmapping Hfield Harray Hsequence Hwf.
  assert (Hall : Forall (evaluable regexp_MatchString h cond) (Content a)).
  { destruct (wellFormed_node h arrayNode a Hwf Harray) as [Hcontent _].
    eapply Forall_impl; [exact Hcontent |].
    intros elem Helem. apply wellFormed_evaluable; assumption. }
  assert (Hend : forall sel elem,
             findRecursive regexp_MatchString fuel elem
               (prefix ++ [SegmentTypeArray field sel]) (List.length prefix + 1) h
             = (h, Return (Ok [elem]))).
  { intros sel elem. apply findRecursive_at_end. apply lookup_ge_None_2.
    rewrite length_app. simpl. lia. }
  repeat split.
  - unfold Find. cbn [Segments].
    rewrite (findRecursive_leadsTo regexp_MatchString _ _ _ _ _ _ _ _ Hwalk)
      by (lia || discriminate).
    erewrite findRecursive_array; [| apply list_lookup_middle; reflexivity | eassumption..].
    erewrite findArray_condition by eassumption.
    erewrite run_bind.
    2:{ apply (condition_loop_at_end regexp_MatchString
                 (findRecursive regexp_MatchString fuel));
          [intro; apply Hend | assumption]. }
    simpl. destruct (List.filter _ _); reflexivity.
  - unfold Find. cbn [Segments].
    rewrite (findRecursive_leadsTo regexp_MatchString _ _ _ _ _ _ _ _ Hwalk)
      by (lia || discriminate).
    erewrite findRecursive_array; [| apply list_lookup_middle; reflexivity | eassumption..].
    erewrite findArray_wildcard by eassumption.
    apply (wildcard_loop_at_end (findRecursive regexp_MatchString fuel)).
    intro; apply Hend.
  - intros fuel' node' segments segmentIdx l.
    apply findRecursive_condition_nonempty.
  - intros segments segmentIdx e Hseg.
    erewrite findRecursive_array by eassumption.
    erewrite findArray_wildcard by eassumption.
    apply wildcard_loop_no_error.
Qed.

(** Scenario A: the document leads to the mapping under [spec] in two steps. *)
Lemma scenarioA_leads_to_spec :
  leadsTo scenarioA [SegmentTypeField "spec"] 2 0 0 3 1.
Proof.
  eapply leads_document; [reflexivity.. |].
  eapply leads_field; [reflexivity.. |].
  apply leads_here.
Qed.

(** An instance on scenario A: no container is named "absent". *)
Lemma condition_fails_witness :
  Find Sample.regexp_MatchString 3 0
    (mkPath [SegmentTypeField "spec";
             SegmentTypeArray "containers"
               (SelectorTypeCondition (mkCondition "name" OpEqual "absent"))])
    scenarioA
  = (scenarioA, Return (Err ErrNoElementsMatch)).
Proof.
  refine (proj1 (condition_fails_where_wildcard_succeeds
                   Sample.regexp_MatchString scenarioA 0 2 0 3 5
                   (mkNode MappingNode "!!map" "" None [4; 5])
                   (mkNode SequenceNode "!!seq" "" None [6; 11]) "containers"
                   (mkCondition "name" OpEqual "absent")
                   [SegmentTypeField "spec"] scenarioA_leads_to_spec
                   _ _ _ _ _ _));
    reflexivity.
Defined.

(** C1, counterexample.  A wildcard earlier in the address takes the failure
    of the condition for an element that does not match.  On
    [items: [{env: [{name: a}]}]] the address [items[*].env[name=zzz]] ends
    in a condition selector that no element survives, and [Find] returns the
    empty list and no error; reached through [items[0]] the same selector
    fails with "no elements match condition". *)
Lemma condition_under_wildcard_returns_empty_list :
  (fun regexp2_Compile => Parse regexp2_Compile "items[*].env[name=zzz]")
  = (fun _ =>
       Ok (mkPath [SegmentTypeArray "items" SelectorTypeWildcard;
                   SegmentTypeArray "env"
                     (SelectorTypeCondition (mkCondition "name" OpEqual "zzz"))]))
  /\
  (fun regexp_MatchString =>
     Find regexp_MatchString 8 0
       (mkPath [SegmentTypeArray "items" SelectorTypeWildcard;
                SegmentTypeArray "env"
                  (SelectorTypeCondition (mkCondition "name" OpEqual "zzz"))])
       nestedDocument)
  = (fun _ => (nestedDocument, Return (Ok [])))
  /\
  (fun regexp_MatchString =>
     Find regexp_MatchString 8 0
       (mkPath [SegmentTypeArray "items" (SelectorTypeIndex 0);
                SegmentTypeArray "env"
                  (SelectorTypeCondition (mkCondition "name" OpEqual "zzz"))])
       nestedDocument)
  = (fun _ => (nestedDocument, Return (Err ErrNoElementsMatch))).
Proof. repeat split; reflexivity. Qed.

(** C9. For an address with an index segment, where the segments before it
    lead from the root to a mapping whose member is a sequence of length L:
    an index within 0..L-1 makes [Find] continue in exactly the element at
    that position, and return that element when the address ends there; an
    index below 0 or from L upwards, -1 and L among them, makes it fail with
    "index out of range".  The parser reads a bare integer, signed or not, as
    such an index. *)
Theorem index_selector_bounds
    (regexp2_Compile : string -> bool)
    (regexp_MatchString : string -> string -> option bool)
    (h : heap) (fuel k : nat) (root node arrayNode : ptr) (n a : Node)
    (field : string) (idx : Z) (prefix rest : list Segment) :
  leadsTo h prefix k root 0 node (List.length prefix) ->
  h !! node = Some n -> kind n = MappingNode ->
  snd (@mappingScan NavError (Content n) field h) = Return (Ok (Some arrayNode)) ->
  h !! arrayNode = Some a -> kind a = SequenceNode ->
  let segments := prefix ++ SegmentTypeArray field (SelectorTypeIndex idx) :: rest in
  ((0 <= idx <= Z.of_nat (List.length (Content a)) - 1)%Z ->
   exists elem,
     Content a !! Z.to_nat idx = Some elem /\
     Find regexp_MatchString (k + S fuel) root (mkPath segments) h
     = findRecursive regexp_MatchString fuel elem segments (List.length prefix + 1) h /\
     (rest = [] ->
      Find regexp_MatchString (k + S fuel) root (mkPath segments) h
      = (h, Return (Ok [elem]))))
  /\
  ((idx < 0 \/ Z.of_nat (List.length (Content a)) <= idx)%Z ->
   Find regexp_MatchString (k + S fuel) root (mkPath segments) h
   = (h, Return (Err (ErrIndexOutOfRange idx))))
  /\
  (parseSelector regexp2_Compile "0" = Ok (SelectorTypeIndex 0) /\
   parseSelector regexp2_Compile "-1" = Ok (SelectorTypeIndex (-1))).
Proof.
  intros Hwalk Hnode Hmapping Hfield Harray Hsequence segments.
  assert (Hfind :
    Find regexp_MatchString (k + S fuel) root (mkPath segments) h
    = (if ((idx <? 0) || (Z.of_nat (List.length (Content a)) <=? idx))%Z
       then fail (ErrIndexOutOfRange idx)
       else match Content a !! Z.to_nat idx with
            | Some elem =>
                findRecursive regexp_MatchString fuel elem segments
                  (List.length prefix + 1)
            | None => panic
            end) h).
  { unfold Find, segments. cbn [Segments].
    rewrite (findRecursive_leadsTo regexp_MatchString _ _ _ _ _ _ _ _ Hwalk)
      by (lia || discriminate).
    erewrite findRecursive_array; [| apply list_lookup_middle; reflexivity | eassumption..].
    erewrite findArray_index by eassumption. reflexivity. }
  rewrite Hfind. split; [| split; [| split; reflexivity]].
  - intros Hrange.
    destruct (Content a !! Z.to_nat idx) as [elem |] eqn:Helem.
    2:{ apply lookup_ge_None_1 in Helem. lia. }
    exists elem.
    assert (Hguard : ((idx <? 0) || (Z.of_nat (List.length (Content a)) <=? idx))%Z
                     = false).
    { apply orb_false_iff. split; [apply Z.ltb_ge | apply Z.leb_gt]; lia. }
    rewrite Hguard. repeat split.
    intros ->. apply findRecursive_at_end. apply lookup_ge_None_2.
    unfold segments. rewrite length_app. simpl. lia.
  - intros Hout.
    assert (Hguard : ((idx <? 0) || (Z.of_nat (List.length (Content a)) <=? idx))%Z
                     = true).
    { apply orb_true_iff.
      destruct Hout; [left; apply Z.ltb_lt | right; apply Z.leb_le]; lia. }
    rewrite Hguard. reflexivity.
Qed.

(** An instance on scenario A: index 2 in a sequence of two elements. *)
Lemma index_selector_witness :
  Find Sample.regexp_MatchString 3 0
    (mkPath [SegmentTypeField "spec";
             SegmentTypeArray "containers" (SelectorTypeIndex 2)]) scenarioA
  = (scenarioA, Return (Err (ErrIndexOutOfRange 2))).
Proof.
  refine (proj1 (proj2 (index_selector_bounds
                   Sample.regexp2_Compile
                   Sample.regexp_MatchString scenarioA 0 2 0 3 5
                   (mkNode MappingNode "!!map" "" None [4; 5])
                   (mkNode SequenceNode "!!seq" "" None [6; 11]) "containers" 2
                   [SegmentTypeField "spec"] []
                   scenarioA_leads_to_spec _ _ _ _ _)) _);
    try reflexivity.
  right. simpl. lia.
Defined.

(** ** Runes read and written back *)

Section RunesReadBack.

Local Open Scope Z_scope.

(** Masks, shifts and the joining of bit fields, as arithmetic. *)
Lemma land_low (x : Z) (k : Z) (m : Z) :
  0 <= k -> m = Z.ones k -> Z.land x m = x mod 2 ^ k.
Proof. intros Hk ->. apply Z.land_ones. exact Hk. Qed.

Lemma land_disjoint (a b k : Z) :
  0 <= k -> a mod 2 ^ k = 0 -> 0 <= b < 2 ^ k -> Z.land a b = 0.
Proof.
  intros Hk Ha Hb. apply Z.bits_inj'. intros n Hn.
  rewrite Z.land_spec, Z.bits_0.
  destruct (Z.lt_ge_cases n k) as [Hlt | Hge].
  - rewrite <- (Z.mod_pow2_bits_low a k n) by lia.
    rewrite Ha, Z.bits_0. reflexivity.
  - destruct (Z.eq_dec b 0) as [-> | Hne].
    + rewrite Z.bits_0. apply andb_false_r.
    + rewrite (Z.bits_above_log2 b n); [apply andb_false_r | lia |].
      apply Z.log2_lt_pow2; [lia |].
      apply Z.lt_le_trans with (2 ^ k); [lia |].
      apply Z.pow_le_mono_r; lia.
Qed.

Lemma lor_add (a b k : Z) :
  0 <= k -> a mod 2 ^ k = 0 -> 0 <= b < 2 ^ k -> Z.lor a b = a + b.
Proof.
  intros Hk Ha Hb. pose proof (Z.add_lor_land a b) as H.
  rewrite (land_disjoint a b k Hk Ha Hb) in H. lia.
Qed.

Ltac bitsToArith :=
  repeat match goal with
  | |- context [Z.land ?x 0x3F] => rewrite (land_low x 6 0x3F) by (lia || reflexivity)
  | |- context [Z.land ?x 0x1F] => rewrite (land_low x 5 0x1F) by (lia || reflexivity)
  | |- context [Z.land ?x 0x0F] => rewrite (land_low x 4 0x0F) by (lia || reflexivity)
  | |- context [Z.land ?x 0x07] => rewrite (land_low x 3 0x07) by (lia || reflexivity)
  | |- context [Z.land ?x 0xFF] => rewrite (land_low x 8 0xFF) by (lia || reflexivity)
  | |- context [Z.shiftl ?x ?k] => rewrite (Z.shiftl_mul_pow2 x k) by lia
  | |- context [Z.shiftr ?x ?k] => rewrite (Z.shiftr_div_pow2 x k) by lia
  end.

Lemma two_bytes (s0 s1 : Z) :
  0xC2 <= s0 <= 0xDF -> 0x80 <= s1 <= 0xBF ->
  let r := Z.lor (Z.shiftl (Z.land s0 0x1F) 6) (Z.land s1 0x3F) in
  0x80 <= r <= 0x7FF
  /\ Z.lor 0xC0 (Z.land (Z.shiftr r 6) 0xFF) = s0
  /\ Z.lor 0x80 (Z.land (Z.land r 0xFF) 0x3F) = s1.
Proof.
  intros H0 H1 r.
  assert (Hr : r = (s0 - 0xC0) * 64 + (s1 - 0x80)).
  { unfold r. bitsToArith. change (2 ^ 6) with 64. change (2 ^ 5) with 32.
    rewrite (lor_add _ _ 6) by (try lia; Z.div_mod_to_equations; lia).
    Z.div_mod_to_equations; lia. }
  clearbody r. subst r. split; [lia |]. bitsToArith.
  change (2 ^ 6) with 64. change (2 ^ 8) with 256.
  split.
  - rewrite (lor_add _ _ 6) by (try lia; Z.div_mod_to_equations; lia).
    Z.div_mod_to_equations; lia.
  - rewrite (lor_add _ _ 6) by (try lia; Z.div_mod_to_equations; lia).
    Z.div_mod_to_equations; lia.
Qed.

Ltac powersOfTwo :=
  change (2 ^ 3) with 8 in *; change (2 ^ 4) with 16 in *;
  change (2 ^ 5) with 32 in *; change (2 ^ 6) with 64 in *;
  change (2 ^ 8) with 256 in *; change (2 ^ 12) with 4096 in *;
  change (2 ^ 18) with 262144 in *.

Ltac glue k :=
  rewrite (lor_add _ _ k) by (powersOfTwo; try lia; Z.div_mod_to_equations; lia).
Ltac glueAt a k :=
  rewrite (lor_add a _ k) by (powersOfTwo; try lia; Z.div_mod_to_equations; lia).

Lemma three_bytes (s0 s1 s2 : Z) :
  0xE0 <= s0 <= 0xEF -> 0x80 <= s1 <= 0xBF -> 0x80 <= s2 <= 0xBF ->
  (s0 = 0xE0 -> 0xA0 <= s1) -> (s0 = 0xED -> s1 <= 0x9F) ->
  let r := Z.lor (Z.lor (Z.shiftl (Z.land s0 0x0F) 12)
                        (Z.shiftl (Z.land s1 0x3F) 6))
                 (Z.land s2 0x3F) in
  0x800 <= r <= 0xFFFF /\ ~ 0xD800 <= r <= 0xDFFF
  /\ Z.lor 0xE0 (Z.land (Z.shiftr r 12) 0xFF) = s0
  /\ Z.lor 0x80 (Z.land (Z.land (Z.shiftr r 6) 0xFF) 0x3F) = s1
  /\ Z.lor 0x80 (Z.land (Z.land r 0xFF) 0x3F) = s2.
Proof.
  intros H0 H1 H2 Hlow Hhigh r.
  assert (Hr : r = (s0 - 0xE0) * 4096 + (s1 - 0x80) * 64 + (s2 - 0x80)).
  { unfold r. bitsToArith. powersOfTwo. glueAt (s0 mod 16 * 4096) 12. glue 6.
    Z.div_mod_to_equations; lia. }
  clearbody r. subst r. split; [lia |]. split; [lia |]. bitsToArith. powersOfTwo.
  repeat split.
  - glue 4. Z.div_mod_to_equations; lia.
  - glue 6. Z.div_mod_to_equations; lia.
  - glue 6. Z.div_mod_to_equations; lia.
Qed.

Lemma four_bytes (s0 s1 s2 s3 : Z) :
  0xF0 <= s0 <= 0xF4 -> 0x80 <= s1 <= 0xBF -> 0x80 <= s2 <= 0xBF ->
  0x80 <= s3 <= 0xBF ->
  (s0 = 0xF0 -> 0x90 <= s1) -> (s0 = 0xF4 -> s1 <= 0x8F) ->
  let r := Z.lor (Z.lor (Z.lor (Z.shiftl (Z.land s0 0x07) 18)
                               (Z.shiftl (Z.land s1 0x3F) 12))
                        (Z.shiftl (Z.land s2 0x3F) 6))
                 (Z.land s3 0x3F) in
  0x10000 <= r <= 0x10FFFF
  /\ Z.lor 0xF0 (Z.land (Z.shiftr r 18) 0xFF) = s0
  /\ Z.lor 0x80 (Z.land (Z.land (Z.shiftr r 12) 0xFF) 0x3F) = s1
  /\ Z.lor 0x80 (Z.land (Z.land (Z.shiftr r 6) 0xFF) 0x3F) = s2
  /\ Z.lor 0x80 (Z.land (Z.land r 0xFF) 0x3F) = s3.
Proof.
  intros H0 H1 H2 H3 Hlow Hhigh r.
  assert (Hr : r = (s0 - 0xF0) * 262144 + (s1 - 0x80) * 4096
                   + (s2 - 0x80) * 64 + (s3 - 0x80)).
  { unfold r. bitsToArith. powersOfTwo. glueAt (s0 mod 8 * 262144) 18.
    glueAt (s0 mod 8 * 262144 + s1 mod 64 * 4096) 12. glue 6.
    Z.div_mod_to_equations; lia. }
  clearbody r. subst r. split; [lia |]. bitsToArith. powersOfTwo.
  repeat split.
  - glue 3. Z.div_mod_to_equations; lia.
  - glue 6. Z.div_mod_to_equations; lia.
  - glue 6. Z.div_mod_to_equations; lia.
  - glue 6. Z.div_mod_to_equations; lia.
Qed.

Lemma byteOf_range (c : ascii) : 0 <= GoUtf8.byteOf c < 256.
Proof.
  unfold GoUtf8.byteOf. pose proof (N_ascii_bounded c) as H. lia.
Qed.

Lemma toByte_byteOf (c : ascii) : GoUtf8.toByte (GoUtf8.byteOf c) = c.
Proof.
  unfold GoUtf8.toByte. pose proof (byteOf_range c) as H.
  rewrite (land_low _ 8) by (lia || reflexivity).
  rewrite Z.mod_small by (change (2 ^ 8) with 256; lia).
  unfold GoUtf8.byteOf. rewrite N2Z.id. apply ascii_N_embedding.
Qed.

Lemma toByte_eq (x : Z) (c : ascii) : x = GoUtf8.byteOf c -> GoUtf8.toByte x = c.
Proof. intros ->. apply toByte_byteOf. Qed.

Lemma accept_spec (s0 sz lo hi : Z) :
  GoUtf8.accept s0 = Some (sz, lo, hi) ->
  0x80 <= lo /\ hi <= 0xBF /\
  ((sz = 2 /\ 0xC2 <= s0 <= 0xDF /\ lo = 0x80 /\ hi = 0xBF)
   \/ (sz = 3 /\ 0xE0 <= s0 <= 0xEF
       /\ (s0 = 0xE0 -> 0xA0 <= lo) /\ (s0 = 0xED -> hi <= 0x9F))
   \/ (sz = 4 /\ 0xF0 <= s0 <= 0xF4
       /\ (s0 = 0xF0 -> 0x90 <= lo) /\ (s0 = 0xF4 -> hi <= 0x8F))).
Proof.
  unfold GoUtf8.accept.
  repeat match goal with
         | |- context [if ?b then _ else _] => destruct b eqn:?
         end;
    intro H; try discriminate; injection H as <- <- <-; lia.
Qed.

Lemma decode_ascii (c : ascii) (t : string) :
  GoUtf8.byteOf c < 0x80 ->
  GoUtf8.DecodeRuneInString (String c t) = (GoUtf8.byteOf c, 1%nat)
  /\ GoUtf8.AppendRune (GoUtf8.byteOf c) = String c EmptyString.
Proof.
  intro H. pose proof (byteOf_range c) as Hc. split.
  - unfold GoUtf8.DecodeRuneInString.
    destruct (GoUtf8.byteOf c <? 0x80) eqn:E; [reflexivity | lia].
  - unfold GoUtf8.AppendRune. change (2 ^ 32) with 4294967296.
      rewrite Z.mod_small by lia.
    destruct (GoUtf8.byteOf c <=? 0x7F) eqn:E; [| lia].
    rewrite toByte_byteOf. reflexivity.
Qed.

Lemma decode_multibyte (c : ascii) (t : string) (r : GoUtf8.rune) (w : nat) :
  0x80 <= GoUtf8.byteOf c ->
  GoUtf8.DecodeRuneInString (String c t) = (r, w) ->
  (r =? GoUtf8.RuneError) && (w =? 1)%nat = false ->
  exists enc rest,
    t = (enc ++ rest)%string /\ GoUtf8.AppendRune r = String c enc
    /\ S (String.length enc) = w /\ highBytes enc = true /\ 0x80 <= r.
Proof.
  intros Hhigh Hdecode Hok.
  assert (Hbad : (GoUtf8.RuneError, 1%nat) = (r, w) -> False).
  { intro H. injection H as <- <-. discriminate. }
  unfold GoUtf8.DecodeRuneInString in Hdecode.
  destruct (GoUtf8.byteOf c <? 0x80) eqn:E; [lia | clear E].
  destruct (GoUtf8.accept (GoUtf8.byteOf c)) as [[[sz lo] hi] |] eqn:Haccept;
    [| contradiction (Hbad Hdecode)].
  apply accept_spec in Haccept as (Hlo & Hhi & Hcases).
  destruct (Z.of_nat (String.length (String c t)) <? sz) eqn:Hlen;
    [contradiction (Hbad Hdecode) |].
  destruct t as [| c1 t1];
    [cbn [String.length] in Hlen;
     destruct Hcases as [(-> & _) | [(-> & _) | (-> & _)]]; discriminate Hlen |].
  unfold GoUtf8.at_ in Hdecode. cbn [String.get] in Hdecode.
  pose proof (byteOf_range c1) as Hc1.
  destruct ((GoUtf8.byteOf c1 <? lo) || (hi <? GoUtf8.byteOf c1)) eqn:H1;
    [contradiction (Hbad Hdecode) |].
  apply orb_false_iff in H1 as [H1lo H1hi].
  destruct (sz <=? 2) eqn:Hsz2.
  { (* two bytes *)
    destruct Hcases as [(-> & H0 & -> & ->) | [(-> & _) | (-> & _)]];
      try discriminate.
    apply pair_equal_spec in Hdecode as [<- <-].
    pose proof (two_bytes (GoUtf8.byteOf c) (GoUtf8.byteOf c1) H0 ltac:(lia)) as Hround.
    cbv zeta in Hround. destruct Hround as (Hr & Hb0 & Hb1).
    exists (String c1 EmptyString), t1. repeat split; try lia.
    - unfold GoUtf8.AppendRune. change (2 ^ 32) with 4294967296.
      rewrite Z.mod_small by lia.
      destruct (_ <=? 0x7F) eqn:E1; [lia |].
      destruct (_ <=? 0x7FF) eqn:E2; [| lia].
      rewrite (toByte_eq _ c Hb0), (toByte_eq _ c1 Hb1). reflexivity.
    - cbn [highBytes]. destruct (0x80 <=? GoUtf8.byteOf c1) eqn:E; [reflexivity | lia]. }
  destruct t1 as [| c2 t2];
    [cbn [String.length] in Hlen;
     destruct Hcases as [(-> & _) | [(-> & _) | (-> & _)]];
     discriminate |].
  cbn [String.get] in Hdecode.
  pose proof (byteOf_range c2) as Hc2.
  destruct ((GoUtf8.byteOf c2 <? 0x80) || (0xBF <? GoUtf8.byteOf c2)) eqn:H2;
    [contradiction (Hbad Hdecode) |].
  apply orb_false_iff in H2 as [H2lo H2hi].
  destruct (sz <=? 3) eqn:Hsz3.
  { (* three bytes *)
    destruct Hcases as [(-> & _) | [(-> & H0 & Hl & Hh) | (-> & _)]];
      try discriminate.
    apply pair_equal_spec in Hdecode as [<- <-].
    pose proof (three_bytes (GoUtf8.byteOf c) (GoUtf8.byteOf c1) (GoUtf8.byteOf c2) H0
                  ltac:(lia) ltac:(lia) ltac:(lia) ltac:(lia)) as Hround.
    cbv zeta in Hround. destruct Hround as (Hr & Hsur & Hb0 & Hb1 & Hb2).
    exists (String c1 (String c2 EmptyString)), t2. repeat split; try lia.
    - unfold GoUtf8.AppendRune. change (2 ^ 32) with 4294967296.
      rewrite Z.mod_small by lia.
      destruct (_ <=? 0x7F) eqn:E1; [lia |].
      destruct (_ <=? 0x7FF) eqn:E2; [lia |].
      destruct ((0x10FFFF <? _) || _) eqn:E3.
      { apply orb_true_iff in E3 as [E3 | E3]; [lia |].
        apply andb_true_iff in E3. lia. }
      destruct (_ <=? 0xFFFF) eqn:E4; [| lia].
      unfold GoUtf8.encode3.
      rewrite (toByte_eq _ c Hb0), (toByte_eq _ c1 Hb1), (toByte_eq _ c2 Hb2).
      reflexivity.
    - cbn [highBytes].
      destruct (0x80 <=? GoUtf8.byteOf c1) eqn:E; [| lia].
      destruct (0x80 <=? GoUtf8.byteOf c2) eqn:E'; [reflexivity | lia]. }
  destruct t2 as [| c3 t3];
    [cbn [String.length] in Hlen;
     destruct Hcases as [(-> & _) | [(-> & _) | (-> & _)]];
     discriminate |].
  cbn [String.get] in Hdecode.
  pose proof (byteOf_range c3) as Hc3.
  destruct ((GoUtf8.byteOf c3 <? 0x80) || (0xBF <? GoUtf8.byteOf c3)) eqn:H3;
    [contradiction (Hbad Hdecode) |].
  apply orb_false_iff in H3 as [H3lo H3hi].
  destruct Hcases as [(-> & _) | [(-> & _) | (-> & H0 & Hl & Hh)]];
    try discriminate.
  apply pair_equal_spec in Hdecode as [<- <-].
  pose proof (four_bytes (GoUtf8.byteOf c) (GoUtf8.byteOf c1) (GoUtf8.byteOf c2) (GoUtf8.byteOf c3) H0
                ltac:(lia) ltac:(lia) ltac:(lia) ltac:(lia) ltac:(lia)) as Hround.
  cbv zeta in Hround. destruct Hround as (Hr & Hb0 & Hb1 & Hb2 & Hb3).
  exists (String c1 (String c2 (String c3 EmptyString))), t3.
  repeat split; try lia.
  - unfold GoUtf8.AppendRune. change (2 ^ 32) with 4294967296.
      rewrite Z.mod_small by lia.
    destruct (_ <=? 0x7F) eqn:E1; [lia |].
    destruct (_ <=? 0x7FF) eqn:E2; [lia |].
    destruct ((0x10FFFF <? _) || _) eqn:E3.
    { apply orb_true_iff in E3 as [E3 | E3]; [lia |].
      apply andb_true_iff in E3. lia. }
    destruct (_ <=? 0xFFFF) eqn:E4; [lia |].
    rewrite (toByte_eq _ c Hb0), (toByte_eq _ c1 Hb1), (toByte_eq _ c2 Hb2),
      (toByte_eq _ c3 Hb3).
    reflexivity.
  - cbn [highBytes].
    destruct (0x80 <=? GoUtf8.byteOf c1) eqn:E; [| lia].
    destruct (0x80 <=? GoUtf8.byteOf c2) eqn:E'; [| lia].
    destruct (0x80 <=? GoUtf8.byteOf c3) eqn:E''; [reflexivity | lia].
Qed.

(** An ASCII byte is a rune of its own. *)
Lemma rangeFrom_ascii (c : ascii) (t : string) :
  GoUtf8.byteOf c < 0x80 ->
  GoUtf8.rangeFrom (String c t) 0 = GoUtf8.byteOf c :: GoUtf8.rangeFrom t 0.
Proof.
  intro H. cbn [GoUtf8.rangeFrom].
  rewrite (proj1 (decode_ascii c t H)). reflexivity.
Qed.

(** What [WriteRune] appends is never empty. *)
Lemma AppendRune_nonempty (r : GoUtf8.rune) (current : string) :
  (current ++ GoUtf8.AppendRune r)%string <> EmptyString.
Proof.
  assert (H : exists c t, GoUtf8.AppendRune r = String c t).
  { unfold GoUtf8.AppendRune, GoUtf8.encode3.
    repeat match goal with
           | |- context [if ?b then _ else _] => destruct b
           end; eauto. }
  destruct H as (c & t & ->). destruct current; discriminate.
Qed.

End RunesReadBack.

(** C9, counterexample.  A wildcard earlier in the address takes the index
    out of range for an element that does not match.  On
    [items: [{env: [{name: a}]}]] the field [env] resolves to a sequence of
    length 1; the address [items[*].env[5]] returns the empty list and no
    error, and so does [items[*].env[-1]]; reached through [items[0]] the
    same selector fails with "index 5 out of range". *)
Lemma index_under_wildcard_returns_empty_list :
  (fun regexp2_Compile => Parse regexp2_Compile "items[*].env[5]")
  = (fun _ =>
       Ok (mkPath [SegmentTypeArray "items" SelectorTypeWildcard;
                   SegmentTypeArray "env" (SelectorTypeIndex 5)]))
  /\
  (fun regexp_MatchString =>
     Find regexp_MatchString 8 0
       (mkPath [SegmentTypeArray "items" SelectorTypeWildcard;
                SegmentTypeArray "env" (SelectorTypeIndex 5)])
       nestedDocument)
  = (fun _ => (nestedDocument, Return (Ok [])))
  /\
  (fun regexp_MatchString =>
     Find regexp_MatchString 8 0
       (mkPath [SegmentTypeArray "items" SelectorTypeWildcard;
                SegmentTypeArray "env" (SelectorTypeIndex (-1))])
       nestedDocument)
  = (fun _ => (nestedDocument, Return (Ok [])))
  /\
  (fun regexp_MatchString =>
     Find regexp_MatchString 8 0
       (mkPath [SegmentTypeArray "items" (SelectorTypeIndex 0);
                SegmentTypeArray "env" (SelectorTypeIndex 5)])
       nestedDocument)
  = (fun _ => (nestedDocument, Return (Err (ErrIndexOutOfRange 5)))).
Proof. repeat split; reflexivity. Qed.

(** ** The path compiler on malformed input *)

Section ParserFacts.

Variable regexp2_Compile : string -> bool.

Lemma splitPathLoop_dots n :
  splitPathLoop (GoUtf8.rangeFrom (dots n) 0) [] EmptyString false = [].
Proof.
  induction n as [| n IH]; [reflexivity |].
  cbn [dots]. rewrite rangeFrom_ascii by (vm_compute; reflexivity).
  exact IH.
Qed.

(** The first part that does not parse ends [Parse]'s loop with its error. *)
Lemma parseParts_error parts : forall segments part e,
  In part parts -> parseSegment regexp2_Compile part = Err e ->
  exists e', parseParts regexp2_Compile parts segments = Err e'.
Proof.
  induction parts as [| first rest IH]; intros segments part e Hin Herr;
    [destruct Hin |].
  simpl. destruct (parseSegment regexp2_Compile first) as [seg | e1] eqn:Hfirst.
  - destruct Hin as [-> | Hin]; [congruence |].
    eapply IH; eassumption.
  - eexists. reflexivity.
Qed.

(** A text holding a byte that is neither a sign nor a digit is no integer. *)
Lemma digitsValue_nondigit ch : GoStrings.isDigit ch = false ->
  forall s acc, GoStrings.Contains s ch = true -> GoStrings.digitsValue s acc = None.
Proof.
  intros Hch s. induction s as [| c rest IH]; intros acc Hin; simpl in *.
  - discriminate.
  - destruct (Ascii.eqb c ch) eqn:Hc.
    + apply Ascii.eqb_eq in Hc. subst c. rewrite Hch. reflexivity.
    + destruct (GoStrings.isDigit c); [apply IH; assumption | reflexivity].
Qed.

Lemma Atoi_equals_sign s :
  GoStrings.Contains s "=" = true -> GoStrings.Atoi s = None.
Proof.
  intro Hin. unfold GoStrings.Atoi.
  assert (Hd : forall t acc, GoStrings.Contains t "=" = true ->
                             GoStrings.digitsValue t acc = None).
  { intros t acc. apply digitsValue_nondigit. reflexivity. }
  destruct s as [| c rest]; [discriminate |].
  destruct (Ascii.eqb c "-") eqn:Hminus.
  { apply Ascii.eqb_eq in Hminus. subst c. simpl in Hin.
    destruct rest; [reflexivity |]. rewrite Hd by assumption. reflexivity. }
  destruct (Ascii.eqb c "+") eqn:Hplus.
  { apply Ascii.eqb_eq in Hplus. subst c. simpl in Hin.
    destruct rest; [reflexivity |]. rewrite Hd by assumption. reflexivity. }
  assert (Hsame :
    (match String c rest with
     | String "-" r => (true, r)
     | String "+" r => (false, r)
     | _ => (false, String c rest)
     end) = (false, String c rest)).
  { destruct c as [[] [] [] [] [] [] [] []]; try reflexivity; discriminate. }
  rewrite Hsame. rewrite Hd by assumption. reflexivity.
Qed.

Lemma Contains_eqb_false s (c : ascii) (lit : string) :
  GoStrings.Contains s c = true -> GoStrings.Contains lit c = false ->
  String.eqb s lit = false.
Proof.
  intros Hs Hlit. apply String.eqb_neq. intros ->. congruence.
Qed.

Lemma parseSelector_refused selectorStr :
  refusedSelector regexp2_Compile selectorStr ->
  exists e, parseSelector regexp2_Compile selectorStr = Err e.
Proof.
  intros [value | sel field value Hcontains Hsplit Hprefix Hsuffix Hpattern].
  - exists ErrFieldNameEmpty. unfold parseSelector.
    assert (Hc : GoStrings.Contains (String "=" value) "=" = true) by reflexivity.
    rewrite (Contains_eqb_false _ "=" "*" Hc eq_refl).
    rewrite (Contains_eqb_false _ "=" "?" Hc eq_refl).
    rewrite (Atoi_equals_sign _ Hc), Hc. reflexivity.
  - unfold parseSelector.
    rewrite (Contains_eqb_false _ "=" "*" Hcontains eq_refl).
    rewrite (Contains_eqb_false _ "=" "?" Hcontains eq_refl).
    rewrite (Atoi_equals_sign _ Hcontains), Hcontains, Hsplit.
    destruct (String.eqb field ""); [eexists; reflexivity |].
    rewrite Hprefix, Hsuffix. simpl.
    destruct Hpattern as [-> | Hbad]; [eexists; reflexivity |].
    destruct (String.eqb _ ""); [eexists; reflexivity |].
    rewrite Hbad. eexists; reflexivity.
Qed.

Lemma Index_Contains s c : forall i,
  (0 <= i)%Z -> GoStrings.Contains s c = true ->
  (GoStrings.IndexFrom s c i =? -1)%Z = false.
Proof.
  induction s as [| ch rest IH]; intros i Hi Hin; simpl in *; [discriminate |].
  destruct (Ascii.eqb ch c).
  - apply Z.eqb_neq. lia.
  - apply IH; [lia | assumption].
Qed.

Lemma parseSegment_refused part :
  refusedPart regexp2_Compile part -> exists e, parseSegment regexp2_Compile part = Err e.
Proof.
  intros [p Hopen Hclose | p sel Htext Hsel].
  - exists ErrNoClosingBracket.
    unfold parseSegment, parseArraySegment. rewrite Hopen.
    unfold GoStrings.Index in *. rewrite Index_Contains by (lia || assumption).
    rewrite Hclose. reflexivity.
  - unfold selectorText in Htext.
    destruct (GoStrings.Contains p "[") eqn:Hopen; [| discriminate].
    destruct (findClosingBracket p (GoStrings.Index p "[" + 1) =? -1)%Z eqn:Hclose;
      [discriminate |].
    simpl in Htext. injection Htext as Htext.
    destruct (parseSelector_refused sel Hsel) as [e He].
    exists e. unfold parseSegment, parseArraySegment. rewrite Hopen.
    unfold GoStrings.Index in *. rewrite Index_Contains by (lia || assumption).
    rewrite Hclose, Htext, He. reflexivity.
Qed.

End ParserFacts.

(** C3 (what the code does on a path of dots).  [Parse] refuses the empty
    string, but a path made of one or more dots passes that test, splits
    into no part at all and compiles to an address without any segment; on
    such an address [Find] answers with the root itself. *)
Theorem Parse_dots_compile_to_no_segment
    (regexp2_Compile : string -> bool)
    (regexp_MatchString : string -> string -> option bool)
    (n fuel : nat) (root : ptr) (h : heap) :
  Parse regexp2_Compile EmptyString = Err ErrEmptyPath /\
  Parse regexp2_Compile (dots (S n)) = Ok (mkPath []) /\
  Find regexp_MatchString fuel root (mkPath []) h = (h, Return (Ok [root])).
Proof.
  split; [reflexivity | split].
  - assert (Hsplit : splitPath (dots (S n)) = [])
      by exact (splitPathLoop_dots (S n)).
    unfold Parse. rewrite Hsplit. reflexivity.
  - apply findRecursive_at_end. reflexivity.
Qed.

(** C6 (what the code does on a "]" inside a regex literal that a "." follows).
    [findClosingBracket] skips a "]" between "@" and "@", [splitPath] does
    not: it leaves the bracket there and cuts the path at the next dot, so
    the first part has no closing bracket and compilation fails. *)
Theorem Parse_splits_inside_regex_literal (regexp2_Compile : string -> bool) :
  findClosingBracket "env[name=@^[a-z].*$@]" 4 = 20%Z /\
  splitPath "env[name=@^[a-z].*$@]" = ["env[name=@^[a-z]"; "*$@]"] /\
  Parse regexp2_Compile "env[name=@^[a-z].*$@]"
  = Err (ErrInvalidSegment "env[name=@^[a-z]" ErrNoClosingBracket).
Proof. repeat split; reflexivity. Qed.

(** C5, counterexample.  Whatever the regex library does, a "]" that no "["
    opens is taken into the field name, an array segment may have an empty
    field name, and a "[" left open after a closed selector is dropped with
    the text around it: none of the three is reported. *)
Lemma Parse_accepts_stray_bracket_and_empty_field :
  (fun regexp2_Compile => Parse regexp2_Compile "a]")
  = (fun _ => Ok (mkPath [SegmentTypeField "a]"]))
  /\
  (fun regexp2_Compile => Parse regexp2_Compile "[0]")
  = (fun _ => Ok (mkPath [SegmentTypeArray "" (SelectorTypeIndex 0)]))
  /\
  (fun regexp2_Compile => Parse regexp2_Compile "a[0]c[d")
  = (fun _ => Ok (mkPath [SegmentTypeArray "a" (SelectorTypeIndex 0)])).
Proof. repeat split; reflexivity. Qed.

(** C5, in the form the code satisfies.  [Parse] fails on the empty path, on
    a part whose first "[" is not closed by a "]" outside "@...@", on a
    selector with an empty field name, and on a selector whose "@...@"
    pattern is empty or does not compile. *)
Theorem Parse_rejects_malformed
    (regexp2_Compile : string -> bool) (pathStr : string) :
  malformed regexp2_Compile pathStr ->
  exists e, Parse regexp2_Compile pathStr = Err e.
Proof.
  intros [| p part Hin Hpart].
  - exists ErrEmptyPath. reflexivity.
  - unfold Parse. destruct (String.eqb p ""); [eexists; reflexivity |].
    destruct (parseSegment_refused regexp2_Compile part Hpart) as [e He].
    eapply parseParts_error; eassumption.
Qed.

(** An instance: a pattern with an unbalanced parenthesis, which the sample
    validator refuses. *)
Lemma Parse_rejects_malformed_witness :
  exists e, Parse Sample.regexp2_Compile "spec.env[name=@(@].value" = Err e.
Proof.
  apply Parse_rejects_malformed.
  apply (malformed_part _ _ "env[name=@(@]"); [right; left; reflexivity |].
  apply (refused_selector _ _ "name=@(@"); [reflexivity |].
  apply (refused_regex _ _ "name" "@(@"); try reflexivity.
  right. reflexivity.
Defined.

(** ** The where-clause of delete *)

Section WhereClause.

Variable regexp_MatchString : string -> string -> option bool.

Lemma matchWhere_not_mapping {E} h node n w :
  h !! node = Some n -> kind n <> MappingNode ->
  @matchWhere regexp_MatchString E node w h = (h, Return (Ok false)).
Proof.
  intros Hnode Hkind. unfold matchWhere.
  erewrite run_bind by (apply run_load; eassumption).
  destruct (kind n); try reflexivity. congruence.
Qed.

Lemma matchWhere_mapping {E} h node n w name :
  h !! node = Some n -> kind n = MappingNode ->
  snd (@nameScan E (Content n) h) = Return (Ok name) ->
  @matchWhere regexp_MatchString E node w h
  = (h, Return (Ok (negb (String.eqb name "")
                    && whereAccepts regexp_MatchString w name))).
Proof.
  intros Hnode Hkind Hname. unfold matchWhere.
  erewrite run_bind by (apply run_load; eassumption).
  rewrite Hkind. cbn [negb Kind_eqb].
  erewrite run_bind.
  2:{ rewrite (readonly_run _ h) by apply readonly_nameScan.
      rewrite Hname. reflexivity. }
  unfold whereAccepts.
  destruct (NameNotIn w) as [| x xs], (NameIn w) as [| y ys];
    cbn [List.length Nat.ltb Nat.leb andb];
    repeat match goal with
           | |- context [inList name ?l] => generalize (inList name l); intro
           end;
    destruct (String.eqb name ""), (String.eqb (NameRegex w) ""),
             (regexp_MatchString (NameRegex w) name) as [[|] |];
    repeat match goal with b : bool |- _ => destruct b end;
    reflexivity.
Qed.

Lemma nameScan_returns {E} h content :
  Forall (fun q => q < List.length h) content ->
  Nat.even (List.length content) = true ->
  exists name, @nameScan E content h = (h, Return (Ok name)).
Proof.
  induction content as [| k | k v rest IH] using list_pair_ind;
    intros Hvalid Heven.
  - eexists. reflexivity.
  - discriminate.
  - inversion Hvalid as [| ? ? Hk Hrest]; subst.
    inversion Hrest as [| ? ? Hv Hrest']; subst.
    destruct (lookup_lt_is_Some_2 h k Hk) as [key Hkey].
    destruct (lookup_lt_is_Some_2 h v Hv) as [value Hvalue].
    cbn [nameScan].
    erewrite run_bind by (apply run_load; exact Hkey).
    destruct (String.eqb (Value key) "name"); [| apply IH; assumption].
    erewrite run_bind by (apply run_load; exact Hvalue). eexists. reflexivity.
Qed.

(** On a well-formed heap [matchWhere] returns on every node. *)
Lemma wellFormed_decided h w candidate :
  wellFormed h = true -> candidate < List.length h ->
  decided regexp_MatchString h w candidate.
Proof.
  intros Hwf Hvalid.
  destruct (lookup_lt_is_Some_2 h candidate Hvalid) as [n Hn].
  destruct (wellFormed_node h candidate n Hwf Hn) as [Hcontent Heven].
  destruct (Kind_eqb (kind n) MappingNode) eqn:Hkind.
  - assert (Hmapping : kind n = MappingNode)
      by (revert Hkind; destruct (kind n); simpl; congruence).
    destruct (@nameScan_returns NavError h (Content n) Hcontent (Heven Hmapping))
      as [name Hname].
    eexists. erewrite matchWhere_mapping;
      [reflexivity | eassumption | assumption | rewrite Hname; reflexivity].
  - exists false. erewrite matchWhere_not_mapping;
      [reflexivity | eassumption | intro Heq; rewrite Heq in Hkind; discriminate].
Qed.

(** The filtering loop of [FindWithWhere]. *)
Lemma where_loop h w candidates : forall acc,
  Forall (decided regexp_MatchString h w) candidates ->
  forRange candidates
    (fun results node =>
       do ok <- @matchWhere regexp_MatchString NavError node w ;;
       if ok : bool then ret (results ++ [node]) else ret results) acc h
  = (h, Return (Ok (acc ++ List.filter (kept regexp_MatchString h w) candidates))).
Proof.
  induction candidates as [| c rest IH]; intros acc Hall; simpl.
  - rewrite app_nil_r. reflexivity.
  - inversion Hall as [| ? ? [b Hb] Hrest]; subst.
    unfold kept at 1. rewrite Hb.
    assert (Hrun : @matchWhere regexp_MatchString NavError c w h
                   = (h, Return (Ok b))).
    { rewrite (readonly_run _ h) by apply readonly_matchWhere.
      rewrite Hb. reflexivity. }
    destruct b.
    + erewrite run_bind.
      2:{ cbv beta. erewrite run_bind by exact Hrun. reflexivity. }
      rewrite IH by assumption. rewrite <- app_assoc. reflexivity.
    + erewrite run_bind.
      2:{ cbv beta. erewrite run_bind by exact Hrun. reflexivity. }
      rewrite IH by assumption. reflexivity.
Qed.

End WhereClause.

(** C8. Scenario B: the delete rule with [name_not_in = [foo1, foo2]] leaves
    the sequence holding the elements named foo1 and foo2, in that order,
    and no other node changes.  The where-clause keeps a candidate only if it
    is a mapping whose "name" member is non-empty and passes the regex, the
    exclusion set and the inclusion set, each when set; on a well-formed
    tree [FindWithWhere] returns the kept candidates in the order [Find] gave
    them. *)
Theorem where_clause_filters_scenario_B
    (regexp2_Compile : string -> bool)
    (regexp_MatchString : string -> string -> option bool)
    (regexp_Compile : string -> bool)
    (regexp_ReplaceAllString : string -> string -> string -> string) :
  Apply regexp2_Compile regexp_MatchString regexp_Compile
    regexp_ReplaceAllString 10 0 scenarioB_rule scenarioB
  = (<[3 := mkNode SequenceNode "!!seq" "" None [4; 7]]> scenarioB,
     Return (Ok tt))
  /\
  (forall h node n w,
     h !! node = Some n ->
     (kind n <> MappingNode ->
      @matchWhere regexp_MatchString NavError node w h = (h, Return (Ok false)))
     /\
     (forall name,
        kind n = MappingNode ->
        snd (@nameScan NavError (Content n) h) = Return (Ok name) ->
        @matchWhere regexp_MatchString NavError node w h
        = (h, Return (Ok (negb (String.eqb name "")
                          && whereAccepts regexp_MatchString w name)))))
  /\
  (forall h fuel root path w candidates,
     wellFormed h = true -> root < List.length h ->
     snd (Find regexp_MatchString fuel root path h) = Return (Ok candidates) ->
     FindWithWhere regexp_MatchString fuel root path (Some w) h
     = (h, Return (Ok (List.filter (kept regexp_MatchString h w) candidates)))).
Proof.
  split; [reflexivity | split].
  - intros h node n w Hnode. split.
    + intro Hkind. eapply matchWhere_not_mapping; eassumption.
    + intros name Hkind Hname. eapply matchWhere_mapping; eassumption.
  - intros h fuel root path w candidates Hwf Hroot Hfind.
    assert (Hall : Forall (decided regexp_MatchString h w) candidates).
    { eapply Forall_impl;
        [eapply findRecursive_valid; [exact Hwf | exact Hroot | exact Hfind] |].
      intros candidate Hcandidate. apply wellFormed_decided; assumption. }
    unfold FindWithWhere.
    erewrite run_bind.
    2:{ rewrite (readonly_run _ h) by apply readonly_Find.
        rewrite Hfind. reflexivity. }
    apply (where_loop regexp_MatchString h w candidates []). assumption.
Qed.

(** An instance on scenario B: the element named foo3 passes the filter. *)
Lemma where_clause_witness :
  @matchWhere Sample.regexp_MatchString NavError 10
    (mkWhere "" ["foo1"; "foo2"] []) scenarioB
  = (scenarioB, Return (Ok true)).
Proof.
  refine (proj2 (proj1 (proj2 (where_clause_filters_scenario_B
            Sample.regexp2_Compile Sample.regexp_MatchString
            Sample.regexp_Compile Sample.regexp_ReplaceAllString))
          scenarioB 10 (mkNode MappingNode "!!map" "" None [11; 12])
          (mkWhere "" ["foo1"; "foo2"] []) eq_refl) "foo3" eq_refl eq_refl).
Defined.

(** ** replace: what is overwritten and what is left alone *)

Lemma extends_ret {E A} (a : A) : extends (@ret E A a).
Proof. intro h. exists [], a. rewrite app_nil_r. reflexivity. Qed.

Lemma extends_alloc {E} (n : Node) : extends (@alloc E n).
Proof. intro h. exists [n], (List.length h). reflexivity. Qed.

Lemma extends_bind {E A B} (m : M E A) (k : A -> M E B) :
  extends m -> (forall a, extends (k a)) -> extends (bind m k).
Proof.
  intros Hm Hk h. destruct (Hm h) as (extra1 & a & Hrun).
  destruct (Hk a (h ++ extra1)) as (extra2 & b & Hrun2).
  exists (extra1 ++ extra2), b.
  erewrite run_bind by exact Hrun. rewrite Hrun2, app_assoc. reflexivity.
Qed.

Lemma extends_encodeContent {E A} (encodeEntry : A -> M E (list ptr)) entries :
  Forall (fun entry => extends (encodeEntry entry)) entries ->
  extends (encodeContent encodeEntry entries).
Proof.
  induction 1 as [| entry rest Hentry _ IH]; simpl.
  - apply extends_ret.
  - apply extends_bind; [exact Hentry | intro nodes].
    apply extends_bind; [exact IH | intro more]. apply extends_ret.
Qed.

Lemma extends_Encode {E} (v : RuleValue) : extends (@Encode E v).
Proof.
  induction v as [| b | n | text | s | members IH | elems IH]
    using RuleValue_nested_ind; simpl; try apply extends_ret.
  - apply extends_bind; [| intro; apply extends_ret].
    apply extends_encodeContent.
    eapply Forall_impl; [exact IH |]. intros member Hmember. simpl in Hmember.
    apply extends_bind; [apply extends_alloc | intro keyNode].
    apply extends_bind; [exact Hmember | intro value].
    apply extends_bind; [apply extends_alloc | intro; apply extends_ret].
  - apply extends_bind; [| intro; apply extends_ret].
    apply extends_encodeContent.
    eapply Forall_impl; [exact IH |]. intros elem Helem. simpl in Helem.
    apply extends_bind; [exact Helem | intro encoded].
    apply extends_bind; [apply extends_alloc | intro; apply extends_ret].
Qed.

Lemma overwritten_cons newNode h node rest :
  overwritten newNode h (node :: rest)
  = overwritten newNode (<[node := newNode]> h) rest.
Proof. reflexivity. Qed.

Lemma overwritten_length newNode nodes : forall h,
  List.length (overwritten newNode h nodes) = List.length h.
Proof.
  induction nodes as [| node rest IH]; intro h; [reflexivity |].
  rewrite overwritten_cons, IH. apply length_insert.
Qed.








(** ** A pattern validated by one regex library and matched by another *)

Section RegexAtMatchTime.

Variable regexp2_Compile : string -> bool.
Variable regexp_MatchString : string -> string -> option bool.

(** A regex condition that leaves the parser carries a pattern that
    regexp2 compiled. *)
Lemma parseSelector_validates selectorStr cond :
  parseSelector regexp2_Compile selectorStr = Ok (SelectorTypeCondition cond) ->
  Op cond = OpRegex ->
  regexp2_Compile (CondValue cond) = true.
Proof.
  unfold parseSelector.
  repeat match goal with
         | |- context [match ?x with _ => _ end] => destruct x eqn:?
         end; try discriminate;
    intro Heq; injection Heq as <-; simpl; intro; (assumption || discriminate).
Qed.

(** When the matcher's library refuses the pattern, no element satisfies
    the condition: the error is dropped and the answer is "no match". *)
Lemma matchConditionLoop_refused_pattern {E} cond :
  Op cond = OpRegex ->
  (forall s, regexp_MatchString (CondValue cond) s = None) ->
  forall content h b,
    snd (@matchConditionLoop regexp_MatchString E content cond h) = Return (Ok b) ->
    b = false.
Proof.
  intros Hop Hrefused content.
  induction content as [| k | k v rest IH] using list_pair_ind; intros h b; simpl.
  - intro Heq. injection Heq as <-. reflexivity.
  - discriminate.
  - unfold bind at 1. unfold load at 1.
    destruct (h !! k) as [key |]; [| discriminate].
    destruct (String.eqb (Value key) (CondField cond)); [| apply IH].
    rewrite Hop. unfold bind, load.
    destruct (h !! v) as [value |]; [| discriminate]. simpl.
    rewrite Hrefused. intro Heq. injection Heq as <-. reflexivity.
Qed.

Lemma matchCondition_refused_pattern {E} cond :
  Op cond = OpRegex ->
  (forall s, regexp_MatchString (CondValue cond) s = None) ->
  forall elem h b,
    snd (@matchCondition regexp_MatchString E elem cond h) = Return (Ok b) ->
    b = false.
Proof.
  intros Hop Hrefused elem h b. unfold matchCondition, bind, load.
  destruct (h !! elem) as [n |]; [| discriminate].
  destruct (negb (Kind_eqb (kind n) MappingNode)).
  - intro Heq. injection Heq as <-. reflexivity.
  - apply matchConditionLoop_refused_pattern; assumption.
Qed.

End RegexAtMatchTime.

(** C4 (what the code does with a pattern the two libraries disagree on).
    The parser validates a pattern with regexp2; [matchCondition] hands the
    pattern text to [regexp.MatchString], which compiles it again with Go's
    own library, and drops the error.  For a pattern regexp2 compiles and
    Go's library refuses, the lookahead of the README among them, the path
    compiles, and at match time every element fails the condition: the
    lookup of an element named xxx_bar ends in "no elements match
    condition". *)
Theorem regex_failure_at_match_time
    (regexp2_Compile : string -> bool)
    (regexp_MatchString : string -> string -> option bool) :
  regexp2_Compile lookaheadPattern = true ->
  (forall s, regexp_MatchString lookaheadPattern s = None) ->
  Parse regexp2_Compile lookaheadPath
  = Ok (mkPath [SegmentTypeArray "env" (SelectorTypeCondition lookaheadCondition)])
  /\
  (forall elem h b,
     snd (@matchCondition regexp_MatchString NavError elem lookaheadCondition h)
       = Return (Ok b) ->
     b = false)
  /\
  Find regexp_MatchString 8 0
    (mkPath [SegmentTypeArray "env" (SelectorTypeCondition lookaheadCondition)])
    envDocument
  = (envDocument, Return (Err ErrNoElementsMatch))
  /\
  (forall selectorStr cond,
     parseSelector regexp2_Compile selectorStr = Ok (SelectorTypeCondition cond) ->
     Op cond = OpRegex ->
     regexp2_Compile (CondValue cond) = true).
Proof.
  intros Hvalid Hrefused. repeat split.
  - unfold lookaheadCondition, lookaheadPattern in *.
    vm_compute. rewrite Hvalid. reflexivity.
  - apply matchCondition_refused_pattern; [reflexivity | exact Hrefused].
  - unfold lookaheadCondition, lookaheadPattern in *.
    vm_compute. rewrite Hrefused. reflexivity.
  - apply parseSelector_validates.
Qed.

(** An instance with the sample libraries, which disagree on the lookahead. *)
Lemma regex_failure_witness :
  Find Sample.regexp_MatchString 8 0
    (mkPath [SegmentTypeArray "env" (SelectorTypeCondition lookaheadCondition)])
    envDocument
  = (envDocument, Return (Err ErrNoElementsMatch)).
Proof.
  exact (proj1 (proj2 (proj2 (regex_failure_at_match_time
           Sample.regexp2_Compile Sample.regexp_MatchString
           eq_refl (fun s => eq_refl))))).
Defined.

(** * Further properties of the path compiler *)

(** ** Splitting and joining *)

Lemma append_snoc (current : string) (ch : ascii) (rest : string) :
  ((current ++ String ch EmptyString) ++ rest)%string
  = (current ++ String ch rest)%string.
Proof. induction current as [| c current IH]; simpl; congruence. Qed.

Lemma append_empty (s : string) : (s ++ "")%string = s.
Proof. induction s as [| c s IH]; simpl; congruence. Qed.

Lemma append_assoc (a b c : string) :
  ((a ++ b) ++ c)%string = (a ++ (b ++ c))%string.
Proof. induction a as [| ch a IH]; simpl; congruence. Qed.

Lemma len_nonempty (s : string) :
  s <> EmptyString -> (0 <? GoStrings.len s)%Z = true.
Proof.
  destruct s as [| c s]; [congruence |]. intros _.
  apply Z.ltb_lt. unfold GoStrings.len. simpl String.length. lia.
Qed.

(** A closed part goes through the byte loop in one piece. *)
Lemma splitPathBytes_closedPart part : forall rest parts current inBracket,
  closedPart part inBracket = true ->
  splitPathBytes (part ++ rest) parts current inBracket
  = splitPathBytes rest parts (current ++ part)%string false.
Proof.
  induction part as [| ch part IH]; intros rest parts current inBracket Hclosed;
    simpl in Hclosed |- *.
  - rewrite append_empty. destruct inBracket; [discriminate | reflexivity].
  - destruct (Ascii.eqb ch "[").
    { rewrite IH by assumption. rewrite append_snoc. reflexivity. }
    destruct (Ascii.eqb ch "]").
    { rewrite IH by assumption. rewrite append_snoc. reflexivity. }
    destruct (Ascii.eqb ch ".").
    { apply andb_true_iff in Hclosed as [-> Hclosed].
      rewrite IH by assumption. rewrite append_snoc. reflexivity. }
    rewrite IH by assumption. rewrite append_snoc. reflexivity.
Qed.

Lemma splitPathBytes_dot rest parts current :
  splitPathBytes (String "." rest) parts current false
  = if (0 <? GoStrings.len current)%Z
    then splitPathBytes rest (parts ++ [current]) EmptyString false
    else splitPathBytes rest parts current false.
Proof. reflexivity. Qed.

Lemma splitPathBytes_joinDots parts :
  Forall (fun part => part <> EmptyString /\ closedPart part false = true) parts ->
  forall acc, splitPathBytes (joinDots parts) acc EmptyString false = acc ++ parts.
Proof.
  induction 1 as [| part rest [Hpart Hclosed] Hrest IH]; intro acc.
  - simpl. rewrite app_nil_r. reflexivity.
  - destruct rest as [| next rest].
    + simpl joinDots. rewrite <- (append_empty part) at 1.
      rewrite splitPathBytes_closedPart by assumption.
      simpl. rewrite len_nonempty by assumption. reflexivity.
    + change (joinDots (part :: next :: rest))
        with (part ++ String "." (joinDots (next :: rest)))%string.
      rewrite splitPathBytes_closedPart by assumption.
      rewrite splitPathBytes_dot. cbn [append].
      rewrite len_nonempty by assumption.
      rewrite IH. rewrite <- app_assoc. reflexivity.
Qed.

(** *** On valid UTF-8 the rune loop is the byte loop *)

Lemma length_append (a b : string) :
  String.length (a ++ b) = String.length a + String.length b.
Proof. induction a as [| ch a IH]; simpl; congruence. Qed.

Lemma byteOf_eqb (c d : ascii) :
  (GoUtf8.byteOf c =? GoUtf8.byteOf d)%Z = Ascii.eqb c d.
Proof.
  destruct (Ascii.eqb_spec c d) as [-> | Hne].
  - apply Z.eqb_refl.
  - apply Z.eqb_neq. intro H. apply Hne.
    rewrite <- (toByte_byteOf c), <- (toByte_byteOf d), H. reflexivity.
Qed.

(** A byte outside ASCII is none of "[", "]" and ".". *)
Lemma high_byte_plain (c : ascii) :
  (0x80 <= GoUtf8.byteOf c)%Z ->
  Ascii.eqb c "[" = false /\ Ascii.eqb c "]" = false /\ Ascii.eqb c "." = false.
Proof.
  intro H. rewrite <- !byteOf_eqb.
  change (GoUtf8.byteOf "[") with 91%Z. change (GoUtf8.byteOf "]") with 93%Z.
  change (GoUtf8.byteOf ".") with 46%Z.
  repeat split; apply Z.eqb_neq; lia.
Qed.

Lemma splitPathBytes_high (x : string) :
  highBytes x = true ->
  forall rest parts current inBracket,
    splitPathBytes (x ++ rest) parts current inBracket
    = splitPathBytes rest parts (current ++ x)%string inBracket.
Proof.
  induction x as [| c x IH]; intros Hhigh rest parts current inBracket.
  - rewrite append_empty. reflexivity.
  - cbn [highBytes] in Hhigh. apply andb_true_iff in Hhigh as [Hc Hx].
    apply Z.leb_le in Hc.
    destruct (high_byte_plain c Hc) as (Hopen & Hclose & Hdot).
    cbn [append splitPathBytes]. rewrite Hopen, Hclose, Hdot.
    rewrite (IH Hx). rewrite append_snoc. reflexivity.
Qed.

(** The bytes of a rune once passed over, the loop goes on behind them. *)
Lemma rangeFrom_skip (enc rest : string) :
  GoUtf8.rangeFrom (enc ++ rest) (String.length enc) = GoUtf8.rangeFrom rest 0.
Proof. induction enc as [| c enc IH]; [reflexivity | exact IH]. Qed.

Lemma validFrom_skip (enc rest : string) :
  GoUtf8.validFrom (enc ++ rest) (String.length enc) = GoUtf8.validFrom rest 0.
Proof. induction enc as [| c enc IH]; [reflexivity | exact IH]. Qed.

Lemma splitPathLoop_valid (n : nat) : forall s,
  String.length s <= n -> GoUtf8.validFrom s 0 = true ->
  forall parts current inBracket,
    splitPathLoop (GoUtf8.rangeFrom s 0) parts current inBracket
    = splitPathBytes s parts current inBracket.
Proof.
  induction n as [| n IH]; intros s Hlen Hvalid parts current inBracket;
    (destruct s as [| c t]; [reflexivity |]); cbn [String.length] in Hlen;
    [lia |].
  cbn [GoUtf8.rangeFrom GoUtf8.validFrom] in Hvalid |- *.
  destruct (GoUtf8.DecodeRuneInString (String c t)) as [r w] eqn:Hdecode.
  apply andb_true_iff in Hvalid as [Hok Hrest]. apply negb_true_iff in Hok.
  destruct (Z.lt_ge_cases (GoUtf8.byteOf c) 0x80) as [Hascii | Hhigh].
  - destruct (decode_ascii c t Hascii) as [Hd Henc].
    rewrite Hd in Hdecode. apply pair_equal_spec in Hdecode as [<- <-].
    cbn [Nat.sub] in Hrest |- *.
    cbn [splitPathLoop splitPathBytes]. unfold GoUtf8.lit.
    rewrite Henc, !byteOf_eqb.
    destruct (Ascii.eqb c "["); [apply IH; [lia | exact Hrest] |].
    destruct (Ascii.eqb c "]"); [apply IH; [lia | exact Hrest] |].
    destruct (Ascii.eqb c "."); [| apply IH; [lia | exact Hrest]].
    destruct inBracket; [apply IH; [lia | exact Hrest] |].
    destruct (0 <? GoStrings.len current)%Z; apply IH; (lia || exact Hrest).
  - destruct (decode_multibyte c t r w Hhigh Hdecode Hok)
      as (enc & rest & -> & Henc & <- & Hhighenc & Hr).
    cbn [Nat.sub] in Hrest |- *. rewrite Nat.sub_0_r in Hrest |- *.
    rewrite rangeFrom_skip. rewrite validFrom_skip in Hrest.
    cbn [splitPathLoop]. unfold GoUtf8.lit.
    change (GoUtf8.byteOf "[") with 91%Z. change (GoUtf8.byteOf "]") with 93%Z.
    change (GoUtf8.byteOf ".") with 46%Z.
    destruct (Z.eqb_spec r 91); [lia |].
    destruct (Z.eqb_spec r 93); [lia |].
    destruct (Z.eqb_spec r 46); [lia |].
    rewrite Henc.
    change (String c (enc ++ rest)) with (String c enc ++ rest)%string.
    rewrite splitPathBytes_high.
    + apply IH; [| exact Hrest]. rewrite length_append in Hlen. lia.
    + cbn [highBytes]. rewrite Hhighenc.
      apply Z.leb_le in Hhigh. rewrite Hhigh. reflexivity.
Qed.

(** On a path that is valid UTF-8 [splitPath] is the byte loop. *)
Lemma splitPath_valid (pathStr : string) :
  GoUtf8.ValidString pathStr = true ->
  splitPath pathStr = splitPathBytes pathStr [] EmptyString false.
Proof.
  intro Hvalid. apply (splitPathLoop_valid (String.length pathStr)).
  - lia.
  - exact Hvalid.
Qed.

(** A byte that is part of no rune comes back as U+FFFD. *)
Lemma splitPath_invalid_byte :
  splitPath (String "255" "a")
  = [String "239" (String "191" (String "189" "a"))].
Proof. reflexivity. Qed.

(** No part that [splitPath] produces is empty. *)
Lemma splitPathLoop_nonempty pathStr : forall parts current inBracket,
  Forall (fun part => part <> EmptyString) parts ->
  Forall (fun part => part <> EmptyString)
    (splitPathLoop pathStr parts current inBracket).
Proof.
  assert (Hpos : forall current, (0 <? GoStrings.len current)%Z = true ->
                                 current <> EmptyString).
  { intros current H ->. discriminate. }
  induction pathStr as [| ch pathStr IH]; intros parts current inBracket Hparts;
    cbn [splitPathLoop].
  - destruct (0 <? GoStrings.len current)%Z eqn:Hlen; [| assumption].
    apply Forall_app. split; [assumption |]. constructor; [auto | constructor].
  - destruct (ch =? GoUtf8.lit "[")%Z; [apply IH; assumption |].
    destruct (ch =? GoUtf8.lit "]")%Z; [apply IH; assumption |].
    destruct (ch =? GoUtf8.lit ".")%Z; [| apply IH; assumption].
    destruct inBracket; [apply IH; assumption |].
    destruct (0 <? GoStrings.len current)%Z eqn:Hlen; [| apply IH; assumption].
    apply IH. apply Forall_app. split; [assumption |].
    constructor; [auto | constructor].
Qed.

(** X1.  [splitPath] undoes the joining of parts with dots: for parts that
    are not empty and whose dots all stand inside closed brackets, and that
    joined make a text that is valid UTF-8, splitting the joined text gives
    the parts back, in order. *)
Theorem splitPath_inverts_joining (parts : list string) :
  Forall (fun part => part <> EmptyString /\ closedPart part false = true) parts ->
  GoUtf8.ValidString (joinDots parts) = true ->
  splitPath (joinDots parts) = parts.
Proof.
  intros Hparts Hvalid. rewrite splitPath_valid by exact Hvalid.
  rewrite splitPathBytes_joinDots by assumption. reflexivity.
Qed.

(** An instance: a dot inside a selector is kept with its part, and so is a
    name written in two-byte runes. *)
Lemma splitPath_inverts_joining_witness :
  splitPath (joinDots ["spec"; "containers[image=nginx:1.25]"; "ports[0]";
                       String "195" (String "169" "t" ++ String "195" (String "169" ""))])
  = ["spec"; "containers[image=nginx:1.25]"; "ports[0]";
     String "195" (String "169" "t" ++ String "195" (String "169" ""))].
Proof.
  apply splitPath_inverts_joining.
  - repeat (constructor; [split; [discriminate | reflexivity] |]). constructor.
  - reflexivity.
Defined.

(** ** One segment for each part *)

Section ParseParts.

Variable regexp2_Compile : string -> bool.

Lemma parseParts_Ok parts : forall acc p,
  parseParts regexp2_Compile parts acc = Ok p ->
  exists segments,
    Segments p = acc ++ segments /\
    Forall2 (fun part segment => parseSegment regexp2_Compile part = Ok segment)
      parts segments.
Proof.
  induction parts as [| part rest IH]; intros acc p Hp; simpl in Hp.
  - injection Hp as <-. exists []. simpl. rewrite app_nil_r. split; constructor.
  - destruct (parseSegment regexp2_Compile part) as [segment | e] eqn:Hpart;
      [| discriminate].
    destruct (IH _ _ Hp) as [segments [Hsegments Hall]].
    exists (segment :: segments). split.
    + rewrite Hsegments, <- app_assoc. reflexivity.
    + constructor; assumption.
Qed.

Lemma parseParts_all parts segments :
  Forall2 (fun part segment => parseSegment regexp2_Compile part = Ok segment)
    parts segments ->
  forall acc, parseParts regexp2_Compile parts acc = Ok (mkPath (acc ++ segments)).
Proof.
  induction 1 as [| part segment rest segments Hpart Hrest IH]; intro acc; simpl.
  - rewrite app_nil_r. reflexivity.
  - rewrite Hpart, IH, <- app_assoc. reflexivity.
Qed.

Lemma parseParts_Err parts : forall acc e,
  parseParts regexp2_Compile parts acc = Err e ->
  exists before part after cause,
    parts = before ++ part :: after /\
    Forall (fun earlier => exists segment,
              parseSegment regexp2_Compile earlier = Ok segment) before /\
    parseSegment regexp2_Compile part = Err cause /\
    e = ErrInvalidSegment part cause.
Proof.
  induction parts as [| first rest IH]; intros acc e He; simpl in He;
    [discriminate |].
  destruct (parseSegment regexp2_Compile first) as [segment | cause] eqn:Hfirst.
  - destruct (IH _ _ He) as (before & part & after & cause & -> & Hbefore & Hpart & ->).
    exists (first :: before), part, after, cause. repeat split; try assumption.
    constructor; [eexists; eassumption | assumption].
  - injection He as <-. exists [], first, rest, cause.
    repeat split; [constructor | assumption].
Qed.

End ParseParts.

(** X2.  [Parse] compiles one segment for each part of the path, in order:
    it succeeds exactly when the path is not the empty string and every part
    [splitPath] cuts out parses, and its segments are then the parsed parts.
    No part is ever empty, so dots at the ends of a path and doubled dots
    add no segment. *)
Theorem Parse_one_segment_per_part
    (regexp2_Compile : string -> bool) (pathStr : string)
    (segments : list Segment) :
  Forall (fun part => part <> EmptyString) (splitPath pathStr)
  /\
  (Parse regexp2_Compile pathStr = Ok (mkPath segments) <->
   pathStr <> EmptyString /\
   Forall2 (fun part segment => parseSegment regexp2_Compile part = Ok segment)
     (splitPath pathStr) segments).
Proof.
  split; [apply splitPathLoop_nonempty; constructor |].
  unfold Parse. destruct (String.eqb_spec pathStr "") as [-> | Hpath]; split.
  - discriminate.
  - intros [Habsurd _]. congruence.
  - intro Hparse. split; [assumption |].
    destruct (parseParts_Ok _ _ _ _ Hparse) as [segs [Hsegs Hall]].
    simpl in Hsegs. subst segs. exact Hall.
  - intros [_ Hall]. apply (parseParts_all _ _ _ Hall []).
Qed.

(** X3.  When [Parse] fails, the path is the empty string, or the error
    names the first part that does not parse, with the cause
    [parseSegment] gave for it; the parts before it all parse. *)
Theorem Parse_reports_first_bad_part
    (regexp2_Compile : string -> bool) (pathStr : string) (e : ParseError) :
  Parse regexp2_Compile pathStr = Err e ->
  (pathStr = EmptyString /\ e = ErrEmptyPath)
  \/
  exists before part after cause,
    splitPath pathStr = before ++ part :: after /\
    Forall (fun earlier => exists segment,
              parseSegment regexp2_Compile earlier = Ok segment) before /\
    parseSegment regexp2_Compile part = Err cause /\
    e = ErrInvalidSegment part cause.
Proof.
  unfold Parse. destruct (String.eqb_spec pathStr "") as [-> | Hpath]; intro He.
  - left. split; congruence.
  - right. eapply parseParts_Err. eassumption.
Qed.

(** An instance: the second of three parts has no closing bracket. *)
Lemma Parse_reports_first_bad_part_witness :
  ("a.b[0.c" = EmptyString /\
   ErrInvalidSegment "b[0.c" ErrNoClosingBracket = ErrEmptyPath)
  \/
  exists before part after cause,
    splitPath "a.b[0.c" = before ++ part :: after /\
    Forall (fun earlier => exists segment,
              parseSegment Sample.regexp2_Compile earlier = Ok segment) before /\
    parseSegment Sample.regexp2_Compile part = Err cause /\
    ErrInvalidSegment "b[0.c" ErrNoClosingBracket = ErrInvalidSegment part cause.
Proof.
  exact (Parse_reports_first_bad_part Sample.regexp2_Compile "a.b[0.c" _ eq_refl).
Defined.

(** ** Selectors *)

Lemma Contains_append_at (a : string) (c : ascii) (b : string) :
  GoStrings.Contains (a ++ String c b) c = true.
Proof.
  induction a as [| ch a IH]; simpl.
  - rewrite Ascii.eqb_refl. reflexivity.
  - destruct (Ascii.eqb ch c); [reflexivity | exact IH].
Qed.

(** [strings.SplitN(s, "=", 2)] cuts at the first "=". *)
Lemma SplitN2_first (field : string) (c : ascii) (value : string) :
  GoStrings.Contains field c = false ->
  GoStrings.SplitN2 (field ++ String c value) c = [field; value].
Proof.
  induction field as [| ch field IH]; simpl; intro Hfield.
  - rewrite Ascii.eqb_refl. reflexivity.
  - destruct (Ascii.eqb ch c); [discriminate |]. rewrite IH by assumption.
    reflexivity.
Qed.

Lemma TrimLeft_none (s : string) (c : ascii) :
  GoStrings.HasPrefix s c = false -> GoStrings.TrimLeft s c = s.
Proof. destruct s as [| ch s]; simpl; [reflexivity | intros ->; reflexivity]. Qed.

Lemma TrimRight_none (s : string) (c : ascii) :
  GoStrings.HasSuffix s c = false -> GoStrings.TrimRight s c = s.
Proof.
  induction s as [| ch s IH]; [reflexivity |]. intro Hs.
  destruct s as [| ch' s].
  - simpl in *. rewrite Hs. reflexivity.
  - change (GoStrings.HasSuffix (String ch (String ch' s)) c)
      with (GoStrings.HasSuffix (String ch' s) c) in Hs.
    change (GoStrings.TrimRight (String ch (String ch' s)) c)
      with (match GoStrings.TrimRight (String ch' s) c with
            | EmptyString =>
                if Ascii.eqb ch c then EmptyString else String ch EmptyString
            | kept => String ch kept
            end).
    rewrite IH by assumption. reflexivity.
Qed.

Lemma TrimRight_snoc (s : string) (c : ascii) :
  GoStrings.TrimRight (s ++ String c EmptyString) c = GoStrings.TrimRight s c.
Proof.
  induction s as [| ch s IH]; simpl.
  - rewrite Ascii.eqb_refl. reflexivity.
  - rewrite IH. reflexivity.
Qed.

Lemma HasSuffix_snoc (s : string) (c : ascii) :
  GoStrings.HasSuffix (s ++ String c EmptyString) c = true.
Proof.
  induction s as [| ch s IH]; simpl.
  - apply Ascii.eqb_refl.
  - destruct (s ++ String c EmptyString)%string eqn:Hs; [| exact IH].
    destruct s; discriminate.
Qed.

(** [strings.Trim] takes the "@" off a pattern written between two "@". *)
Lemma Trim_literal (pattern : string) :
  pattern <> EmptyString ->
  GoStrings.HasPrefix pattern "@" = false ->
  GoStrings.HasSuffix pattern "@" = false ->
  GoStrings.Trim (String "@" (pattern ++ "@")) "@" = pattern.
Proof.
  intros Hpattern Hprefix Hsuffix. unfold GoStrings.Trim.
  change (GoStrings.TrimLeft (String "@" (pattern ++ "@")) "@")
    with (GoStrings.TrimLeft (pattern ++ "@") "@").
  rewrite TrimLeft_none.
  - rewrite TrimRight_snoc. apply TrimRight_none. assumption.
  - destruct pattern; [congruence | exact Hprefix].
Qed.

Section Selectors.

Variable regexp2_Compile : string -> bool.

Lemma parseSelector_with_equals (field value : string) :
  GoStrings.Contains field "=" = false ->
  parseSelector regexp2_Compile (field ++ String "=" value)
  = if String.eqb field "" then Err ErrFieldNameEmpty
    else if GoStrings.HasPrefix value "@" && GoStrings.HasSuffix value "@" then
      let pattern := GoStrings.Trim value "@" in
      if String.eqb pattern "" then Err ErrRegexPatternEmpty
      else if regexp2_Compile pattern
      then Ok (SelectorTypeCondition (mkCondition field OpRegex pattern))
      else Err ErrInvalidRegexPattern
    else Ok (SelectorTypeCondition (mkCondition field OpEqual value)).
Proof.
  intro Hfield. unfold parseSelector.
  pose proof (Contains_append_at field "=" value) as Hc.
  rewrite (Contains_eqb_false _ "=" "*" Hc eq_refl).
  rewrite (Contains_eqb_false _ "=" "?" Hc eq_refl).
  rewrite (Atoi_equals_sign _ Hc), Hc, SplitN2_first by assumption.
  reflexivity.
Qed.

End Selectors.

(** X4.  A selector [field=value] is cut at its first "=": with a field name
    that is not empty, a value not wrapped in "@" gives the condition
    "field equals value" (the value may be empty or hold further "="), and a
    value [@pattern@] gives the regex condition on the pattern when regexp2
    compiles it and the error "invalid regex pattern" when it does not. *)
Theorem parseSelector_condition
    (regexp2_Compile : string -> bool) (field value : string) :
  field <> EmptyString ->
  GoStrings.Contains field "=" = false ->
  (GoStrings.HasPrefix value "@" && GoStrings.HasSuffix value "@" = false ->
   parseSelector regexp2_Compile (field ++ String "=" value)
   = Ok (SelectorTypeCondition (mkCondition field OpEqual value)))
  /\
  (forall pattern,
     pattern <> EmptyString ->
     GoStrings.HasPrefix pattern "@" = false ->
     GoStrings.HasSuffix pattern "@" = false ->
     parseSelector regexp2_Compile
       (field ++ String "=" (String "@" (pattern ++ "@")))
     = if regexp2_Compile pattern
       then Ok (SelectorTypeCondition (mkCondition field OpRegex pattern))
       else Err ErrInvalidRegexPattern).
Proof.
  intros Hfield Hequals.
  apply String.eqb_neq in Hfield. split.
  - intro Hplain. rewrite parseSelector_with_equals by assumption.
    rewrite Hfield, Hplain. reflexivity.
  - intros pattern Hpattern Hprefix Hsuffix.
    rewrite parseSelector_with_equals by assumption. rewrite Hfield.
    change (String "@" (pattern ++ "@"))%string
      with (String "@" pattern ++ "@")%string at 2.
    rewrite HasSuffix_snoc. cbn [GoStrings.HasPrefix andb Ascii.eqb Bool.eqb].
    cbv zeta. rewrite Trim_literal by assumption.
    apply String.eqb_neq in Hpattern. rewrite Hpattern. reflexivity.
Qed.

(** An instance: the value keeps the second "=". *)
Lemma parseSelector_condition_witness :
  parseSelector Sample.regexp2_Compile "name=a=b"
  = Ok (SelectorTypeCondition (mkCondition "name" OpEqual "a=b")).
Proof.
  apply (proj1 (parseSelector_condition Sample.regexp2_Compile "name" "a=b"
                  ltac:(discriminate) eq_refl)).
  reflexivity.
Defined.

(** ** Index selectors: [strconv.Atoi] reads what [fmt.Sprint] writes *)

Lemma digitsValue_step (ch : ascii) (rest : string) (acc : Z) :
  GoStrings.isDigit ch = true ->
  GoStrings.digitsValue (String ch rest) acc
  = GoStrings.digitsValue rest (acc * 10 + (Z.of_nat (nat_of_ascii ch) - 48))%Z.
Proof. intro Hdigit. simpl. rewrite Hdigit. reflexivity. Qed.

Lemma digitsValue_uint_pos (d : Decimal.uint) : forall (acc : positive) (z : Z),
  z = Z.pos acc ->
  GoStrings.digitsValue (NilEmpty.string_of_uint d) z
  = Some (Z.pos (Pos.of_uint_acc d acc)).
Proof.
  induction d as [| d IH | d IH | d IH | d IH | d IH | d IH | d IH | d IH | d IH | d IH];
    intros acc z ->; cbn [NilEmpty.string_of_uint Pos.of_uint_acc];
    [reflexivity | ..];
    (rewrite digitsValue_step by reflexivity; apply IH;
     match goal with
     | |- context [Z.of_nat (nat_of_ascii ?c)] =>
         let v := eval vm_compute in (Z.of_nat (nat_of_ascii c)) in
         change (Z.of_nat (nat_of_ascii c)) with v
     end; lia).
Qed.

Lemma digitsValue_uint (d : Decimal.uint) :
  GoStrings.digitsValue (NilEmpty.string_of_uint d) 0
  = Some (Z.of_N (Pos.of_uint d)).
Proof.
  induction d as [| d IH | d IH | d IH | d IH | d IH | d IH | d IH | d IH | d IH | d IH];
    cbn [NilEmpty.string_of_uint Pos.of_uint];
    [reflexivity | rewrite digitsValue_step by reflexivity; exact IH | ..];
    (rewrite digitsValue_step by reflexivity;
     erewrite digitsValue_uint_pos; [reflexivity | reflexivity]).
Qed.

Lemma Contains_uint (d : Decimal.uint) (c : ascii) :
  GoStrings.isDigit c = false ->
  GoStrings.Contains (NilEmpty.string_of_uint d) c = false.
Proof.
  intro Hc.
  assert (Hne : forall ch, GoStrings.isDigit ch = true -> Ascii.eqb ch c = false).
  { intros ch Hch. apply Ascii.eqb_neq. intros ->. congruence. }
  induction d; cbn [NilEmpty.string_of_uint GoStrings.Contains];
    [reflexivity | ..]; (rewrite Hne by reflexivity; assumption).
Qed.

(** The text of a number begins with a digit; [Atoi] then reads no sign. *)
Lemma Atoi_unsigned (ch : ascii) (rest : string) :
  GoStrings.isDigit ch = true ->
  GoStrings.Atoi (String ch rest)
  = match GoStrings.digitsValue (String ch rest) 0 with
    | None => None
    | Some n =>
        if ((GoStrings.minInt <=? n) && (n <=? GoStrings.maxInt))%Z
        then Some n else None
    end.
Proof.
  intro Hdigit.
  destruct ch as [[] [] [] [] [] [] [] []]; try discriminate Hdigit; reflexivity.
Qed.

Lemma string_of_uint_digit (d : Decimal.uint) :
  d <> Decimal.Nil ->
  exists ch rest, NilEmpty.string_of_uint d = String ch rest
                  /\ GoStrings.isDigit ch = true.
Proof.
  destruct d; [congruence | ..]; intros _; eexists _, _; split; reflexivity.
Qed.

Lemma SprintInt_pos (p : positive) :
  GoStrings.SprintInt (Z.pos p) = NilEmpty.string_of_uint (Pos.to_uint p).
Proof.
  unfold GoStrings.SprintInt. cbn [Z.to_int NilZero.string_of_int].
  unfold NilZero.string_of_uint.
  pose proof (DecimalPos.Unsigned.to_uint_nonnil p) as Hnonnil.
  destruct (Pos.to_uint p); [congruence | reflexivity..].
Qed.

Lemma SprintInt_neg (p : positive) :
  GoStrings.SprintInt (Z.neg p)
  = String "-" (NilEmpty.string_of_uint (Pos.to_uint p)).
Proof.
  unfold GoStrings.SprintInt. cbn [Z.to_int NilZero.string_of_int].
  unfold NilZero.string_of_uint.
  pose proof (DecimalPos.Unsigned.to_uint_nonnil p) as Hnonnil.
  destruct (Pos.to_uint p); [congruence | reflexivity..].
Qed.

(** [Atoi] on the text of an integer: the integer when it fits an [int],
    an error when it does not. *)
Lemma Atoi_SprintInt (n : Z) :
  GoStrings.Atoi (GoStrings.SprintInt n)
  = if ((GoStrings.minInt <=? n) && (n <=? GoStrings.maxInt))%Z
    then Some n else None.
Proof.
  destruct n as [| p | p].
  - reflexivity.
  - rewrite SprintInt_pos.
    destruct (string_of_uint_digit (Pos.to_uint p)
                (DecimalPos.Unsigned.to_uint_nonnil p)) as (ch & rest & Htext & Hdigit).
    rewrite Htext, Atoi_unsigned by assumption. rewrite <- Htext.
    rewrite digitsValue_uint, DecimalPos.Unsigned.of_to. reflexivity.
  - rewrite SprintInt_neg.
    destruct (string_of_uint_digit (Pos.to_uint p)
                (DecimalPos.Unsigned.to_uint_nonnil p)) as (ch & rest & Htext & Hdigit).
    unfold GoStrings.Atoi. rewrite Htext. rewrite <- Htext.
    rewrite digitsValue_uint, DecimalPos.Unsigned.of_to. reflexivity.
Qed.

Lemma Contains_SprintInt (n : Z) (c : ascii) :
  GoStrings.isDigit c = false -> Ascii.eqb "-" c = false ->
  GoStrings.Contains (GoStrings.SprintInt n) c = false.
Proof.
  intros Hdigit Hminus. destruct n as [| p | p].
  - change (GoStrings.SprintInt 0) with "0"%string.
    cbn [GoStrings.Contains].
    destruct (Ascii.eqb "0" c) eqn:Hzero; [| reflexivity].
    apply Ascii.eqb_eq in Hzero. subst c. discriminate.
  - rewrite SprintInt_pos. apply Contains_uint. assumption.
  - rewrite SprintInt_neg. cbn [GoStrings.Contains]. rewrite Hminus.
    apply Contains_uint. assumption.
Qed.

Lemma parseSelector_SprintInt (regexp2_Compile : string -> bool) (n : Z) :
  parseSelector regexp2_Compile (GoStrings.SprintInt n)
  = if ((GoStrings.minInt <=? n) && (n <=? GoStrings.maxInt))%Z
    then Ok (SelectorTypeIndex n)
    else Err (ErrUnknownSelectorSyntax (GoStrings.SprintInt n)).
Proof.
  assert (Hstar : String.eqb (GoStrings.SprintInt n) "*" = false).
  { apply String.eqb_neq. intro Heq.
    pose proof (Contains_SprintInt n "*" eq_refl eq_refl) as Hc.
    rewrite Heq in Hc. discriminate. }
  assert (Hquestion : String.eqb (GoStrings.SprintInt n) "?" = false).
  { apply String.eqb_neq. intro Heq.
    pose proof (Contains_SprintInt n "?" eq_refl eq_refl) as Hc.
    rewrite Heq in Hc. discriminate. }
  unfold parseSelector. rewrite Hstar, Hquestion, Atoi_SprintInt.
  destruct ((GoStrings.minInt <=? n) && (n <=? GoStrings.maxInt))%Z;
    [reflexivity |].
  rewrite Contains_SprintInt by reflexivity. reflexivity.
Qed.

(** X5.  A selector that is the decimal text of an integer is an index
    selector for that integer when it fits Go's 64-bit [int]; the text of an
    integer outside that range is refused as unknown selector syntax. *)
Theorem parseSelector_index (regexp2_Compile : string -> bool) (n : Z) :
  ((GoStrings.minInt <= n <= GoStrings.maxInt)%Z ->
   parseSelector regexp2_Compile (GoStrings.SprintInt n)
   = Ok (SelectorTypeIndex n))
  /\
  ((n < GoStrings.minInt \/ GoStrings.maxInt < n)%Z ->
   parseSelector regexp2_Compile (GoStrings.SprintInt n)
   = Err (ErrUnknownSelectorSyntax (GoStrings.SprintInt n))).
Proof.
  rewrite parseSelector_SprintInt. split; intro Hrange.
  - assert (Hin : ((GoStrings.minInt <=? n) && (n <=? GoStrings.maxInt))%Z = true).
    { apply andb_true_iff. split; apply Z.leb_le; lia. }
    rewrite Hin. reflexivity.
  - assert (Hout : ((GoStrings.minInt <=? n) && (n <=? GoStrings.maxInt))%Z = false).
    { apply andb_false_iff.
      destruct Hrange; [left | right]; apply Z.leb_gt; lia. }
    rewrite Hout. reflexivity.
Qed.

(** An instance: the largest [int] plus one is no index. *)
Lemma parseSelector_index_witness :
  parseSelector Sample.regexp2_Compile "9223372036854775808"
  = Err (ErrUnknownSelectorSyntax "9223372036854775808").
Proof.
  apply (proj2 (parseSelector_index Sample.regexp2_Compile 9223372036854775808)).
  right. reflexivity.
Defined.

(** ** A path written out is read back *)

Lemma substring_prefix (a b : string) :
  substring 0 (String.length a) (a ++ b) = a.
Proof.
  induction a as [| ch a IH]; simpl.
  - destruct b; reflexivity.
  - rewrite IH. reflexivity.
Qed.

Lemma substring_skip (a : string) (n m : nat) (b : string) :
  substring (String.length a + n) m (a ++ b) = substring n m b.
Proof. induction a as [| ch a IH]; simpl; [reflexivity | exact IH]. Qed.

Lemma len_append (a b : string) :
  GoStrings.len (a ++ b) = (GoStrings.len a + GoStrings.len b)%Z.
Proof. unfold GoStrings.len. rewrite length_append. lia. Qed.

Lemma len_String (ch : ascii) (s : string) :
  GoStrings.len (String ch s) = (1 + GoStrings.len s)%Z.
Proof. unfold GoStrings.len. simpl String.length. lia. Qed.

Lemma len_nonneg (s : string) : (0 <= GoStrings.len s)%Z.
Proof. unfold GoStrings.len. lia. Qed.

Lemma Contains_append (a b : string) (c : ascii) :
  GoStrings.Contains (a ++ b) c = GoStrings.Contains a c || GoStrings.Contains b c.
Proof.
  induction a as [| ch a IH]; simpl; [reflexivity |].
  destruct (Ascii.eqb ch c); [reflexivity | exact IH].
Qed.

Lemma HasPrefix_Contains (s : string) (c : ascii) :
  GoStrings.Contains s c = false -> GoStrings.HasPrefix s c = false.
Proof.
  destruct s as [| ch s]; simpl; [reflexivity |].
  destruct (Ascii.eqb ch c); [discriminate | reflexivity].
Qed.

Lemma HasSuffix_Contains (s : string) (c : ascii) :
  GoStrings.Contains s c = false -> GoStrings.HasSuffix s c = false.
Proof.
  induction s as [| ch s IH]; [reflexivity |]. simpl.
  destruct (Ascii.eqb ch c); [discriminate |]. intro Hs.
  destruct s; [reflexivity | apply IH; assumption].
Qed.

(** [strings.Index] finds the first "[" after a field name without one. *)
Lemma IndexFrom_append (field : string) (c : ascii) (rest : string) :
  GoStrings.Contains field c = false ->
  forall i, GoStrings.IndexFrom (field ++ String c rest) c i
            = (i + GoStrings.len field)%Z.
Proof.
  induction field as [| ch field IH]; simpl; intros Hfield i.
  - rewrite Ascii.eqb_refl. unfold GoStrings.len. simpl. lia.
  - destruct (Ascii.eqb ch c); [discriminate |].
    rewrite IH by assumption. rewrite len_String. lia.
Qed.

(** [findClosingBracket] runs over text without "]" and "@", and over a
    pattern between two "@". *)
Lemma findClosingBracketLoop_plain (text : string) :
  GoStrings.Contains text "]" = false -> GoStrings.Contains text "@" = false ->
  forall rest i,
    findClosingBracketLoop (text ++ rest) i false
    = findClosingBracketLoop rest (i + GoStrings.len text)%Z false.
Proof.
  induction text as [| ch text IH]; simpl; intros Hbracket Hat rest i.
  - f_equal. unfold GoStrings.len. simpl. lia.
  - destruct (Ascii.eqb ch "]"); [discriminate |].
    destruct (Ascii.eqb ch "@"); [discriminate |].
    simpl. rewrite IH by assumption. rewrite len_String. f_equal. lia.
Qed.

Lemma findClosingBracketLoop_pattern (pattern : string) :
  GoStrings.Contains pattern "@" = false ->
  forall rest i,
    findClosingBracketLoop (pattern ++ String "@" rest) i true
    = findClosingBracketLoop rest (i + GoStrings.len pattern + 1)%Z false.
Proof.
  induction pattern as [| ch pattern IH]; simpl; intros Hat rest i.
  - f_equal. unfold GoStrings.len. simpl. lia.
  - destruct (Ascii.eqb ch "@"); [discriminate |].
    rewrite andb_false_r. rewrite IH by assumption. rewrite len_String.
    f_equal. lia.
Qed.

Lemma plain_cons (s : string) (c : ascii) (excluded : list ascii) :
  plain s (c :: excluded) = true ->
  GoStrings.Contains s c = false /\ plain s excluded = true.
Proof.
  unfold plain. simpl. intro H. apply andb_true_iff in H as [Hc Hrest].
  apply negb_true_iff in Hc. split; assumption.
Qed.

Section ReadBack.

Variable regexp2_Compile : string -> bool.

Lemma findClosingBracketLoop_selector (selector : Selector) :
  renderableSelector regexp2_Compile selector = true ->
  forall rest i,
    findClosingBracketLoop (renderSelector selector ++ String "]" rest) i false
    = (i + GoStrings.len (renderSelector selector))%Z.
Proof.
  assert (Hend : forall text, GoStrings.Contains text "]" = false ->
                              GoStrings.Contains text "@" = false ->
            forall rest i,
              findClosingBracketLoop (text ++ String "]" rest) i false
              = (i + GoStrings.len text)%Z).
  { intros text Hb Ha rest i.
    rewrite findClosingBracketLoop_plain by assumption. reflexivity. }
  intros Hsel rest i. destruct selector as [| idx | [field op value]];
    cbn [renderableSelector CondField Op CondValue] in Hsel.
  - reflexivity.
  - apply Hend; apply Contains_SprintInt; reflexivity.
  - apply andb_true_iff in Hsel as [Hsel Hop].
    apply andb_true_iff in Hsel as [_ Hfield].
    apply plain_cons in Hfield as [_ Hfield].
    apply plain_cons in Hfield as [Hfield_b Hfield].
    apply plain_cons in Hfield as [Hfield_a _].
    destruct op; [| discriminate |]; cbn [renderSelector Op CondField CondValue].
    + apply plain_cons in Hop as [Hvalue_b Hvalue].
      apply plain_cons in Hvalue as [Hvalue_a _].
      apply Hend; rewrite Contains_append; cbn [GoStrings.Contains];
        rewrite ?Hfield_b, ?Hfield_a, ?Hvalue_b, ?Hvalue_a; reflexivity.
    + apply andb_true_iff in Hop as [Hop _].
      apply andb_true_iff in Hop as [_ Hvalue].
      apply plain_cons in Hvalue as [Hvalue _].
      rewrite append_assoc.
      rewrite findClosingBracketLoop_plain by assumption.
      cbn [append findClosingBracketLoop Ascii.eqb Bool.eqb andb negb].
      rewrite append_assoc. cbn [append].
      rewrite findClosingBracketLoop_pattern by assumption.
      cbn [findClosingBracketLoop Ascii.eqb Bool.eqb andb negb].
      rewrite len_append, !len_String, len_append, len_String.
      change (GoStrings.len "") with 0%Z. lia.
Qed.

Lemma parseSelector_renderSelector (selector : Selector) :
  renderableSelector regexp2_Compile selector = true ->
  parseSelector regexp2_Compile (renderSelector selector) = Ok selector.
Proof.
  intro Hsel. destruct selector as [| idx | [field op value]];
    cbn [renderableSelector CondField Op CondValue] in Hsel.
  - reflexivity.
  - cbn [renderSelector]. rewrite parseSelector_SprintInt, Hsel. reflexivity.
  - apply andb_true_iff in Hsel as [Hsel Hop].
    apply andb_true_iff in Hsel as [Hnonempty Hfield].
    apply negb_true_iff in Hnonempty.
    apply plain_cons in Hfield as [Hfield_e _].
    destruct op; [| discriminate |]; cbn [renderSelector Op CondField CondValue];
      rewrite parseSelector_with_equals by assumption; rewrite Hnonempty.
    + apply plain_cons in Hop as [_ Hvalue].
      apply plain_cons in Hvalue as [Hvalue _].
      rewrite (HasPrefix_Contains _ _ Hvalue). reflexivity.
    + apply andb_true_iff in Hop as [Hop Hcompiles].
      apply andb_true_iff in Hop as [Hpattern Hvalue].
      apply negb_true_iff in Hpattern.
      apply plain_cons in Hvalue as [Hvalue _].
      change (String "@" (value ++ "@"))%string
        with (String "@" value ++ "@")%string at 2.
      rewrite HasSuffix_snoc. cbn [GoStrings.HasPrefix andb Ascii.eqb Bool.eqb].
      cbv zeta. rewrite Trim_literal.
      * rewrite Hpattern, Hcompiles. reflexivity.
      * apply String.eqb_neq. assumption.
      * apply HasPrefix_Contains. assumption.
      * apply HasSuffix_Contains. assumption.
Qed.

Lemma parseArraySegment_render (field : string) (selector : Selector) :
  GoStrings.Contains field "[" = false ->
  renderableSelector regexp2_Compile selector = true ->
  parseArraySegment regexp2_Compile
    (field ++ String "[" (renderSelector selector ++ "]"))
  = Ok (SegmentTypeArray field selector).
Proof.
  intros Hfield Hsel. unfold parseArraySegment, GoStrings.Index.
  rewrite IndexFrom_append by assumption. cbv zeta.
  pose proof (len_nonneg field) as Hlen.
  pose proof (len_nonneg (renderSelector selector)) as Hlen'.
  assert (Hstart : ((0 + GoStrings.len field =? -1) = false)%Z)
    by (apply Z.eqb_neq; lia).
  rewrite Hstart.
  assert (Hslice_field :
    GoStrings.slice (field ++ String "[" (renderSelector selector ++ "]"))
      0 (0 + GoStrings.len field) = field).
  { unfold GoStrings.slice, GoStrings.len.
    replace (Z.to_nat 0) with 0 by reflexivity.
    replace (Z.to_nat (0 + Z.of_nat (String.length field) - 0))
      with (String.length field) by lia.
    apply substring_prefix. }
  assert (Hend :
    findClosingBracket (field ++ String "[" (renderSelector selector ++ "]"))
      (0 + GoStrings.len field + 1)
    = (0 + GoStrings.len field + 1 + GoStrings.len (renderSelector selector))%Z).
  { unfold findClosingBracket.
    assert (Hrest :
      GoStrings.slice (field ++ String "[" (renderSelector selector ++ "]"))
        (0 + GoStrings.len field + 1)
        (GoStrings.len (field ++ String "[" (renderSelector selector ++ "]")))
      = (renderSelector selector ++ "]")%string).
    { unfold GoStrings.slice. rewrite len_append, len_String.
      unfold GoStrings.len at 1.
      replace (Z.to_nat (0 + Z.of_nat (String.length field) + 1))
        with (String.length field + 1) by lia.
      rewrite substring_skip. simpl substring.
      replace (Z.to_nat _)
        with (String.length (renderSelector selector ++ "]")).
      - rewrite <- (append_empty (renderSelector selector ++ "]")) at 2.
        apply substring_prefix.
      - unfold GoStrings.len. lia. }
    rewrite Hrest. apply findClosingBracketLoop_selector. assumption. }
  rewrite Hend.
  assert (Hfound :
    ((0 + GoStrings.len field + 1 + GoStrings.len (renderSelector selector) =? -1)
     = false)%Z) by (apply Z.eqb_neq; lia).
  rewrite Hfound, Hslice_field.
  assert (Hslice_selector :
    GoStrings.slice (field ++ String "[" (renderSelector selector ++ "]"))
      (0 + GoStrings.len field + 1)
      (0 + GoStrings.len field + 1 + GoStrings.len (renderSelector selector))
    = renderSelector selector).
  { unfold GoStrings.slice, GoStrings.len.
    replace (Z.to_nat (0 + Z.of_nat (String.length field) + 1))
      with (String.length field + 1) by lia.
    replace (Z.to_nat _) with (String.length (renderSelector selector)) by lia.
    rewrite substring_skip. simpl substring. apply substring_prefix. }
  rewrite Hslice_selector, parseSelector_renderSelector by assumption.
  reflexivity.
Qed.

Lemma parseSegment_renderSegment (segment : Segment) :
  renderable regexp2_Compile segment = true ->
  parseSegment regexp2_Compile (renderSegment segment) = Ok segment.
Proof.
  unfold renderable. intro H. apply andb_true_iff in H as [_ H].
  destruct segment as [field | field selector]; cbn [renderSegment].
  - apply negb_true_iff in H. unfold parseSegment. rewrite H. reflexivity.
  - apply andb_true_iff in H as [Hfield Hsel]. apply negb_true_iff in Hfield.
    unfold parseSegment. rewrite Contains_append_at.
    apply parseArraySegment_render; assumption.
Qed.

Lemma joinDots_nonempty (parts : list string) :
  parts <> [] -> Forall (fun part => part <> EmptyString) parts ->
  joinDots parts <> EmptyString.
Proof.
  intros Hparts Hall. destruct Hall as [| part rest Hpart Hrest]; [congruence |].
  destruct rest as [| next rest]; [exact Hpart |].
  cbn [joinDots]. destruct part; [congruence | discriminate].
Qed.

Lemma Parse_render (segments : list Segment) :
  segments <> [] ->
  Forall (fun segment => renderable regexp2_Compile segment = true) segments ->
  GoUtf8.ValidString (joinDots (map renderSegment segments)) = true ->
  Parse regexp2_Compile (joinDots (map renderSegment segments))
  = Ok (mkPath segments).
Proof.
  intros Hsome Hall Hvalid. unfold Parse.
  assert (Hparts :
    Forall (fun part => part <> EmptyString /\ closedPart part false = true)
      (map renderSegment segments)).
  { apply Forall_map. eapply Forall_impl; [exact Hall |].
    intros segment H. unfold renderable in H.
    apply andb_true_iff in H as [H _]. apply andb_true_iff in H as [Hne Hclosed].
    apply negb_true_iff, String.eqb_neq in Hne. split; assumption. }
  assert (Hpath : joinDots (map renderSegment segments) <> EmptyString).
  { apply joinDots_nonempty.
    - destruct segments; [congruence | discriminate].
    - eapply Forall_impl; [exact Hparts |]. intros part [Hne _]. exact Hne. }
  apply String.eqb_neq in Hpath. rewrite Hpath.
  rewrite splitPath_valid by exact Hvalid.
  rewrite splitPathBytes_joinDots by assumption.
  rewrite app_nil_l.
  apply (parseParts_all regexp2_Compile _ segments).
  apply Forall2_fmap_l. apply Forall_Forall2_diag.
  eapply Forall_impl; [exact Hall |].
  intros segment H. apply parseSegment_renderSegment. assumption.
Qed.

End ReadBack.

(** X6.  The compiler reads back an address written in the syntax of the
    README.  Take one or more segments, each a field name or a field name
    with a selector ("*", an integer that fits an [int], an equality
    condition, a regex condition whose pattern regexp2 compiles), written as
    [name], [name[*]], [name[3]], [name[field=value]] and
    [name[field=@pattern@]] and joined with dots: provided each text is one
    part of a path, names and values keep clear of the delimiters, and the
    text as a whole is valid UTF-8, [Parse] returns exactly these segments,
    in order. *)
Theorem Parse_reads_back_rendered_path
    (regexp2_Compile : string -> bool) (segments : list Segment) :
  segments <> [] ->
  Forall (fun segment => renderable regexp2_Compile segment = true) segments ->
  GoUtf8.ValidString (joinDots (map renderSegment segments)) = true ->
  Parse regexp2_Compile (joinDots (map renderSegment segments))
  = Ok (mkPath segments).
Proof. apply Parse_render. Qed.

(** An instance with one selector of each kind. *)
Lemma Parse_reads_back_witness :
  Parse Sample.regexp2_Compile
    "spec.containers[name=nginx].ports[0].env[*].value[key=@^a.b$@]"
  = Ok (mkPath
          [SegmentTypeField "spec";
           SegmentTypeArray "containers"
             (SelectorTypeCondition (mkCondition "name" OpEqual "nginx"));
           SegmentTypeArray "ports" (SelectorTypeIndex 0);
           SegmentTypeArray "env" SelectorTypeWildcard;
           SegmentTypeArray "value"
             (SelectorTypeCondition (mkCondition "key" OpRegex "^a.b$"))]).
Proof.
  apply (Parse_reads_back_rendered_path Sample.regexp2_Compile
           [SegmentTypeField "spec";
            SegmentTypeArray "containers"
              (SelectorTypeCondition (mkCondition "name" OpEqual "nginx"));
            SegmentTypeArray "ports" (SelectorTypeIndex 0);
            SegmentTypeArray "env" SelectorTypeWildcard;
            SegmentTypeArray "value"
              (SelectorTypeCondition (mkCondition "key" OpRegex "^a.b$"))]).
  - discriminate.
  - repeat (constructor; [reflexivity |]). constructor.
  - reflexivity.
Defined.

(** * Further properties of the navigator *)

(** ** Members are looked up in order: the first key wins *)

Lemma mappingScan_members {E} (h : heap) (name : string) (content : list ptr) :
  forall ms, members h content = Some ms ->
  @mappingScan E content name h = (h, Return (Ok (firstNamed name ms))).
Proof.
  induction content as [| k | k v rest IH] using list_pair_ind;
    intros ms Hms; simpl in Hms.
  - injection Hms as <-. reflexivity.
  - discriminate.
  - destruct (h !! k) as [key |] eqn:Hkey; [| discriminate].
    destruct (members h rest) as [more |]; [| discriminate].
    injection Hms as <-. cbn [mappingScan].
    erewrite run_bind by (apply run_load; exact Hkey).
    unfold firstNamed. cbn [List.find fst snd].
    destruct (String.eqb (Value key) name); [reflexivity |].
    apply IH. reflexivity.
Qed.

(** On a well-formed heap every mapping has its list of members, and their
    values are nodes of the heap. *)
Lemma members_defined (h : heap) (content : list ptr) :
  Forall (fun q => q < List.length h) content ->
  Nat.even (List.length content) = true ->
  exists ms, members h content = Some ms
             /\ Forall (fun member => snd member < List.length h) ms.
Proof.
  induction content as [| k | k v rest IH] using list_pair_ind;
    intros Hvalid Heven.
  - exists []. split; constructor.
  - discriminate.
  - inversion Hvalid as [| ? ? Hk Hrest]; subst.
    inversion Hrest as [| ? ? Hv Hrest']; subst.
    destruct (IH Hrest' Heven) as (more & Hmore & Hvalues).
    destruct (lookup_lt_is_Some_2 h k Hk) as [key Hkey].
    exists ((Value key, v) :: more). simpl. rewrite Hkey, Hmore.
    split; [reflexivity | constructor; assumption].
Qed.

Lemma firstNamed_In (name : string) (ms : list (string * ptr)) (v : ptr) :
  firstNamed name ms = Some v -> In v (map snd ms).
Proof.
  unfold firstNamed.
  destruct (List.find _ ms) as [member |] eqn:Hfind; [| discriminate].
  intro Heq. injection Heq as <-. apply find_some in Hfind as [Hin _].
  apply in_map. exact Hin.
Qed.

Section Segments.

Variable regexp_MatchString : string -> string -> option bool.

Lemma findRecursive_step fuel node segments segmentIdx segment n h :
  segments !! segmentIdx = Some segment ->
  h !! node = Some n ->
  findRecursive regexp_MatchString (S fuel) node segments segmentIdx h
  = match kind n with
    | DocumentNode =>
        match Content n with
        | [] => fail ErrEmptyDocument
        | child :: _ =>
            findRecursive regexp_MatchString fuel child segments segmentIdx
        end
    | AliasNode =>
        match Alias n with
        | Some target =>
            findRecursive regexp_MatchString fuel target segments segmentIdx
        | None => panic
        end
    | _ =>
        match segment with
        | SegmentTypeField field =>
            findField (findRecursive regexp_MatchString fuel) node field
              segments segmentIdx
        | SegmentTypeArray field selector =>
            findArray regexp_MatchString
              (findRecursive regexp_MatchString fuel) node field selector
              segments segmentIdx
        end
    end h.
Proof.
  intros Hseg Hnode. cbn [findRecursive]. rewrite Hseg.
  erewrite run_bind by (apply run_load; exact Hnode). reflexivity.
Qed.

(** [Find] at the node the walk over a prefix of the address has reached. *)
Lemma Find_after_walk h prefix segment rest k fuel root node n :
  leadsTo h prefix k root 0 node (List.length prefix) ->
  h !! node = Some n ->
  Find regexp_MatchString (k + S fuel) root
    (mkPath (prefix ++ segment :: rest)) h
  = findRecursive regexp_MatchString (S fuel) node (prefix ++ segment :: rest)
      (List.length prefix) h.
Proof.
  intros Hwalk Hnode. unfold Find. cbn [Segments].
  apply (findRecursive_leadsTo regexp_MatchString _ _ _ _ _ _ _ _ Hwalk);
    [lia | discriminate].
Qed.

Lemma findField_members rec node field segments segmentIdx n ms h :
  h !! node = Some n -> kind n = MappingNode ->
  members h (Content n) = Some ms ->
  findField rec node field segments segmentIdx h
  = match firstNamed field ms with
    | Some valueNode => rec valueNode segments (segmentIdx + 1) h
    | None => (h, Return (Err (ErrFieldNotFound field)))
    end.
Proof.
  intros Hnode Hkind Hms. unfold findField.
  erewrite run_bind by (apply run_load; exact Hnode).
  rewrite Hkind. cbn [negb Kind_eqb].
  erewrite run_bind by (apply mappingScan_members; exact Hms).
  destruct (firstNamed field ms); reflexivity.
Qed.

Lemma findArray_members rec node field selector segments segmentIdx n ms h :
  h !! node = Some n -> kind n = MappingNode ->
  members h (Content n) = Some ms ->
  findArray regexp_MatchString rec node field selector segments segmentIdx h
  = match firstNamed field ms with
    | None => (h, Return (Err (ErrArrayFieldNotFound field)))
    | Some arrayNode =>
        match h !! arrayNode with
        | None => (h, Panic)
        | Some a =>
            if Kind_eqb (kind a) SequenceNode
            then findArray regexp_MatchString rec node field selector
                   segments segmentIdx h
            else (h, Return (Err (ErrNotAnArray field)))
        end
    end.
Proof.
  intros Hnode Hkind Hms. unfold findArray at 1.
  erewrite run_bind by (apply run_load; exact Hnode).
  rewrite Hkind. cbn [negb Kind_eqb].
  erewrite run_bind by (apply mappingScan_members; exact Hms).
  destruct (firstNamed field ms) as [arrayNode |] eqn:Hfirst; [| reflexivity].
  destruct (h !! arrayNode) as [a |] eqn:Harray.
  - erewrite run_bind by (apply run_load; exact Harray).
    destruct (Kind_eqb (kind a) SequenceNode) eqn:Hseq; cbn [negb];
      [| reflexivity].
    unfold findArray.
    erewrite run_bind by (apply run_load; exact Hnode).
    rewrite Hkind. cbn [negb Kind_eqb].
    erewrite run_bind by (apply mappingScan_members; exact Hms).
    rewrite Hfirst.
    erewrite run_bind by (apply run_load; exact Harray).
    rewrite Hseq. reflexivity.
  - unfold bind, load. rewrite Harray. reflexivity.
Qed.

End Segments.

(** X7.  A field segment, applied to the node the segments before it lead
    to: on a mapping the lookup goes on in the value of the first member
    whose key is the field name, so of two members with the same key the
    first wins, and it fails with "field not found" when no key is the
    name; on a sequence, a scalar or a node of no known kind it fails with
    "expected mapping node". *)
Theorem field_segment_first_key_wins
    (regexp_MatchString : string -> string -> option bool)
    (h : heap) (fuel k : nat) (root node : ptr) (n : Node)
    (field : string) (prefix rest : list Segment) :
  leadsTo h prefix k root 0 node (List.length prefix) ->
  h !! node = Some n ->
  let segments := prefix ++ SegmentTypeField field :: rest in
  (kind n = MappingNode ->
   forall ms, members h (Content n) = Some ms ->
     Find regexp_MatchString (k + S fuel) root (mkPath segments) h
     = match firstNamed field ms with
       | Some valueNode =>
           findRecursive regexp_MatchString fuel valueNode segments
             (List.length prefix + 1) h
       | None => (h, Return (Err (ErrFieldNotFound field)))
       end)
  /\
  (kind n = SequenceNode \/ kind n = ScalarNode \/ kind n = OtherKind ->
   Find regexp_MatchString (k + S fuel) root (mkPath segments) h
   = (h, Return (Err (ErrExpectedMapping (kind n))))).
Proof.
  intros Hwalk Hnode segments. unfold segments.
  rewrite (Find_after_walk regexp_MatchString _ _ _ _ _ _ _ _ _ Hwalk Hnode).
  erewrite findRecursive_step;
    [| apply list_lookup_middle; reflexivity | exact Hnode].
  split.
  - intros Hkind ms Hms. rewrite Hkind.
    eapply findField_members; eassumption.
  - intros Hkind.
    destruct Hkind as [Hkind | [Hkind | Hkind]]; rewrite Hkind;
      cbv beta iota; unfold findField;
      (erewrite run_bind by (apply run_load; exact Hnode));
      rewrite Hkind; reflexivity.
Qed.

(** An instance on a mapping with the key [a] twice. *)
Lemma field_segment_witness :
  Find Sample.regexp_MatchString 2 0 (mkPath [SegmentTypeField "a"]) duplicateKeys
  = (duplicateKeys, Return (Ok [3])).
Proof.
  refine (proj1 (field_segment_first_key_wins Sample.regexp_MatchString
                   duplicateKeys 0 1 0 1
                   (mkNode MappingNode "!!map" "" None [2; 3; 4; 5])
                   "a" [] [] _ _) eq_refl [("a", 3); ("a", 5)] eq_refl).
  - eapply leads_document; [reflexivity.. |]. apply leads_here.
  - reflexivity.
Defined.

(** X8.  The errors of an array segment, applied to the node the segments
    before it lead to: "expected mapping node for array access" on a
    sequence, a scalar or a node of no known kind; "array field not found"
    on a mapping without the key; "is not an array" when the first member
    with the key is anything but a sequence, an alias that stands for a
    sequence included; and "empty document" on a document without
    content. *)
Theorem array_segment_errors
    (regexp_MatchString : string -> string -> option bool)
    (h : heap) (fuel k : nat) (root node : ptr) (n : Node)
    (field : string) (selector : Selector) (prefix rest : list Segment) :
  leadsTo h prefix k root 0 node (List.length prefix) ->
  h !! node = Some n ->
  let segments := prefix ++ SegmentTypeArray field selector :: rest in
  let result := Find regexp_MatchString (k + S fuel) root (mkPath segments) h in
  (kind n = SequenceNode \/ kind n = ScalarNode \/ kind n = OtherKind ->
   result = (h, Return (Err ErrExpectedMappingForArray)))
  /\
  (kind n = MappingNode ->
   forall ms, members h (Content n) = Some ms ->
     (firstNamed field ms = None ->
      result = (h, Return (Err (ErrArrayFieldNotFound field))))
     /\
     (forall arrayNode a,
        firstNamed field ms = Some arrayNode ->
        h !! arrayNode = Some a -> kind a <> SequenceNode ->
        result = (h, Return (Err (ErrNotAnArray field)))))
  /\
  (kind n = DocumentNode -> Content n = [] ->
   result = (h, Return (Err ErrEmptyDocument))).
Proof.
  intros Hwalk Hnode segments result. unfold result, segments.
  rewrite (Find_after_walk regexp_MatchString _ _ _ _ _ _ _ _ _ Hwalk Hnode).
  erewrite findRecursive_step;
    [| apply list_lookup_middle; reflexivity | exact Hnode].
  split; [| split].
  - intros Hkind.
    destruct Hkind as [Hkind | [Hkind | Hkind]]; rewrite Hkind;
      cbv beta iota; unfold findArray;
      (erewrite run_bind by (apply run_load; exact Hnode));
      rewrite Hkind; reflexivity.
  - intros Hkind ms Hms. rewrite Hkind.
    erewrite findArray_members by eassumption. split.
    + intros ->. reflexivity.
    + intros arrayNode a -> -> Hnot.
      destruct (kind a); try reflexivity. congruence.
  - intros Hkind Hempty. rewrite Hkind, Hempty. reflexivity.
Qed.

(** An instance: [b] is an alias of the sequence under [a], and [b[0]] is
    refused. *)
Lemma array_segment_errors_witness :
  Find Sample.regexp_MatchString 2 0
    (mkPath [SegmentTypeArray "b" (SelectorTypeIndex 0)]) aliasedSequence
  = (aliasedSequence, Return (Err (ErrNotAnArray "b"))).
Proof.
  refine (proj2 (proj1 (proj2 (array_segment_errors Sample.regexp_MatchString
                   aliasedSequence 0 1 0 1
                   (mkNode MappingNode "!!map" "" None [2; 3; 5; 6])
                   "b" (SelectorTypeIndex 0) [] [] _ _)) eq_refl
                   [("a", 3); ("b", 6)] eq_refl)
            6 (mkNode AliasNode "" "S" (Some 3) []) eq_refl eq_refl _).
  - eapply leads_document; [reflexivity.. |]. apply leads_here.
  - reflexivity.
  - discriminate.
Defined.

(** ** What a condition compares *)

Section ConditionMeaning.

Variable regexp_MatchString : string -> string -> option bool.

Lemma matchConditionLoop_members {E} (h : heap) (cond : Condition)
    (content : list ptr) :
  forall ms, members h content = Some ms ->
  Forall (fun member => snd member < List.length h) ms ->
  @matchConditionLoop regexp_MatchString E content cond h
  = (h, Return (Ok
       match firstNamed (CondField cond) ms with
       | None => false
       | Some valueNode =>
           match h !! valueNode, Op cond with
           | Some value, OpEqual => String.eqb (Value value) (CondValue cond)
           | Some value, OpRegex =>
               match regexp_MatchString (CondValue cond) (Value value) with
               | Some matched => matched
               | None => false
               end
           | _, _ => false
           end
       end)).
Proof.
  induction content as [| k | k v rest IH] using list_pair_ind;
    intros ms Hms Hvalid; simpl in Hms.
  - injection Hms as <-. reflexivity.
  - discriminate.
  - destruct (h !! k) as [key |] eqn:Hkey; [| discriminate].
    destruct (members h rest) as [more |]; [| discriminate].
    injection Hms as <-. inversion Hvalid as [| ? ? Hv Hmore]; subst.
    cbn [snd] in Hv.
    destruct (lookup_lt_is_Some_2 h v Hv) as [value Hvalue].
    cbn [matchConditionLoop].
    erewrite run_bind by (apply run_load; exact Hkey).
    unfold firstNamed. cbn [List.find fst snd].
    destruct (String.eqb (Value key) (CondField cond)).
    + cbv beta iota. cbn [snd]. rewrite Hvalue. destruct (Op cond) eqn:Hop.
      * erewrite run_bind by (apply run_load; exact Hvalue). reflexivity.
      * rewrite (IH more eq_refl Hmore).
        destruct (firstNamed (CondField cond) more) as [w |]; [| reflexivity].
        destruct (h !! w); reflexivity.
      * erewrite run_bind by (apply run_load; exact Hvalue). reflexivity.
    + apply IH; [reflexivity | assumption].
Qed.

Lemma matchCondition_run {E} (h : heap) (elem : ptr) (n : Node) (cond : Condition) :
  wellFormed h = true -> h !! elem = Some n ->
  @matchCondition regexp_MatchString E elem cond h
  = (h, Return (Ok (holds regexp_MatchString h cond n))).
Proof.
  intros Hwf Hn. unfold matchCondition, holds.
  erewrite run_bind by (apply run_load; exact Hn).
  destruct (Kind_eqb (kind n) MappingNode) eqn:Hkind; cbn [negb andb];
    [| reflexivity].
  assert (Hmapping : kind n = MappingNode)
    by (revert Hkind; destruct (kind n); simpl; congruence).
  destruct (wellFormed_node h elem n Hwf Hn) as [Hcontent Heven].
  destruct (members_defined h (Content n) Hcontent (Heven Hmapping))
    as (ms & Hms & Hvalues).
  rewrite Hms. apply matchConditionLoop_members; assumption.
Qed.

End ConditionMeaning.

(** X9.  What [matchCondition] decides on a well-formed tree: the element
    is a mapping, one of its keys is the condition's field, and the text of
    the value of the first such member equals the condition's value (for
    "=") or matches its pattern (for "=@...@", a pattern Go's regexp refuses
    matching nothing).  Only the text is compared, never the tag; an element
    that is no mapping or lacks the key does not match; and with the
    operator [OpNotEqual], for which the function has no case, nothing
    matches. *)
Theorem matchCondition_compares_first_member
    (regexp_MatchString : string -> string -> option bool)
    (h : heap) (elem : ptr) (n : Node) (cond : Condition) :
  wellFormed h = true -> h !! elem = Some n ->
  @matchCondition regexp_MatchString NavError elem cond h
  = (h, Return (Ok (holds regexp_MatchString h cond n)))
  /\ (kind n <> MappingNode -> holds regexp_MatchString h cond n = false)
  /\ (Op cond = OpNotEqual -> holds regexp_MatchString h cond n = false).
Proof.
  intros Hwf Hn. split; [apply matchCondition_run; assumption | split].
  - intro Hkind. unfold holds. destruct (kind n); try reflexivity. congruence.
  - intro Hop. unfold holds. rewrite Hop.
    destruct (Kind_eqb (kind n) MappingNode); [| reflexivity].
    destruct (members h (Content n)) as [ms |]; [| reflexivity].
    destruct (firstNamed (CondField cond) ms) as [v |]; [| reflexivity].
    destruct (h !! v); reflexivity.
Qed.

(** An instance on scenario A: the first container is named nginx. *)
Lemma matchCondition_witness :
  @matchCondition Sample.regexp_MatchString NavError 6
    (mkCondition "name" OpEqual "nginx") scenarioA
  = (scenarioA, Return (Ok true)).
Proof.
  exact (proj1 (matchCondition_compares_first_member Sample.regexp_MatchString
                  scenarioA 6 (mkNode MappingNode "!!map" "" None [7; 8; 9; 10])
                  (mkCondition "name" OpEqual "nginx") eq_refl eq_refl)).
Defined.

(** ** The lookup returns on the trees yaml.v3 parses *)

Lemma returns_ret {E A} (a : A) (h : heap) (P : A -> Prop) :
  P a -> returns (@ret E A a) h P.
Proof. intro Ha. exists (Ok a). split; [reflexivity | congruence]. Qed.

Lemma returns_fail {E A} (e : E) (h : heap) (P : A -> Prop) :
  returns (@fail E A e) h P.
Proof. exists (Err e). split; [reflexivity | discriminate]. Qed.

Lemma returns_bind {E A B} (m : M E A) (k : A -> M E B) (h : heap)
    (P : A -> Prop) (Q : B -> Prop) :
  returns m h P -> (forall a, P a -> returns (k a) h Q) ->
  returns (bind m k) h Q.
Proof.
  intros (r & Hm & HP) Hk. unfold returns, bind. rewrite Hm.
  destruct r as [a | e].
  - apply Hk. apply HP. reflexivity.
  - exists (Err e). split; [reflexivity | discriminate].
Qed.

Lemma returns_step {E A B} (m : M E A) (k : A -> M E B) (h : heap) (a : A)
    (Q : B -> Prop) :
  m h = (h, Return (Ok a)) -> returns (k a) h Q -> returns (bind m k) h Q.
Proof. intros Hm Hk. unfold returns, bind. rewrite Hm. exact Hk. Qed.

Lemma returns_weaken {E A} (m : M E A) (h : heap) (P Q : A -> Prop) :
  returns m h P -> (forall a, P a -> Q a) -> returns m h Q.
Proof.
  intros (r & Hm & HP) HPQ. exists r. split; [exact Hm |].
  intros a Ha. apply HPQ, HP, Ha.
Qed.

Lemma returns_load {E} (p : ptr) (h : heap) :
  p < List.length h -> returns (@load E p) h (fun n => h !! p = Some n).
Proof.
  intro Hp. destruct (lookup_lt_is_Some_2 h p Hp) as [n Hn].
  exists (Ok n). split; [apply run_load; exact Hn | congruence].
Qed.

Lemma returns_attempt {E E' A} (m : M E A) (h : heap) (P : A -> Prop) :
  returns m h P ->
  returns (@attempt E E' A m) h (fun r => forall a, r = Ok a -> P a).
Proof.
  intros (r & Hm & HP). exists (Ok r). split.
  - apply run_attempt. exact Hm.
  - intros r' Heq. injection Heq as <-. exact HP.
Qed.

Lemma returns_forRange {E A S} (l : list A) (body : S -> A -> M E S)
    (h : heap) (P : S -> Prop) :
  (forall acc x, In x l -> P acc -> returns (body acc x) h P) ->
  forall acc, P acc -> returns (forRange l body acc) h P.
Proof.
  induction l as [| x rest IH]; intros Hbody acc Hacc; simpl.
  - apply returns_ret. exact Hacc.
  - eapply returns_bind.
    + apply Hbody; [left; reflexivity | exact Hacc].
    + intros acc' Hacc'. apply IH; [| exact Hacc'].
      intros acc0 y Hy. apply Hbody. right. exact Hy.
Qed.

Lemma parsed_wellFormed (h : heap) : parsed h = true -> wellFormed h = true.
Proof. unfold parsed. intro H. apply andb_true_iff in H as [H _]. exact H. Qed.

Lemma parsed_node (h : heap) (p : ptr) (n : Node) :
  parsed h = true -> h !! p = Some n -> nodeParsed h n = true.
Proof.
  unfold parsed. intros H Hp. apply andb_true_iff in H as [_ H].
  rewrite forallb_forall in H. apply H.
  apply list_elem_of_In. eapply list_elem_of_lookup_2. exact Hp.
Qed.

Section Termination.

Variable regexp_MatchString : string -> string -> option bool.
Variable h : heap.
Hypothesis Hparsed : parsed h = true.

Local Abbreviation inHeap := (fun q : ptr => q < List.length h).

Lemma returns_mappingScan (node : ptr) (n : Node) (name : string) :
  h !! node = Some n -> kind n = MappingNode ->
  returns (@mappingScan NavError (Content n) name) h
    (fun found => forall v, found = Some v -> inHeap v).
Proof.
  intros Hnode Hkind.
  destruct (wellFormed_node h node n (parsed_wellFormed h Hparsed) Hnode)
    as [Hcontent Heven].
  destruct (members_defined h (Content n) Hcontent (Heven Hkind))
    as (ms & Hms & Hvalues).
  eexists. split; [apply mappingScan_members; exact Hms |].
  intros found Heq v Hv. injection Heq as <-.
  apply firstNamed_In in Hv. apply in_map_iff in Hv as (member & <- & Hin).
  rewrite List.Forall_forall in Hvalues. apply Hvalues. exact Hin.
Qed.

Section Step.

Variable rec : ptr -> list Segment -> nat -> M NavError (list ptr).
Variables (segments : list Segment) (segmentIdx : nat).
Hypothesis Hrec : forall v, inHeap v ->
  returns (rec v segments (segmentIdx + 1)) h (Forall inHeap).

Lemma returns_findField (node : ptr) (n : Node) (field : string) :
  h !! node = Some n ->
  returns (findField rec node field segments segmentIdx) h (Forall inHeap).
Proof.
  intro Hnode. unfold findField.
  eapply returns_step; [apply run_load; exact Hnode |].
  destruct (Kind_eqb (kind n) MappingNode) eqn:Hkind; cbn [negb];
    [| apply returns_fail].
  assert (Hmapping : kind n = MappingNode)
    by (revert Hkind; destruct (kind n); simpl; congruence).
  eapply returns_bind; [eapply returns_mappingScan; eassumption |].
  intros [v |] Hv; [| apply returns_fail].
  apply Hrec. apply Hv. reflexivity.
Qed.

Lemma returns_element (results : list ptr) (elem : ptr) :
  inHeap elem -> Forall inHeap results ->
  returns
    (do r <- @attempt NavError NavError _ (rec elem segments (segmentIdx + 1)) ;;
     match r with
     | Err _ => ret results
     | Ok matched => ret (results ++ matched)
     end) h (Forall inHeap).
Proof.
  intros Helem Hresults.
  eapply returns_bind; [apply returns_attempt; apply Hrec; exact Helem |].
  intros [matched | e] Hr; apply returns_ret; [| exact Hresults].
  apply Forall_app. split; [exact Hresults | apply Hr; reflexivity].
Qed.

Lemma returns_findArray (node : ptr) (n : Node) (field : string)
    (selector : Selector) :
  h !! node = Some n ->
  returns (findArray regexp_MatchString rec node field selector
             segments segmentIdx) h (Forall inHeap).
Proof.
  intro Hnode. unfold findArray.
  pose proof (parsed_wellFormed h Hparsed) as Hwf.
  eapply returns_step; [apply run_load; exact Hnode |].
  destruct (Kind_eqb (kind n) MappingNode) eqn:Hkind; cbn [negb];
    [| apply returns_fail].
  assert (Hmapping : kind n = MappingNode)
    by (revert Hkind; destruct (kind n); simpl; congruence).
  eapply returns_bind; [eapply returns_mappingScan; eassumption |].
  intros [arrayNode |] Harray; [| apply returns_fail].
  specialize (Harray arrayNode eq_refl).
  eapply returns_bind; [apply returns_load; exact Harray |].
  intros a Ha. cbv beta in Ha.
  destruct (negb (Kind_eqb (kind a) SequenceNode)); [apply returns_fail |].
  destruct (wellFormed_node h arrayNode a Hwf Ha) as [Hcontent _].
  rewrite List.Forall_forall in Hcontent.
  destruct selector as [| idx | cond].
  - apply returns_forRange; [| constructor].
    intros acc elem Hin Hacc. apply returns_element; [apply Hcontent |]; assumption.
  - destruct ((idx <? 0) || (Z.of_nat (List.length (Content a)) <=? idx))%Z eqn:Hout;
      [apply returns_fail |].
    apply orb_false_iff in Hout as [Hlow Hhigh].
    apply Z.ltb_ge in Hlow. apply Z.leb_gt in Hhigh.
    destruct (Content a !! Z.to_nat idx) as [elem |] eqn:Helem.
    + apply Hrec. apply Hcontent. apply list_elem_of_In.
      eapply list_elem_of_lookup_2. exact Helem.
    + apply lookup_ge_None_1 in Helem. lia.
  - eapply returns_bind.
    + apply (returns_forRange _ _ _ (Forall inHeap)); [| constructor].
      intros acc elem Hin Hacc.
      destruct (lookup_lt_is_Some_2 h elem (Hcontent elem Hin)) as [e He].
      eapply returns_step;
        [apply (matchCondition_run regexp_MatchString); eassumption |].
      destruct (holds regexp_MatchString h cond e).
      * apply returns_element; [apply Hcontent |]; assumption.
      * apply returns_ret. exact Hacc.
    + intros [| first more] Hresults; [apply returns_fail |].
      apply returns_ret. exact Hresults.
Qed.

End Step.

(** Two levels of the recursion for each segment: one to unwrap a document
    or an alias, one to apply the segment. *)
Lemma returns_findRecursive (segments : list Segment) (fuel : nat) :
  forall node segmentIdx,
    inHeap node ->
    2 * (List.length segments - segmentIdx) <= fuel
    \/ (settles h node = true
        /\ 2 * (List.length segments - segmentIdx) <= fuel + 1) ->
    returns (findRecursive regexp_MatchString fuel node segments segmentIdx)
      h (Forall inHeap).
Proof.
  pose proof (parsed_wellFormed h Hparsed) as Hwf.
  induction fuel as [| fuel IH]; intros node segmentIdx Hnode Hfuel;
    destruct (segments !! segmentIdx) as [segment |] eqn:Hsegment;
    try (unfold returns; rewrite findRecursive_at_end by exact Hsegment;
         exists (Ok [node]); split; [reflexivity |];
         intros l Heq; injection Heq as <-; repeat constructor; exact Hnode).
  - apply lookup_lt_Some in Hsegment. lia.
  - pose proof (lookup_lt_Some _ _ _ Hsegment) as Hlt.
    destruct (lookup_lt_is_Some_2 h node Hnode) as [n Hn].
    unfold returns. erewrite findRecursive_step by eassumption.
    pose proof (parsed_node h node n Hparsed Hn) as Hshape.
    destruct (wellFormed_node h node n Hwf Hn) as [Hcontent _].
    assert (Hnext : forall v, inHeap v ->
              returns (findRecursive regexp_MatchString fuel v segments
                         (segmentIdx + 1)) h (Forall inHeap)).
    { intros v Hv. apply IH; [exact Hv |]. left. lia. }
    assert (Hunwrapped : settles h node = false ->
              2 * (List.length segments - segmentIdx) <= S fuel).
    { intro Hno. destruct Hfuel as [Hfuel | [Hyes _]]; [exact Hfuel | congruence]. }
    unfold nodeParsed in Hshape. unfold settles in Hunwrapped.
    rewrite Hn in Hunwrapped.
    destruct (kind n) eqn:Hkind;
      try (destruct segment as [field | field selector];
           [eapply returns_findField | eapply returns_findArray]; eassumption).
    + destruct (Content n) as [| child rest]; [apply returns_fail |].
      apply IH.
      * inversion Hcontent; assumption.
      * right. split; [exact Hshape |]. specialize (Hunwrapped eq_refl). lia.
    + destruct (Alias n) as [target |] eqn:Halias; [| discriminate].
      apply IH.
      * eapply wellFormed_alias; eassumption.
      * right. split; [exact Hshape |]. specialize (Hunwrapped eq_refl). lia.
Qed.

End Termination.

(** X10.  On a tree as yaml.v3 parses it (every pointer a node of the tree,
    mappings in pairs, the content of a document and the target of an alias
    neither a document nor an alias), [Find] and [FindWithWhere] return from
    every node and for every address: the recursion is at most two levels
    deep for each segment, nothing panics, the tree is left as it was, and
    the result is an error or a list of nodes of the tree. *)
Theorem Find_returns_on_parsed_tree
    (regexp_MatchString : string -> string -> option bool)
    (h : heap) (fuel : nat) (root : ptr) (path : Path)
    (where_ : option WhereCondition) :
  parsed h = true -> root < List.length h ->
  2 * List.length (Segments path) <= fuel ->
  returns (Find regexp_MatchString fuel root path) h
    (Forall (fun q => q < List.length h))
  /\
  returns (FindWithWhere regexp_MatchString fuel root path where_) h
    (Forall (fun q => q < List.length h)).
Proof.
  intros Hparsed Hroot Hfuel.
  assert (Hfind : returns (Find regexp_MatchString fuel root path) h
                    (Forall (fun q => q < List.length h))).
  { apply returns_findRecursive; [exact Hparsed | exact Hroot |]. left. lia. }
  split; [exact Hfind |].
  unfold FindWithWhere. eapply returns_bind; [exact Hfind |].
  intros candidates Hcandidates. destruct where_ as [w |];
    [| apply returns_ret; exact Hcandidates].
  eexists. split.
  - apply where_loop. eapply Forall_impl; [exact Hcandidates |].
    intros q Hq. apply wellFormed_decided;
      [apply parsed_wellFormed; exact Hparsed | exact Hq].
  - intros l Heq. injection Heq as <-. simpl.
    rewrite List.Forall_forall in *. intros q Hq.
    apply filter_In in Hq as [Hq _]. apply Hcandidates. exact Hq.
Qed.

(** An instance on scenario A, with an address of two segments and a fuel
    of four. *)
Lemma Find_returns_witness :
  returns (Find Sample.regexp_MatchString 4 0
             (mkPath [SegmentTypeField "spec";
                      SegmentTypeArray "containers" SelectorTypeWildcard]))
    scenarioA (Forall (fun q => q < List.length scenarioA)).
Proof.
  refine (proj1 (Find_returns_on_parsed_tree Sample.regexp_MatchString
                   scenarioA 4 0
                   (mkPath [SegmentTypeField "spec";
                            SegmentTypeArray "containers" SelectorTypeWildcard])
                   None eq_refl _ _)); simpl; lia.
Defined.

(** X11.  On a cycle of aliases the lookup does not return.  Where every
    node of a set is an alias whose target is again in the set, [Find] from
    a node of the set with an address of at least one segment exhausts every
    recursion budget: the Go function recurses without end. *)
Theorem Find_diverges_on_alias_cycle
    (regexp_MatchString : string -> string -> option bool)
    (h : heap) (cycle : ptr -> Prop) (root : ptr) (path : Path) :
  (forall p, cycle p ->
     exists n target,
       h !! p = Some n /\ kind n = AliasNode /\ Alias n = Some target
       /\ cycle target) ->
  cycle root -> Segments path <> [] ->
  forall fuel, Find regexp_MatchString fuel root path h = (h, OutOfFuel).
Proof.
  intros Hcycle Hroot Hpath fuel. unfold Find.
  destruct (Segments path) as [| segment rest] eqn:Hsegments; [congruence |].
  clear Hpath. revert root Hroot.
  induction fuel as [| fuel IH]; intros root Hroot; [reflexivity |].
  destruct (Hcycle root Hroot) as (n & target & Hn & Hkind & Halias & Htarget).
  erewrite findRecursive_step; [| reflexivity | exact Hn].
  rewrite Hkind, Halias. apply IH. exact Htarget.
Qed.

(** An instance: an alias that is its own target. *)
Lemma Find_diverges_witness :
  Find Sample.regexp_MatchString 1000 0 (mkPath [SegmentTypeField "a"])
    [mkNode AliasNode "" "A" (Some 0) []]
  = ([mkNode AliasNode "" "A" (Some 0) []], OutOfFuel).
Proof.
  apply (Find_diverges_on_alias_cycle Sample.regexp_MatchString
           [mkNode AliasNode "" "A" (Some 0) []] (fun p => p = 0) 0
           (mkPath [SegmentTypeField "a"])).
  - intros p ->. exists (mkNode AliasNode "" "A" (Some 0) []), 0.
    repeat split; reflexivity.
  - reflexivity.
  - discriminate.
Defined.

(** * Further properties of the engine *)

(** ** A rule that fails leaves the tree as it found it *)

Create HintDb noError.

Lemma noError_ret {E A} (a : A) : noError (@ret E A a).
Proof. intros h e. discriminate. Qed.

Lemma noError_panic {E A} : noError (@panic E A).
Proof. intros h e. discriminate. Qed.

Lemma noError_outOfFuel {E A} : noError (@outOfFuel E A).
Proof. intros h e. discriminate. Qed.

Lemma noError_load {E} (p : ptr) : noError (@load E p).
Proof. intros h e. unfold load. destruct (h !! p); discriminate. Qed.

Lemma noError_store {E} (p : ptr) (n : Node) : noError (@store E p n).
Proof.
  intros h e. unfold store. destruct (decide (p < List.length h)); discriminate.
Qed.

Lemma noError_alloc {E} (n : Node) : noError (@alloc E n).
Proof. intros h e. discriminate. Qed.

Lemma noError_attempt {E E' A} (m : M E A) : noError (@attempt E E' A m).
Proof.
  intros h e. unfold attempt. destruct (m h) as [h' [r | |]]; discriminate.
Qed.

Lemma noError_bind {E A B} (m : M E A) (k : A -> M E B) :
  noError m -> (forall a, noError (k a)) -> noError (bind m k).
Proof.
  intros Hm Hk h e. unfold bind. specialize (Hm h).
  destruct (m h) as [h' [[a | e'] | |]]; simpl in *; try discriminate.
  - apply Hk.
  - exfalso. apply (Hm e'). reflexivity.
Qed.

Lemma noError_forRange {E A S} (l : list A) (body : S -> A -> M E S) :
  (forall acc x, noError (body acc x)) ->
  forall acc, noError (forRange l body acc).
Proof.
  intro Hbody. induction l as [| x rest IH]; intro acc; simpl.
  - apply noError_ret.
  - apply noError_bind; [apply Hbody | exact IH].
Qed.

Lemma noError_extends {E A} (m : M E A) : extends m -> noError m.
Proof.
  intros Hm h e. destruct (Hm h) as (extra & a & Hrun). rewrite Hrun. discriminate.
Qed.

#[local] Hint Resolve noError_ret noError_panic noError_outOfFuel noError_load
  noError_store noError_alloc noError_attempt : noError.

Ltac noError_step :=
  match goal with
  | |- noError (bind _ _) => apply noError_bind; [| intro]
  | |- noError (forRange _ _ _) => apply noError_forRange; intros
  | |- noError (match ?x with _ => _ end) => destruct x
  | |- noError _ => solve [auto with noError]
  end.

Ltac noError_auto := repeat noError_step.

Lemma noError_deleteMappingLoop {E} (recurse : ptr -> M E unit) (budget : nat) :
  (forall child, noError (recurse child)) ->
  forall node target i newContent,
    noError (deleteMappingLoop recurse budget node target i newContent).
Proof.
  intro Hrec. induction budget as [| budget IH]; intros node target i newContent;
    simpl; noError_auto; auto.
Qed.

Lemma noError_deleteNodeRecursive {E} (fuel : nat) : forall node target,
  noError (@deleteNodeRecursive E fuel node target).
Proof.
  induction fuel as [| fuel IH]; intros node target; simpl;
    [apply noError_outOfFuel |].
  noError_auto; auto.
  apply noError_deleteMappingLoop. intro child. apply IH.
Qed.

Lemma failsClean_noError {E A} (m : M E A) : noError m -> failsClean m.
Proof. intros Hm h e Herr. exfalso. exact (Hm h e Herr). Qed.

Lemma failsClean_fail {E A} (e : E) : failsClean (@fail E A e).
Proof. intros h e' _. reflexivity. Qed.

Lemma failsClean_bind {E A B} (m : M E A) (k : A -> M E B) :
  readonly m -> (forall a, failsClean (k a)) -> failsClean (bind m k).
Proof.
  intros Hm Hk h e. unfold bind. specialize (Hm h).
  destruct (m h) as [h' [[a | e'] | |]]; simpl in *; subst h';
    try discriminate.
  - apply Hk.
  - reflexivity.
Qed.

Section FailsClean.

Variable regexp2_Compile : string -> bool.
Variable regexp_MatchString : string -> string -> option bool.
Variable regexp_Compile : string -> bool.
Variable regexp_ReplaceAllString : string -> string -> string -> string.

Local Abbreviation run :=
  (Apply regexp2_Compile regexp_MatchString regexp_Compile regexp_ReplaceAllString).

Lemma failsClean_replace fuel root rule :
  failsClean (replace regexp2_Compile regexp_MatchString fuel root rule).
Proof.
  unfold replace. destruct (Parse _ _); [| apply failsClean_fail].
  apply failsClean_bind; [apply readonly_attempt, readonly_Find |].
  intros [nodes | e]; [| apply failsClean_fail].
  destruct (List.length nodes =? 0); [apply failsClean_fail |].
  apply failsClean_noError. apply noError_bind.
  - apply noError_extends, extends_Encode.
  - intro newNode. noError_auto.
Qed.

Lemma failsClean_set fuel root rule :
  failsClean (set regexp2_Compile regexp_MatchString fuel root rule).
Proof.
  unfold set. destruct (Parse _ _); [| apply failsClean_fail].
  apply failsClean_bind; [apply readonly_attempt, readonly_Find |].
  intros [nodes | e]; [| apply failsClean_fail].
  destruct (List.length nodes =? 0); [apply failsClean_fail |].
  apply failsClean_noError. apply noError_forRange. intros acc node.
  destruct (RuleVal rule); noError_auto;
    apply noError_extends, (@extends_Encode EngineError).
Qed.

Lemma failsClean_delete fuel root rule :
  failsClean (delete regexp2_Compile regexp_MatchString fuel root rule).
Proof.
  unfold delete. destruct (Parse _ _); [| apply failsClean_fail].
  apply failsClean_bind; [apply readonly_attempt, readonly_FindWithWhere |].
  intros [nodes | e]; [| apply failsClean_fail].
  apply failsClean_noError.
  destruct (List.length nodes =? 0); [apply noError_ret |].
  apply noError_forRange. intros acc node. apply noError_deleteNodeRecursive.
Qed.

Lemma failsClean_regexReplace fuel root rule :
  failsClean (regexReplace regexp2_Compile regexp_MatchString regexp_Compile
                regexp_ReplaceAllString fuel root rule).
Proof.
  unfold regexReplace. destruct (Parse _ _); [| apply failsClean_fail].
  apply failsClean_bind; [apply readonly_attempt, readonly_Find |].
  intros [nodes | e]; [| apply failsClean_fail].
  destruct (List.length nodes =? 0); [apply failsClean_fail |].
  destruct (String.eqb (Pattern rule) ""); [apply failsClean_fail |].
  destruct (negb (regexp_Compile (Pattern rule))); [apply failsClean_fail |].
  destruct (RuleVal rule); try apply failsClean_fail.
  apply failsClean_noError. noError_auto.
Qed.

Lemma failsClean_Apply fuel root rule : failsClean (run fuel root rule).
Proof.
  unfold Apply.
  destruct (String.eqb (Action rule) ActionReplace); [apply failsClean_replace |].
  destruct (String.eqb (Action rule) ActionSet); [apply failsClean_set |].
  destruct (String.eqb (Action rule) ActionDelete); [apply failsClean_delete |].
  destruct (String.eqb (Action rule) ActionRegexReplace);
    [apply failsClean_regexReplace | apply failsClean_fail].
Qed.

End FailsClean.

(** X12.  A rule that fails has changed nothing.  Whatever the action, when
    [Apply] returns an error (the path does not compile, the lookup fails,
    no node is found, the pattern is missing or does not compile, the
    replacement is no string, the action is unknown), the tree is left
    exactly as it was: every check comes before the first write. *)
Theorem failed_rule_leaves_tree_unchanged
    (regexp2_Compile : string -> bool)
    (regexp_MatchString : string -> string -> option bool)
    (regexp_Compile : string -> bool)
    (regexp_ReplaceAllString : string -> string -> string -> string)
    (fuel : nat) (root : ptr) (rule : Rule) (h : heap) (e : EngineError) :
  snd (Apply regexp2_Compile regexp_MatchString regexp_Compile
         regexp_ReplaceAllString fuel root rule h) = Return (Err e) ->
  fst (Apply regexp2_Compile regexp_MatchString regexp_Compile
         regexp_ReplaceAllString fuel root rule h) = h.
Proof. apply failsClean_Apply. Qed.

(** An instance on scenario A: a replace rule for a field that is not
    there. *)
Lemma failed_rule_witness :
  fst (Apply Sample.regexp2_Compile Sample.regexp_MatchString
         Sample.regexp_Compile Sample.regexp_ReplaceAllString 8 0
         (mkRule ActionReplace "spec.volumes" (VString "x") "" None) scenarioA)
  = scenarioA.
Proof.
  apply (failed_rule_leaves_tree_unchanged _ _ _ _ 8 0
           (mkRule ActionReplace "spec.volumes" (VString "x") "" None) scenarioA
           (ErrFindNodes (ErrFieldNotFound "volumes"))).
  reflexivity.
Defined.

(** ** Rewriting the resolved nodes one after the other *)

Lemma rewritten_cons f h node rest :
  rewritten f h (node :: rest)
  = rewritten f (match h !! node with
                 | Some n => <[node := f n]> h
                 | None => h
                 end) rest.
Proof. reflexivity. Qed.

Lemma rewritten_length f nodes : forall h,
  List.length (rewritten f h nodes) = List.length h.
Proof.
  induction nodes as [| node rest IH]; intro h; [reflexivity |].
  rewrite rewritten_cons, IH. destruct (h !! node); [apply length_insert | reflexivity].
Qed.

(** A node listed k times is rewritten k times. *)
Lemma rewritten_lookup f nodes : forall h q,
  rewritten f h nodes !! q
  = Nat.iter (count_occ Nat.eq_dec nodes q) f <$> h !! q.
Proof.
  induction nodes as [| node rest IH]; intros h q.
  - simpl. destruct (h !! q); reflexivity.
  - rewrite rewritten_cons, IH. cbn [count_occ].
    destruct (Nat.eq_dec node q) as [-> | Hne].
    + destruct (h !! q) as [n |] eqn:Hq.
      * rewrite list_lookup_insert_eq by (eapply lookup_lt_Some; exact Hq).
        cbn [fmap option_fmap option_map]. rewrite Nat.iter_succ_r. reflexivity.
      * rewrite Hq. reflexivity.
    + destruct (h !! node) as [n |]; [| reflexivity].
      rewrite list_lookup_insert_ne by exact Hne. reflexivity.
Qed.

Lemma rewrite_loop {E} (f : Node -> Node) (body : ptr -> M E unit) nodes :
  (forall h q n, h !! q = Some n -> body q h = (<[q := f n]> h, Return (Ok tt))) ->
  forall h, Forall (fun q => q < List.length h) nodes ->
    forRange nodes (fun _ node => body node) tt h
    = (rewritten f h nodes, Return (Ok tt)).
Proof.
  intro Hbody. induction nodes as [| node rest IH]; intros h Hall; [reflexivity |].
  inversion Hall as [| ? ? Hnode Hrest]; subst.
  destruct (lookup_lt_is_Some_2 h node Hnode) as [n Hn].
  rewrite rewritten_cons, Hn. cbn [forRange].
  erewrite run_bind by (apply Hbody; exact Hn).
  apply IH. eapply Forall_impl; [exact Hrest |].
  intros q Hq. simpl in Hq. rewrite length_insert. exact Hq.
Qed.

Lemma load_store {E} (f : Node -> Node) (q : ptr) (n : Node) (h : heap) :
  h !! q = Some n ->
  (do m <- @load E q ;; store q (f m)) h = (<[q := f n]> h, Return (Ok tt)).
Proof.
  intro Hq. erewrite run_bind by (apply run_load; exact Hq).
  unfold store. destruct (decide (q < List.length h)) as [| Hout]; [reflexivity |].
  exfalso. apply Hout. eapply lookup_lt_Some. exact Hq.
Qed.

Lemma iter_setScalar (k : nat) (n : Node) (tag text : string) :
  Nat.iter (S k) (fun m => setScalar m tag text) n = setScalar n tag text.
Proof.
  induction k as [| k IH]; [reflexivity |].
  change (Nat.iter (S (S k)) (fun m => setScalar m tag text) n)
    with (setScalar (Nat.iter (S k) (fun m => setScalar m tag text) n) tag text).
  rewrite IH. reflexivity.
Qed.

Lemma count_occ_pos (nodes : list ptr) (q : ptr) :
  In q nodes -> exists k, count_occ Nat.eq_dec nodes q = S k.
Proof.
  intro Hin. apply (count_occ_In Nat.eq_dec) in Hin.
  destruct (count_occ Nat.eq_dec nodes q) as [| k]; [lia | exists k; reflexivity].
Qed.

Lemma count_occ_zero (nodes : list ptr) (q : ptr) :
  ~ In q nodes -> count_occ Nat.eq_dec nodes q = 0.
Proof. intro Hout. apply count_occ_not_In. exact Hout. Qed.

(** X13.  [set] with a string, an [int] or a [bool]: on a well-formed tree
    each resolved node becomes a scalar with the tag of the value's type and
    the value's text, and keeps its other fields, its [Content] and its
    [Alias] among them, even when it was a mapping or a sequence; no node is
    allocated and every node the path did not resolve is unchanged. *)
Theorem set_writes_scalar_in_place
    (regexp2_Compile : string -> bool)
    (regexp_MatchString : string -> string -> option bool)
    (regexp_Compile : string -> bool)
    (regexp_ReplaceAllString : string -> string -> string -> string)
    (fuel : nat) (root : ptr) (rule : Rule) (p : Path) (nodes : list ptr)
    (h : heap) (tag text : string) :
  Action rule = ActionSet ->
  Parse regexp2_Compile (RulePath rule) = Ok p ->
  wellFormed h = true -> root < List.length h ->
  snd (Find regexp_MatchString fuel root p h) = Return (Ok nodes) ->
  nodes <> [] ->
  scalarOf (RuleVal rule) = Some (tag, text) ->
  exists h',
    Apply regexp2_Compile regexp_MatchString regexp_Compile
      regexp_ReplaceAllString fuel root rule h = (h', Return (Ok tt)) /\
    List.length h' = List.length h /\
    (forall q n, In q nodes -> h !! q = Some n ->
                 h' !! q = Some (setScalar n tag text)) /\
    (forall q, ~ In q nodes -> h' !! q = h !! q).
Proof.
  intros Haction Hparse Hwf Hroot Hfind Hnonempty Hscalar.
  assert (Hvalid : Forall (fun q => q < List.length h) nodes).
  { eapply findRecursive_valid; [exact Hwf | exact Hroot | exact Hfind]. }
  exists (rewritten (fun n => setScalar n tag text) h nodes).
  split; [| split; [apply rewritten_length | split]].
  - unfold Apply. rewrite Haction. simpl. unfold set. rewrite Hparse.
    erewrite run_bind.
    2:{ apply run_attempt. rewrite (readonly_run _ h) by apply readonly_Find.
        rewrite Hfind. reflexivity. }
    cbv beta iota.
    destruct nodes as [| first more]; [congruence |].
    cbn [List.length Nat.eqb].
    destruct (RuleVal rule); try discriminate; injection Hscalar as <- <-;
      apply (rewrite_loop (fun n => setScalar n _ _)); try exact Hvalid;
      intros h0 q m Hq; apply (load_store (fun n => setScalar n _ _)); exact Hq.
  - intros q n Hin Hq. rewrite rewritten_lookup, Hq.
    destruct (count_occ_pos nodes q Hin) as [k ->].
    cbn [fmap option_fmap option_map]. rewrite iter_setScalar. reflexivity.
  - intros q Hout. rewrite rewritten_lookup, count_occ_zero by exact Hout.
    destruct (h !! q); reflexivity.
Qed.

(** An instance on scenario A: the sequence of containers set to a
    string keeps its two elements under a scalar. *)
Lemma set_writes_scalar_witness :
  exists h',
    Apply Sample.regexp2_Compile Sample.regexp_MatchString Sample.regexp_Compile
      Sample.regexp_ReplaceAllString 8 0
      (mkRule ActionSet "spec.containers" (VString "none") "" None) scenarioA
    = (h', Return (Ok tt)) /\
    List.length h' = List.length scenarioA /\
    (forall q n, In q [5] -> scenarioA !! q = Some n ->
                 h' !! q = Some (setScalar n "!!str" "none")) /\
    (forall q, ~ In q [5] -> h' !! q = scenarioA !! q).
Proof.
  apply (set_writes_scalar_in_place _ _ _ _ 8 0
           (mkRule ActionSet "spec.containers" (VString "none") "" None)
           (mkPath [SegmentTypeField "spec"; SegmentTypeField "containers"]));
    try reflexivity.
  - simpl. lia.
  - discriminate.
Defined.

(** ** regex_replace *)

Lemma setValue_same (n : Node) : setValue n (Value n) = n.
Proof. destruct n. reflexivity. Qed.

Lemma iter_regexRewrite (g : string -> string) (k : nat) (n : Node) :
  Nat.iter k
    (fun m => if Kind_eqb (kind m) ScalarNode then setValue m (g (Value m)) else m) n
  = if Kind_eqb (kind n) ScalarNode then setValue n (Nat.iter k g (Value n)) else n.
Proof.
  induction k as [| k IH].
  - simpl. rewrite setValue_same. destruct (Kind_eqb (kind n) ScalarNode); reflexivity.
  - rewrite !Nat.iter_succ, IH.
    destruct (Kind_eqb (kind n) ScalarNode) eqn:Hkind; [| rewrite Hkind; reflexivity].
    cbn [setValue kind Value]. rewrite Hkind. reflexivity.
Qed.

(** X14.  [regex_replace] on a well-formed tree, for an address that
    resolves to at least one node.  The checks come in this order: an empty
    pattern is "pattern is required", a pattern Go's regexp does not compile
    is "compile regex", a replacement that is no string is "replacement must
    be string", each with the tree untouched.  Past them, the text of every
    resolved scalar is replaced by the result of [ReplaceAllString], once
    for each time the lookup lists the node (an alias can list a node
    twice); resolved nodes that are no scalars and all other nodes are
    unchanged. *)
Theorem regexReplace_rewrites_scalars
    (regexp2_Compile : string -> bool)
    (regexp_MatchString : string -> string -> option bool)
    (regexp_Compile : string -> bool)
    (regexp_ReplaceAllString : string -> string -> string -> string)
    (fuel : nat) (root : ptr) (rule : Rule) (p : Path) (nodes : list ptr)
    (h : heap) :
  Action rule = ActionRegexReplace ->
  Parse regexp2_Compile (RulePath rule) = Ok p ->
  wellFormed h = true -> root < List.length h ->
  snd (Find regexp_MatchString fuel root p h) = Return (Ok nodes) ->
  nodes <> [] ->
  let result :=
    Apply regexp2_Compile regexp_MatchString regexp_Compile
      regexp_ReplaceAllString fuel root rule h in
  (Pattern rule = EmptyString -> result = (h, Return (Err ErrPatternRequired)))
  /\
  (Pattern rule <> EmptyString -> regexp_Compile (Pattern rule) = false ->
   result = (h, Return (Err ErrCompileRegex)))
  /\
  (Pattern rule <> EmptyString -> regexp_Compile (Pattern rule) = true ->
   (forall s, RuleVal rule <> VString s) ->
   result = (h, Return (Err ErrReplacementMustBeString)))
  /\
  (forall replacement,
     Pattern rule <> EmptyString -> regexp_Compile (Pattern rule) = true ->
     RuleVal rule = VString replacement ->
     exists h',
       result = (h', Return (Ok tt)) /\
       List.length h' = List.length h /\
       forall q n, h !! q = Some n ->
         h' !! q
         = Some (if Kind_eqb (kind n) ScalarNode
                 then setValue n
                        (Nat.iter (count_occ Nat.eq_dec nodes q)
                           (fun text =>
                              regexp_ReplaceAllString (Pattern rule) text replacement)
                           (Value n))
                 else n)).
Proof.
  intros Haction Hparse Hwf Hroot Hfind Hnonempty result.
  assert (Hvalid : Forall (fun q => q < List.length h) nodes).
  { eapply findRecursive_valid; [exact Hwf | exact Hroot | exact Hfind]. }
  assert (Hrun : result
    = (if String.eqb (Pattern rule) "" then fail ErrPatternRequired
       else if negb (regexp_Compile (Pattern rule)) then fail ErrCompileRegex
       else
         match RuleVal rule with
         | VString replacement =>
             forRange nodes
               (fun _ node =>
                  do n <- load node ;;
                  if negb (Kind_eqb (kind n) ScalarNode) then ret tt
                  else
                    store node
                      (setValue n
                         (regexp_ReplaceAllString (Pattern rule) (Value n)
                            replacement))) tt
         | _ => fail ErrReplacementMustBeString
         end) h).
  { unfold result, Apply. rewrite Haction. simpl. unfold regexReplace.
    rewrite Hparse.
    erewrite run_bind.
    2:{ apply run_attempt. rewrite (readonly_run _ h) by apply readonly_Find.
        rewrite Hfind. reflexivity. }
    cbv beta iota.
    destruct nodes as [| first more]; [congruence |]. reflexivity. }
  rewrite Hrun. clear Hrun. repeat split.
  - intros ->. reflexivity.
  - intros Hpattern Hcompile. apply String.eqb_neq in Hpattern.
    rewrite Hpattern, Hcompile. reflexivity.
  - intros Hpattern Hcompile Hvalue. apply String.eqb_neq in Hpattern.
    rewrite Hpattern, Hcompile. cbn [negb].
    destruct (RuleVal rule) as [| | | | s | |]; try reflexivity.
    exfalso. apply (Hvalue s). reflexivity.
  - intros replacement Hpattern Hcompile Hvalue. apply String.eqb_neq in Hpattern.
    rewrite Hpattern, Hcompile, Hvalue. cbn [negb].
    set (f := fun m : Node =>
                if Kind_eqb (kind m) ScalarNode
                then setValue m
                       (regexp_ReplaceAllString (Pattern rule) (Value m) replacement)
                else m).
    exists (rewritten f h nodes). split; [| split].
    + apply (rewrite_loop f); [| exact Hvalid].
      intros h0 q n Hq.
      erewrite run_bind by (apply run_load; exact Hq).
      unfold f. destruct (Kind_eqb (kind n) ScalarNode); cbn [negb].
      * unfold store.
        destruct (decide (q < List.length h0)) as [| Hout]; [reflexivity |].
        exfalso. apply Hout. eapply lookup_lt_Some. exact Hq.
      * rewrite list_insert_id by exact Hq. reflexivity.
    + apply rewritten_length.
    + intros q n Hq. rewrite rewritten_lookup, Hq.
      cbn [fmap option_fmap option_map]. unfold f.
      rewrite (iter_regexRewrite
                 (fun text => regexp_ReplaceAllString (Pattern rule) text replacement)).
      reflexivity.
Qed.

(** An instance on the document with an alias: [items[*].x] resolves the
    mapping under the anchor and, through the alias, the scalar inside it;
    only the scalar is rewritten. *)
Lemma regexReplace_witness :
  exists h',
    Apply Sample.regexp2_Compile Sample.regexp_MatchString Sample.regexp_Compile
      Sample.regexp_ReplaceAllString 8 0
      (mkRule ActionRegexReplace "items[*].x" (VString "7") "5" None)
      aliasDocument
    = (h', Return (Ok tt)) /\
    List.length h' = List.length aliasDocument /\
    forall q n, aliasDocument !! q = Some n ->
      h' !! q
      = Some (if Kind_eqb (kind n) ScalarNode
              then setValue n
                     (Nat.iter (count_occ Nat.eq_dec [6; 8] q)
                        (fun text =>
                           Sample.regexp_ReplaceAllString "5" text "7")
                        (Value n))
              else n).
Proof.
  refine (proj2 (proj2 (proj2 (regexReplace_rewrites_scalars _ _ _ _ 8 0
                   (mkRule ActionRegexReplace "items[*].x" (VString "7") "5" None)
                   (mkPath [SegmentTypeArray "items" SelectorTypeWildcard;
                            SegmentTypeField "x"])
                   [6; 8] aliasDocument eq_refl eq_refl eq_refl _ eq_refl _)))
            "7" _ eq_refl eq_refl).
  - simpl. lia.
  - discriminate.
  - discriminate.
Defined.

(** ** delete only takes entries out *)

Lemma prunedNode_refl (n : Node) : prunedNode n n.
Proof. repeat split; auto. Qed.

Lemma prunedNode_trans (a b c : Node) :
  prunedNode a b -> prunedNode b c -> prunedNode a c.
Proof.
  intros (Hk & Ht & Hv & Ha & Hs & He & Hd) (Hk' & Ht' & Hv' & Ha' & Hs' & He' & Hd').
  repeat split; try congruence.
  - etrans; eassumption.
  - intros Hkind Heven. apply He'; [congruence |]. apply He; assumption.
  - intro Hkind. rewrite Hd' by congruence. apply Hd. exact Hkind.
Qed.

Lemma pruned_refl (h : heap) : pruned h h.
Proof.
  split; [reflexivity |]. intros q n Hq. exists n.
  split; [exact Hq | apply prunedNode_refl].
Qed.

Lemma pruned_trans (a b c : heap) : pruned a b -> pruned b c -> pruned a c.
Proof.
  intros [Hlen Hab] [Hlen' Hbc]. split; [congruence |].
  intros q n Hq. destruct (Hab q n Hq) as (n1 & Hq1 & Hn1).
  destruct (Hbc q n1 Hq1) as (n2 & Hq2 & Hn2).
  exists n2. split; [exact Hq2 | eapply prunedNode_trans; eassumption].
Qed.

(** [node.Content = newContent] on a pruned heap, for a [newContent] out of
    the node's original content. *)
Lemma pruned_store (h0 h : heap) (node : ptr) (n0 n : Node) (c : list ptr) :
  pruned h0 h -> h0 !! node = Some n0 -> h !! node = Some n ->
  sublist c (Content n0) ->
  (kind n0 = MappingNode -> Nat.even (List.length c) = true) ->
  kind n0 <> DocumentNode ->
  pruned h0 (<[node := setContent n c]> h).
Proof.
  intros [Hlen Hall] Hnode0 Hnode Hsub Heven Hdocument. split.
  - rewrite length_insert. exact Hlen.
  - intros q m Hq. destruct (decide (q = node)) as [-> | Hne].
    + assert (m = n0) by congruence. subst m.
      destruct (Hall node n0 Hnode0) as (n' & Hn' & Hk & Ht & Hv & Ha & _ & _ & _).
      assert (n' = n) by congruence. subst n'.
      exists (setContent n c). split.
      * apply list_lookup_insert_eq. eapply lookup_lt_Some. exact Hnode.
      * repeat split; try assumption; [| intro Hkind; congruence].
        intros Hkind _. apply Heven. exact Hkind.
    + rewrite list_lookup_insert_ne by congruence. apply Hall. exact Hq.
Qed.

Lemma sublist_drop_S {A} (l : list A) (i : nat) : sublist (drop (S i) l) (drop i l).
Proof.
  replace (drop (S i) l) with (drop 1 (drop i l)).
  - apply sublist_drop.
  - rewrite drop_drop. f_equal. lia.
Qed.

Lemma sublist_drop_mono {A} (l1 l2 : list A) :
  sublist l1 l2 -> forall i, sublist (drop i l1) (drop i l2).
Proof.
  induction 1 as [| x l1 l2 Hsub IH | x l1 l2 Hsub IH]; intro i.
  - rewrite drop_nil. constructor.
  - destruct i as [| i]; [constructor; exact Hsub | apply IH].
  - destruct i as [| i]; [constructor; exact Hsub |].
    cbn [drop]. etrans; [apply sublist_drop_S | apply IH].
Qed.

Lemma prunes_readonly {E A} (m : M E A) : readonly m -> prunes m.
Proof. intros Hm h. rewrite Hm. apply pruned_refl. Qed.

Lemma prunes_bind {E A B} (m : M E A) (k : A -> M E B) :
  prunes m -> (forall a, prunes (k a)) -> prunes (bind m k).
Proof.
  intros Hm Hk h. unfold bind. specialize (Hm h).
  destruct (m h) as [h' [[a | e] | |]]; simpl in *; try exact Hm.
  eapply pruned_trans; [exact Hm | apply Hk].
Qed.

Lemma prunes_forRange {E A S} (l : list A) (body : S -> A -> M E S) :
  (forall acc x, prunes (body acc x)) -> forall acc, prunes (forRange l body acc).
Proof.
  intro Hbody. induction l as [| x rest IH]; intro acc; simpl.
  - apply prunes_readonly, readonly_ret.
  - apply prunes_bind; [apply Hbody | exact IH].
Qed.

Lemma bind_unit_run {E B} (m : M E unit) (k : M E B) (h : heap) :
  bind m (fun _ => k) h
  = match m h with
    | (h1, Return (Ok _)) => k h1
    | (h1, Return (Err e)) => (h1, Return (Err e))
    | (h1, Panic) => (h1, Panic)
    | (h1, OutOfFuel) => (h1, OutOfFuel)
    end.
Proof. unfold bind. destruct (m h) as [h1 [[[] | e] | |]]; reflexivity. Qed.

Section Pruning.

Context {E : Type}.
Variable recurse : ptr -> M E unit.
Hypothesis Hrecurse : forall child, prunes (recurse child).
Variable target : ptr.

(** The loop over a sequence keeps, in order, elements of the sequence. *)
Lemma delete_sequence_loop (elems : list ptr) : forall acc h,
  let run :=
    forRange elems
      (fun newContent elem =>
         if elem =? target then ret newContent
         else do _ <- recurse elem ;; ret (newContent ++ [elem])) acc h in
  pruned h (fst run) /\
  forall r, snd run = Return (Ok r) ->
            exists keptElems, r = acc ++ keptElems /\ sublist keptElems elems.
Proof.
  induction elems as [| elem rest IH]; intros acc h; cbv zeta; cbn [forRange].
  - split; [apply pruned_refl |]. intros r Heq. injection Heq as <-.
    exists []. rewrite app_nil_r. split; constructor.
  - destruct (elem =? target).
    + erewrite run_bind by reflexivity.
      destruct (IH acc h) as [Hheap Hacc]. split; [exact Hheap |].
      intros r Hr. destruct (Hacc r Hr) as (keptElems & -> & Hsub).
      exists keptElems. split; [reflexivity | constructor; exact Hsub].
    + match goal with
      | |- context [bind (bind (recurse elem) ?k1) ?k2 h] =>
          assert (Hrun : bind (bind (recurse elem) k1) k2 h
                         = match recurse elem h with
                           | (h1, Return (Ok _)) => k2 (acc ++ [elem]) h1
                           | (h1, Return (Err e)) => (h1, Return (Err e))
                           | (h1, Panic) => (h1, Panic)
                           | (h1, OutOfFuel) => (h1, OutOfFuel)
                           end);
          [unfold bind; destruct (recurse elem h) as [h1 [[[] | e] | |]];
           reflexivity | rewrite Hrun; clear Hrun]
      end.
      pose proof (Hrecurse elem h) as Hstep.
      destruct (recurse elem h) as [h1 [[[] | e] | |]]; simpl in Hstep |- *;
        try (split; [exact Hstep | discriminate]).
      destruct (IH (acc ++ [elem]) h1) as [Hheap Hacc]. split.
      * eapply pruned_trans; eassumption.
      * intros r Hr. destruct (Hacc r Hr) as (keptElems & -> & Hsub).
        exists (elem :: keptElems). rewrite <- app_assoc. split; [reflexivity |].
        constructor. exact Hsub.
Qed.

(** The loop over a mapping, which reads [node.Content] again at every
    turn: what it has kept, followed by what it has still to read, is at
    every turn out of the content the mapping had when the loop began. *)
Lemma delete_mapping_loop (node : ptr) (h0 : heap) (n0 : Node) :
  h0 !! node = Some n0 ->
  forall budget i newContent h,
    pruned h0 h ->
    (forall n, h !! node = Some n ->
               sublist (newContent ++ drop i (Content n)) (Content n0)) ->
    Nat.even (List.length newContent) = true ->
    let run := deleteMappingLoop recurse budget node target i newContent h in
    pruned h0 (fst run) /\
    forall r, snd run = Return (Ok r) ->
              sublist r (Content n0) /\ Nat.even (List.length r) = true.
Proof.
  intro Hnode0.
  induction budget as [| budget IH]; intros i newContent h Hheap Hinv Heven;
    destruct (proj2 Hheap node n0 Hnode0) as (n & Hn & Hpruned);
    cbn [deleteMappingLoop];
    (erewrite run_bind by (apply run_load; exact Hn));
    specialize (Hinv n Hn) as Hsub;
    (destruct (List.length (Content n) <=? i) eqn:Hend;
     [ apply Nat.leb_le in Hend; split; [exact Hheap |];
       intros r Heq; injection Heq as <-;
       rewrite drop_ge, app_nil_r in Hsub by exact Hend; split; assumption
     | ]).
  - split; [exact Hheap | discriminate].
  - destruct (Content n !! i) as [keyNode |] eqn:Hkey;
      [| split; [exact Hheap | discriminate]].
    destruct (Content n !! (i + 1)) as [valueNode |] eqn:Hvalue;
      [| split; [exact Hheap | discriminate]].
    assert (Hdrop : drop i (Content n)
                    = keyNode :: valueNode :: drop (i + 2) (Content n)).
    { rewrite (drop_S _ _ _ Hkey). replace (S i) with (i + 1) by lia.
      rewrite (drop_S _ _ _ Hvalue). repeat f_equal. lia. }
    rewrite Hdrop in Hsub.
    destruct (valueNode =? target).
    + apply IH; [exact Hheap | | exact Heven].
      intros n' Hn'. assert (n' = n) by congruence. subst n'.
      etrans; [| exact Hsub]. apply sublist_app; [reflexivity |].
      do 2 apply sublist_cons. reflexivity.
    + rewrite bind_unit_run.
      pose proof (Hrecurse valueNode h) as Hstep.
      destruct (recurse valueNode h) as [h1 [[[] | e] | |]]; simpl in Hstep |- *;
        try (split; [eapply pruned_trans; eassumption | discriminate]).
      apply IH.
      * eapply pruned_trans; eassumption.
      * intros n1 Hn1.
        destruct (proj2 Hstep node n Hn) as (n1' & Hn1' & Hrel).
        assert (n1' = n1) by congruence. subst n1'.
        destruct Hrel as (_ & _ & _ & _ & Hcontent & _ & _).
        etrans; [| exact Hsub].
        rewrite <- app_assoc. apply sublist_app; [reflexivity |].
        cbn [app]. do 2 apply sublist_skip.
        apply sublist_drop_mono. exact Hcontent.
      * rewrite length_app. cbn [List.length].
        replace (List.length newContent + 2) with (S (S (List.length newContent)))
          by lia.
        exact Heven.
Qed.

End Pruning.

Lemma prunes_deleteNodeRecursive {E} (fuel : nat) : forall node target,
  prunes (@deleteNodeRecursive E fuel node target).
Proof.
  induction fuel as [| fuel IH]; intros node target h.
  - apply pruned_refl.
  - cbn [deleteNodeRecursive]. unfold bind at 1. unfold load at 1.
    destruct (h !! node) as [n |] eqn:Hn; [| apply pruned_refl].
    destruct (kind n) eqn:Hkind; try apply pruned_refl.
    + apply prunes_forRange. intros acc child. apply IH.
    + unfold bind at 1.
      destruct (delete_sequence_loop
                  (fun child => deleteNodeRecursive fuel child target)
                  (fun child => IH child target) target (Content n) [] h)
        as [Hheap Hacc].
      destruct (forRange (Content n) _ [] h) as [h1 [[newContent | e] | |]];
        simpl in Hheap, Hacc |- *; try exact Hheap.
      destruct (Hacc newContent eq_refl) as (keptElems & -> & Hsub).
      destruct (proj2 Hheap node n Hn) as (n1 & Hn1 & _).
      erewrite run_bind by (apply run_load; exact Hn1).
      unfold store.
      destruct (decide (node < List.length h1)) as [| Hout]; [| exact Hheap].
      simpl. eapply pruned_store; try eassumption; congruence.
    + unfold bind at 1.
      destruct (delete_mapping_loop
                  (fun child => deleteNodeRecursive fuel child target)
                  (fun child => IH child target) target node h n Hn
                  fuel 0 [] h (pruned_refl h))
        as [Hheap Hacc].
      { intros n' Hn'. assert (n' = n) by congruence. subst n'.
        rewrite drop_0. reflexivity. }
      { reflexivity. }
      destruct (deleteMappingLoop _ fuel node target 0 [] h)
        as [h1 [[newContent | e] | |]];
        simpl in Hheap, Hacc |- *; try exact Hheap.
      destruct (Hacc newContent eq_refl) as [Hsub Heven].
      destruct (proj2 Hheap node n Hn) as (n1 & Hn1 & _).
      erewrite run_bind by (apply run_load; exact Hn1).
      unfold store.
      destruct (decide (node < List.length h1)) as [| Hout]; [| exact Hheap].
      simpl. eapply pruned_store; try eassumption; [intros _; exact Heven |].
      congruence.
Qed.

Lemma pruned_wellFormed (h h' : heap) :
  pruned h h' -> wellFormed h = true -> wellFormed h' = true.
Proof.
  intros [Hlen Hall] Hwf. unfold wellFormed. apply forallb_forall.
  intros n' Hin. apply list_elem_of_In, list_elem_of_lookup_1 in Hin as [q Hq'].
  assert (Hq : q < List.length h) by (rewrite <- Hlen; eapply lookup_lt_Some; exact Hq').
  destruct (lookup_lt_is_Some_2 h q Hq) as [n Hn].
  destruct (Hall q n Hn) as (n1 & Hn1 & Hk & _ & _ & Ha & Hsub & Heven & _).
  assert (n1 = n') by congruence. subst n1.
  destruct (wellFormed_node h q n Hwf Hn) as [Hcontent Hpairs].
  unfold nodeWellFormed. rewrite Hlen. repeat (apply andb_true_iff; split).
  - apply forallb_forall. intros c Hc. apply Nat.ltb_lt.
    rewrite List.Forall_forall in Hcontent. apply Hcontent.
    apply list_elem_of_In. eapply elem_of_sublist; [| exact Hsub].
    apply list_elem_of_In. exact Hc.
  - rewrite Ha. destruct (Alias n) as [t |] eqn:Halias; [| reflexivity].
    apply Nat.ltb_lt. eapply wellFormed_alias; eassumption.
  - rewrite Hk. destruct (Kind_eqb (kind n) MappingNode) eqn:Hkind; [| reflexivity].
    cbn [negb orb].
    assert (Hmapping : kind n = MappingNode)
      by (revert Hkind; destruct (kind n); simpl; congruence).
    apply Heven; [exact Hmapping | apply Hpairs; exact Hmapping].
Qed.

(** X15.  A delete rule only takes entries out of [Content] lists.
    Whatever the outcome of [Apply] (success, error, panic or an exhausted
    budget), the tree it leaves has the nodes it had, each with its kind,
    tag, text and alias; the children a node keeps stand in the order they
    had; no node is added; and a well-formed tree is left well-formed. *)
Theorem delete_only_removes_entries
    (regexp2_Compile : string -> bool)
    (regexp_MatchString : string -> string -> option bool)
    (regexp_Compile : string -> bool)
    (regexp_ReplaceAllString : string -> string -> string -> string)
    (fuel : nat) (root : ptr) (rule : Rule) (h : heap) :
  Action rule = ActionDelete ->
  let h' := fst (Apply regexp2_Compile regexp_MatchString regexp_Compile
                   regexp_ReplaceAllString fuel root rule h) in
  pruned h h' /\ (wellFormed h = true -> wellFormed h' = true).
Proof.
  intros Haction h'.
  assert (Hpruned : pruned h h').
  { unfold h', Apply. rewrite Haction. simpl. unfold delete.
    destruct (Parse regexp2_Compile (RulePath rule)); [| apply pruned_refl].
    apply prunes_bind.
    - apply prunes_readonly, readonly_attempt, readonly_FindWithWhere.
    - intros [nodes | e]; [| intro; apply pruned_refl].
      destruct (List.length nodes =? 0); [intro; apply pruned_refl |].
      apply prunes_forRange. intros acc node.
      apply prunes_deleteNodeRecursive. }
  split; [exact Hpruned | apply pruned_wellFormed; exact Hpruned].
Qed.

(** An instance on scenario B. *)
Lemma delete_only_removes_witness :
  pruned scenarioB
    (fst (Apply Sample.regexp2_Compile Sample.regexp_MatchString
            Sample.regexp_Compile Sample.regexp_ReplaceAllString 8 0
            scenarioB_rule scenarioB)).
Proof.
  exact (proj1 (delete_only_removes_entries Sample.regexp2_Compile
                  Sample.regexp_MatchString Sample.regexp_Compile
                  Sample.regexp_ReplaceAllString 8 0 scenarioB_rule scenarioB
                  eq_refl)).
Defined.

(** * The rule loader *)

Lemma Validate_Ok_iff (rule : Rule) :
  Validate rule = Ok tt <->
  RulePath rule <> EmptyString /\
  ((Action rule = ActionReplace /\ RuleVal rule <> VNil)
   \/ (Action rule = ActionRegexReplace /\ Pattern rule <> EmptyString
       /\ exists s, RuleVal rule = VString s)
   \/ Action rule = ActionDelete).
Proof.
  unfold Validate.
  destruct (String.eqb_spec (RulePath rule) "") as [Hpath | Hpath].
  { split; [discriminate | intros [Habsurd _]; congruence]. }
  destruct (String.eqb_spec (Action rule) ActionReplace) as [Hreplace | Hreplace].
  { split.
    - intro Hok. split; [exact Hpath |]. left. split; [exact Hreplace |].
      intro Hnil. rewrite Hnil in Hok. discriminate.
    - intros [_ [[_ Hvalue] | [[Hregex _] | Hdelete]]];
        try (rewrite Hreplace in *; discriminate).
      destruct (RuleVal rule); congruence. }
  destruct (String.eqb_spec (Action rule) ActionRegexReplace) as [Hregex | Hregex].
  { split.
    - intro Hok. split; [exact Hpath |]. right. left.
      destruct (String.eqb_spec (Pattern rule) "") as [| Hpattern];
        [discriminate |].
      split; [exact Hregex | split; [exact Hpattern |]].
      destruct (RuleVal rule) as [| | | | s | |]; try discriminate.
      exists s. reflexivity.
    - intros [_ [[Hr _] | [(_ & Hpattern & s & Hvalue) | Hdelete]]];
        try (rewrite Hregex in *; discriminate).
      apply String.eqb_neq in Hpattern. rewrite Hpattern, Hvalue. reflexivity. }
  destruct (String.eqb_spec (Action rule) ActionDelete) as [Hdelete | Hdelete].
  { split; [| reflexivity]. intros _. split; [exact Hpath |]. right. right.
    exact Hdelete. }
  split; [discriminate |].
  intros [_ [[Hr _] | [[Hr _] | Hr]]]; congruence.
Qed.

(** X16.  What [Validate] accepts: a rule with a path that is not empty and
    either the action replace with a value, the action regex_replace with
    a pattern and a string value, or the action delete.  Every other
    action is refused as unknown, and that includes set, which [Apply]
    carries out. *)
Theorem Validate_accepts (rule : Rule) :
  (Validate rule = Ok tt <->
   RulePath rule <> EmptyString /\
   ((Action rule = ActionReplace /\ RuleVal rule <> VNil)
    \/ (Action rule = ActionRegexReplace /\ Pattern rule <> EmptyString
        /\ exists s, RuleVal rule = VString s)
    \/ Action rule = ActionDelete))
  /\
  (RulePath rule <> EmptyString -> Action rule = ActionSet ->
   Validate rule = Err (ErrUnknownRuleAction ActionSet)).
Proof.
  split; [apply Validate_Ok_iff |].
  intros Hpath Hset. unfold Validate.
  apply String.eqb_neq in Hpath. rewrite Hpath, Hset. reflexivity.
Qed.

(** ** Rules that pass validation, in the engine *)

Lemma errors_bind {E A B} (P : E -> Prop) (m : M E A) (k : A -> M E B) :
  (forall h e, snd (m h) = Return (Err e) -> P e) ->
  (forall a h e, snd (k a h) = Return (Err e) -> P e) ->
  forall h e, snd (bind m k h) = Return (Err e) -> P e.
Proof.
  intros Hm Hk h e. unfold bind. specialize (Hm h).
  destruct (m h) as [h' [[a | e'] | |]]; simpl in *; try discriminate.
  - apply Hk.
  - intro Heq. injection Heq as <-. apply Hm. reflexivity.
Qed.

Lemma errors_fail {E A} (P : E -> Prop) (e0 : E) :
  P e0 -> forall h e, snd (@fail E A e0 h) = Return (Err e) -> P e.
Proof. intros He0 h e Heq. injection Heq as <-. exact He0. Qed.

Lemma errors_noError {E A} (P : E -> Prop) (m : M E A) :
  noError m -> forall h e, snd (m h) = Return (Err e) -> P e.
Proof. intros Hm h e Heq. exfalso. exact (Hm h e Heq). Qed.

Section ValidatedRules.

Variable regexp2_Compile : string -> bool.
Variable regexp_MatchString : string -> string -> option bool.
Variable regexp_Compile : string -> bool.
Variable regexp_ReplaceAllString : string -> string -> string -> string.

Lemma Parse_nonempty_error (pathStr : string) (e : ParseError) :
  pathStr <> EmptyString -> Parse regexp2_Compile pathStr = Err e ->
  exists part cause, e = ErrInvalidSegment part cause.
Proof.
  intros Hpath. unfold Parse. apply String.eqb_neq in Hpath. rewrite Hpath.
  intro Hparse.
  destruct (parseParts_Err _ _ _ _ Hparse)
    as (before & part & after & cause & _ & _ & _ & ->).
  eauto.
Qed.

(** The part of an action up to the resolved nodes. *)
Lemma errors_lookup (pathStr : string)
    (lookup : Path -> M NavError (list ptr))
    (onNodes : list ptr -> M EngineError unit) :
  pathStr <> EmptyString ->
  (forall nodes h e, snd (onNodes nodes h) = Return (Err e) -> expectedError e) ->
  forall h e,
    snd (match Parse regexp2_Compile pathStr with
         | Err e' => fail (ErrParsePath e')
         | Ok p =>
             do found <- attempt (lookup p) ;;
             match found with
             | Err e' => fail (ErrFindNodes e')
             | Ok nodes => onNodes nodes
             end
         end h) = Return (Err e) ->
    expectedError e.
Proof.
  intros Hpath Hnodes h e.
  destruct (Parse regexp2_Compile pathStr) as [p | e'] eqn:Hparse.
  - apply errors_bind; [apply errors_noError, noError_attempt |].
    intros [nodes | e'']; [apply Hnodes | apply errors_fail; constructor].
  - destruct (Parse_nonempty_error _ _ Hpath Hparse) as (part & cause & ->).
    apply errors_fail. constructor.
Qed.

Lemma validated_errors fuel root rule h e :
  Validate rule = Ok tt ->
  snd (Apply regexp2_Compile regexp_MatchString regexp_Compile
         regexp_ReplaceAllString fuel root rule h) = Return (Err e) ->
  expectedError e.
Proof.
  intro Hvalid. apply Validate_Ok_iff in Hvalid as [Hpath Haction].
  unfold Apply.
  destruct Haction as [[Haction Hvalue] | [(Haction & Hpattern & s & Hvalue) | Haction]];
    rewrite Haction; simpl.
  - unfold replace. apply errors_lookup; [exact Hpath |].
    intros nodes h0 e0.
    destruct (List.length nodes =? 0); [apply errors_fail; constructor |].
    apply errors_noError. apply noError_bind.
    + apply noError_extends, extends_Encode.
    + intro newNode. noError_auto.
  - unfold regexReplace. apply errors_lookup; [exact Hpath |].
    intros nodes h0 e0.
    destruct (List.length nodes =? 0); [apply errors_fail; constructor |].
    apply String.eqb_neq in Hpattern. rewrite Hpattern.
    destruct (negb (regexp_Compile (Pattern rule)));
      [apply errors_fail; constructor |].
    rewrite Hvalue. apply errors_noError. noError_auto.
  - unfold delete. apply errors_lookup; [exact Hpath |].
    intros nodes h0 e0. apply errors_noError.
    destruct (List.length nodes =? 0); [apply noError_ret |].
    apply noError_forRange. intros acc node. apply noError_deleteNodeRecursive.
Qed.

End ValidatedRules.

(** X17.  Validation and the engine fit together: a rule [Validate]
    accepts never fails in [Apply] for an unknown action, an empty path, a
    missing pattern or a replacement that is no string.  The errors left
    are a part of the path that does not parse, a lookup that fails, an
    address that resolves to nothing (replace and regex_replace), and a
    pattern Go's regexp does not compile. *)
Theorem validated_rule_fails_only_on_the_document
    (regexp2_Compile : string -> bool)
    (regexp_MatchString : string -> string -> option bool)
    (regexp_Compile : string -> bool)
    (regexp_ReplaceAllString : string -> string -> string -> string)
    (fuel : nat) (root : ptr) (rule : Rule) (h : heap) (e : EngineError) :
  Validate rule = Ok tt ->
  snd (Apply regexp2_Compile regexp_MatchString regexp_Compile
         regexp_ReplaceAllString fuel root rule h) = Return (Err e) ->
  expectedError e.
Proof. apply validated_errors. Qed.

(** An instance on scenario A: a validated replace rule for a field that is
    not there. *)
Lemma validated_rule_witness :
  expectedError (ErrFindNodes (ErrFieldNotFound "volumes")).
Proof.
  exact (validated_rule_fails_only_on_the_document
           Sample.regexp2_Compile Sample.regexp_MatchString
           Sample.regexp_Compile Sample.regexp_ReplaceAllString 8 0
           (mkRule ActionReplace "spec.volumes" (VString "x") "" None) scenarioA
           (ErrFindNodes (ErrFieldNotFound "volumes")) eq_refl eq_refl).
Defined.

(** ** Loading a rule file *)





(** * The processor: rules applied one after the other *)

Section RulesInOrder.

Variable regexp2_Compile : string -> bool.
Variable regexp_MatchString : string -> string -> option bool.
Variable regexp_Compile : string -> bool.
Variable regexp_ReplaceAllString : string -> string -> string -> string.

Local Abbreviation applyAll :=
  (applyRules regexp2_Compile regexp_MatchString regexp_Compile
     regexp_ReplaceAllString).
Local Abbreviation applyOne :=
  (Apply regexp2_Compile regexp_MatchString regexp_Compile
     regexp_ReplaceAllString).

Lemma applyRules_app fuel root (before after : list Rule) : forall i h h1,
  applyAll fuel root i before h = (h1, Return (Ok tt)) ->
  applyAll fuel root i (before ++ after) h
  = applyAll fuel root (i + List.length before) after h1.
Proof.
  induction before as [| r rest IH]; intros i h h1; cbn [applyRules app List.length].
  - intro Heq. injection Heq as <-. f_equal. lia.
  - unfold bind, attempt.
    destruct (applyOne fuel root r h) as [h' [[[] | e] | |]]; try discriminate.
    intro Hrest. rewrite (IH _ _ _ Hrest). f_equal. lia.
Qed.

Lemma applyRules_fails fuel root r after i h e :
  snd (applyOne fuel root r h) = Return (Err e) ->
  applyAll fuel root i (r :: after) h
  = (h, Return (Err (ErrApplyRule i (RulePath r) e))).
Proof.
  intro Hfail. pose proof (failsClean_Apply _ _ _ _ fuel root r h e Hfail) as Hclean.
  cbn [applyRules]. unfold bind, attempt.
  destruct (applyOne fuel root r h) as [h' [[[] | e'] | |]]; simpl in *;
    try discriminate.
  injection Hfail as <-. subst h'. reflexivity.
Qed.

End RulesInOrder.

(** X19.  The rules of a file are applied in order, each to the tree the
    one before left, and the run stops at the first rule that fails: the
    error carries that rule's index and path, the rules after it are not
    applied, and the tree is the one the rules before it produced.  Their
    changes are not undone, and the failing rule adds none. *)
Theorem applyRules_stops_at_first_failure
    (regexp2_Compile : string -> bool)
    (regexp_MatchString : string -> string -> option bool)
    (regexp_Compile : string -> bool)
    (regexp_ReplaceAllString : string -> string -> string -> string)
    (fuel : nat) (root : ptr) (before after : list Rule) (r : Rule)
    (h h1 : heap) (e : EngineError) :
  applyRules regexp2_Compile regexp_MatchString regexp_Compile
    regexp_ReplaceAllString fuel root 0 before h = (h1, Return (Ok tt)) ->
  snd (Apply regexp2_Compile regexp_MatchString regexp_Compile
         regexp_ReplaceAllString fuel root r h1) = Return (Err e) ->
  applyRules regexp2_Compile regexp_MatchString regexp_Compile
    regexp_ReplaceAllString fuel root 0 (before ++ r :: after) h
  = (h1, Return (Err (ErrApplyRule (List.length before) (RulePath r) e))).
Proof.
  intros Hbefore Hfail.
  rewrite (applyRules_app _ _ _ _ _ _ _ _ _ _ _ Hbefore).
  apply applyRules_fails. exact Hfail.
Qed.

(** An instance on scenario A: the image is set, then a rule for a field
    that is not there fails, and a third rule is never reached. *)
Lemma applyRules_witness :
  applyRules Sample.regexp2_Compile Sample.regexp_MatchString
    Sample.regexp_Compile Sample.regexp_ReplaceAllString 8 0 0
    ([mkRule ActionSet "spec.containers[0].image" (VString "new") "" None]
     ++ mkRule ActionReplace "spec.volumes" (VString "x") "" None
     :: [mkRule ActionDelete "spec" VNil "" None]) scenarioA
  = (<[10 := scalarNode "!!str" "new"]> scenarioA,
     Return (Err (ErrApplyRule 1 "spec.volumes"
                    (ErrFindNodes (ErrFieldNotFound "volumes"))))).
Proof.
  exact (applyRules_stops_at_first_failure
           Sample.regexp2_Compile Sample.regexp_MatchString
           Sample.regexp_Compile Sample.regexp_ReplaceAllString 8 0
           [mkRule ActionSet "spec.containers[0].image" (VString "new") "" None]
           [mkRule ActionDelete "spec" VNil "" None]
           (mkRule ActionReplace "spec.volumes" (VString "x") "" None)
           scenarioA (<[10 := scalarNode "!!str" "new"]> scenarioA)
           (ErrFindNodes (ErrFieldNotFound "volumes")) eq_refl eq_refl).
Defined.

(** * Selectors in the middle of an address *)

Section SelectorsInTheMiddle.

Variable regexp_MatchString : string -> string -> option bool.
Variable rec : ptr -> list Segment -> nat -> M NavError (list ptr).
Variables (segments : list Segment) (segmentIdx : nat) (h : heap).

Let outcomeOf (elem : ptr) : list ptr :=
  match snd (rec elem segments (segmentIdx + 1) h) with
  | Return (Ok matched) => matched
  | _ => []
  end.

Lemma element_step (results : list ptr) (elem : ptr) :
  (exists r, rec elem segments (segmentIdx + 1) h = (h, Return r)) ->
  (do r <- @attempt NavError NavError _ (rec elem segments (segmentIdx + 1)) ;;
   match r with
   | Err _ => ret results
   | Ok matched => ret (results ++ matched)
   end) h
  = (h, Return (Ok (results ++ outcomeOf elem))).
Proof.
  intros [r Hr]. unfold outcomeOf. rewrite Hr.
  erewrite run_bind by (apply run_attempt; exact Hr).
  destruct r as [matched | e]; [reflexivity |].
  cbn [snd]. rewrite app_nil_r. reflexivity.
Qed.

Lemma wildcard_loop_general (elems : list ptr) :
  Forall (fun elem => exists r, rec elem segments (segmentIdx + 1) h = (h, Return r))
    elems ->
  forall acc,
    forRange elems
      (fun results elem =>
         do r <- @attempt NavError NavError _ (rec elem segments (segmentIdx + 1)) ;;
         match r with
         | Err _ => ret results
         | Ok matched => ret (results ++ matched)
         end) acc h
    = (h, Return (Ok (acc ++ concat (map outcomeOf elems)))).
Proof.
  induction 1 as [| elem rest Helem Hrest IH]; intro acc; cbn [forRange map concat].
  - rewrite app_nil_r. reflexivity.
  - erewrite run_bind by (apply element_step; exact Helem).
    rewrite IH, <- app_assoc. reflexivity.
Qed.

Lemma condition_loop_general (cond : Condition) (elems : list ptr) :
  wellFormed h = true ->
  Forall (fun elem => elem < List.length h) elems ->
  Forall (fun elem => exists r, rec elem segments (segmentIdx + 1) h = (h, Return r))
    elems ->
  forall acc,
    forRange elems
      (fun results elem =>
         do ok <- matchCondition regexp_MatchString elem cond ;;
         if ok : bool then
           do r <- @attempt NavError NavError _ (rec elem segments (segmentIdx + 1)) ;;
           match r with
           | Err _ => ret results
           | Ok matched => ret (results ++ matched)
           end
         else ret results) acc h
    = (h, Return (Ok (acc ++ concat (map outcomeOf
                         (List.filter (satisfies regexp_MatchString h cond) elems))))).
Proof.
  intros Hwf Hvalid Hall. revert Hvalid.
  induction Hall as [| elem rest Helem Hrest IH]; intros Hvalid acc;
    cbn [forRange List.filter].
  - cbn [map concat]. rewrite app_nil_r. reflexivity.
  - inversion Hvalid as [| ? ? Hin Hvalid']; subst.
    destruct (lookup_lt_is_Some_2 h elem Hin) as [e He].
    pose proof (matchCondition_run regexp_MatchString (E := NavError)
                  h elem e cond Hwf He) as Hcond.
    unfold satisfies at 1. rewrite Hcond. cbn [snd].
    destruct (holds regexp_MatchString h cond e).
    + erewrite run_bind.
      2:{ erewrite run_bind by exact Hcond. cbv beta iota.
          apply element_step. exact Helem. }
      rewrite (IH Hvalid'). cbn [map concat]. rewrite <- app_assoc. reflexivity.
    + erewrite run_bind.
      2:{ erewrite run_bind by exact Hcond. reflexivity. }
      apply (IH Hvalid').
Qed.

End SelectorsInTheMiddle.

(** X20.  A wildcard or a condition at any position of an address, on a
    tree as yaml.v3 parses it.  The lookup may stand anywhere: at the root
    with the first segment, or, inside the remainder of an earlier wildcard
    or condition, at one of its elements with a later segment.  Where the
    segments from there up to the selector lead to a mapping whose member is
    a sequence, the wildcard resolves the rest of the address from every
    element and returns the results one after the other in the order of the
    elements, an element from which the rest fails adding nothing; a
    condition does the same over the elements that satisfy it, and fails
    with "no elements match condition" when this leaves no node at all,
    also when elements did satisfy the condition. *)
Theorem selector_maps_rest_over_elements
    (regexp_MatchString : string -> string -> option bool)
    (h : heap) (fuel k : nat) (from node arrayNode : ptr) (n a : Node)
    (field : string) (selector : Selector) (prefix rest : list Segment)
    (segmentIdx : nat) :
  parsed h = true ->
  segmentIdx <= List.length prefix ->
  leadsTo h prefix k from segmentIdx node (List.length prefix) ->
  h !! node = Some n -> kind n = MappingNode ->
  snd (@mappingScan NavError (Content n) field h) = Return (Ok (Some arrayNode)) ->
  h !! arrayNode = Some a -> kind a = SequenceNode ->
  2 * List.length rest <= fuel ->
  let segments := prefix ++ SegmentTypeArray field selector :: rest in
  let fromElement :=
    resolvedFrom regexp_MatchString fuel segments (List.length prefix + 1) h in
  (selector = SelectorTypeWildcard ->
   findRecursive regexp_MatchString (k + S fuel) from segments segmentIdx h
   = (h, Return (Ok (concat (map fromElement (Content a))))))
  /\
  (forall cond, selector = SelectorTypeCondition cond ->
   findRecursive regexp_MatchString (k + S fuel) from segments segmentIdx h
   = (h, match concat (map fromElement
                         (List.filter (satisfies regexp_MatchString h cond)
                            (Content a))) with
         | [] => Return (Err ErrNoElementsMatch)
         | results => Return (Ok results)
         end)).
Proof.
  intros Hparsed Hidx Hwalk Hnode Hmapping Hfield Harray Hsequence Hfuel
    segments fromElement.
  pose proof (parsed_wellFormed h Hparsed) as Hwf.
  destruct (wellFormed_node h arrayNode a Hwf Harray) as [Hcontent _].
  assert (Hreturns : Forall (fun elem => exists r,
              findRecursive regexp_MatchString fuel elem segments
                (List.length prefix + 1) h = (h, Return r)) (Content a)).
  { eapply Forall_impl; [exact Hcontent |]. intros elem Helem.
    destruct (returns_findRecursive regexp_MatchString h Hparsed segments fuel
                elem (List.length prefix + 1) Helem) as (r & Hr & _).
    - left. unfold segments. rewrite length_app. cbn [List.length]. lia.
    - exists r. exact Hr. }
  assert (Hfind :
    findRecursive regexp_MatchString (k + S fuel) from segments segmentIdx h
    = findArray regexp_MatchString (findRecursive regexp_MatchString fuel)
        node field selector segments (List.length prefix) h).
  { unfold segments.
    rewrite (findRecursive_leadsTo regexp_MatchString _ _ _ _ _ _ _ _ Hwalk)
      by (lia || discriminate).
    erewrite findRecursive_array;
      [reflexivity | apply list_lookup_middle; reflexivity | eassumption..]. }
  rewrite Hfind. split.
  - intros ->. erewrite findArray_wildcard by eassumption.
    apply (wildcard_loop_general (findRecursive regexp_MatchString fuel)
             segments (List.length prefix) h (Content a) Hreturns []).
  - intros cond ->. erewrite findArray_condition by eassumption.
    erewrite run_bind.
    2:{ apply (condition_loop_general regexp_MatchString
                 (findRecursive regexp_MatchString fuel)
                 segments (List.length prefix) h cond (Content a) Hwf Hcontent
                 Hreturns []). }
    cbn [app]. unfold fromElement, resolvedFrom.
    destruct (concat _); reflexivity.
Qed.

(** An instance inside the remainder of a wildcard: in
    [items[*].env[name=a]] on [items: [{env: [{name: a}]}]], the condition
    is looked up from the element of [items], at the second segment. *)
Lemma selector_maps_witness :
  findRecursive Sample.regexp_MatchString 3 4
    [SegmentTypeArray "items" SelectorTypeWildcard;
     SegmentTypeArray "env"
       (SelectorTypeCondition (mkCondition "name" OpEqual "a"))] 1
    nestedDocument
  = (nestedDocument, Return (Ok [7])).
Proof.
  refine (proj2 (selector_maps_rest_over_elements
                   Sample.regexp_MatchString nestedDocument 2 0 4 4 6
                   (mkNode MappingNode "!!map" "" None [5; 6])
                   (mkNode SequenceNode "!!seq" "" None [7])
                   "env"
                   (SelectorTypeCondition (mkCondition "name" OpEqual "a"))
                   [SegmentTypeArray "items" SelectorTypeWildcard] [] 1
                   eq_refl _ _ eq_refl eq_refl eq_refl eq_refl eq_refl _)
            (mkCondition "name" OpEqual "a") eq_refl).
  - simpl. lia.
  - apply leads_here.
  - simpl. lia.
Defined.

(** * The engine keeps the tree parsed *)

Lemma nodeWellFormed_grow (h h' : heap) (n : Node) :
  List.length h <= List.length h' ->
  nodeWellFormed h n = true -> nodeWellFormed h' n = true.
Proof.
  intros Hlen. unfold nodeWellFormed. intro H.
  apply andb_true_iff in H as [H Heven]. apply andb_true_iff in H as [Hcontent Halias].
  repeat (apply andb_true_iff; split); [| | exact Heven].
  - rewrite forallb_forall in *. intros q Hq. specialize (Hcontent q Hq).
    apply Nat.ltb_lt in Hcontent. apply Nat.ltb_lt. lia.
  - destruct (Alias n) as [t |]; [| reflexivity].
    apply Nat.ltb_lt in Halias. apply Nat.ltb_lt. lia.
Qed.

Lemma fits_grow (h h' : heap) (n : Node) :
  List.length h <= List.length h' -> fits h n -> fits h' n.
Proof.
  intros Hlen (Hwf & Hd & Ha). repeat split; try assumption.
  eapply nodeWellFormed_grow; eassumption.
Qed.

Lemma fits_settles (n : Node) :
  kind n <> DocumentNode -> kind n <> AliasNode ->
  negb (Kind_eqb (kind n) DocumentNode) && negb (Kind_eqb (kind n) AliasNode) = true.
Proof. destruct (kind n); intros Hd Ha; try reflexivity; congruence. Qed.

Lemma settles_kind (h : heap) (p : ptr) :
  settles h p = true ->
  exists n, h !! p = Some n /\ kind n <> DocumentNode /\ kind n <> AliasNode.
Proof.
  unfold settles. destruct (h !! p) as [n |]; [| discriminate].
  intro H. exists n. split; [reflexivity |].
  destruct (kind n); try discriminate; split; discriminate.
Qed.

Lemma wellFormed_lookup (h : heap) (p : ptr) (n : Node) :
  wellFormed h = true -> h !! p = Some n -> nodeWellFormed h n = true.
Proof.
  intros Hwf Hp. unfold wellFormed in Hwf. rewrite forallb_forall in Hwf.
  apply Hwf. apply list_elem_of_In. eapply list_elem_of_lookup_2. exact Hp.
Qed.

(** A heap that grows out of a parsed heap is parsed when each of its nodes
    is a pruned node of the old heap or a record that fits. *)
Lemma parsed_step (h h' : heap) :
  parsed h = true -> List.length h <= List.length h' ->
  (forall i m', h' !! i = Some m' ->
     (exists m, h !! i = Some m /\ prunedNode m m') \/ fits h' m') ->
  parsed h' = true.
Proof.
  intros Hparsed Hlen Hnodes.
  pose proof (parsed_wellFormed h Hparsed) as Hwf.
  assert (Hsettles : forall c, settles h c = true -> settles h' c = true).
  { intros c Hc. destruct (settles_kind h c Hc) as (m & Hm & Hd & Ha).
    assert (Hin : c < List.length h') by (apply lookup_lt_Some in Hm; lia).
    destruct (lookup_lt_is_Some_2 h' c Hin) as [m' Hm'].
    unfold settles. rewrite Hm'.
    destruct (Hnodes c m' Hm') as [(m0 & Hm0 & Hk & _) | (_ & Hd' & Ha')].
    - assert (m0 = m) by congruence. subst m0. rewrite Hk.
      apply fits_settles; assumption.
    - apply fits_settles; assumption. }
  unfold parsed. apply andb_true_iff. split.
  - unfold wellFormed. apply forallb_forall. intros m' Hin.
    apply list_elem_of_In, list_elem_of_lookup_1 in Hin as [i Hi].
    destruct (Hnodes i m' Hi)
      as [(m & Hm & Hk & _ & _ & Ha & Hsub & Heven & _) | (Hfit & _)];
      [| exact Hfit].
    pose proof (wellFormed_lookup h i m Hwf Hm) as Hm_wf.
    destruct (wellFormed_node h i m Hwf Hm) as [Hcontent Hpairs].
    unfold nodeWellFormed. repeat (apply andb_true_iff; split).
    + apply forallb_forall. intros c Hc. apply Nat.ltb_lt.
      rewrite List.Forall_forall in Hcontent.
      assert (c < List.length h); [| lia].
      apply Hcontent. apply list_elem_of_In.
      eapply elem_of_sublist; [| exact Hsub]. apply list_elem_of_In. exact Hc.
    + rewrite Ha. destruct (Alias m) as [t |] eqn:Halias; [| reflexivity].
      apply Nat.ltb_lt. pose proof (wellFormed_alias h i m t Hwf Hm Halias). lia.
    + rewrite Hk. destruct (Kind_eqb (kind m) MappingNode) eqn:Hkind; [| reflexivity].
      cbn [negb orb].
      assert (Hmapping : kind m = MappingNode)
        by (revert Hkind; destruct (kind m); simpl; congruence).
      apply Heven; [exact Hmapping | apply Hpairs; exact Hmapping].
  - apply forallb_forall. intros m' Hin.
    apply list_elem_of_In, list_elem_of_lookup_1 in Hin as [i Hi].
    destruct (Hnodes i m' Hi)
      as [(m & Hm & Hk & _ & _ & Ha & _ & _ & Hdoc) | (_ & Hd & Ha)].
    + pose proof (parsed_node h i m Hparsed Hm) as Hshape.
      unfold nodeParsed in *. rewrite Hk, Ha.
      destruct (kind m) eqn:Hkind; try reflexivity.
      * rewrite (Hdoc eq_refl).
        destruct (Content m) as [| child rest]; [reflexivity |].
        apply Hsettles. exact Hshape.
      * destruct (Alias m) as [t |]; [| discriminate].
        apply Hsettles. exact Hshape.
    + unfold nodeParsed. destruct (kind m'); try reflexivity; congruence.
Qed.

Lemma parsed_pruned (h h' : heap) : pruned h h' -> parsed h = true -> parsed h' = true.
Proof.
  intros [Hlen Hall] Hparsed. apply (parsed_step h h' Hparsed); [lia |].
  intros i m' Hi. left.
  assert (Hin : i < List.length h) by (rewrite <- Hlen; eapply lookup_lt_Some; exact Hi).
  destruct (lookup_lt_is_Some_2 h i Hin) as [m Hm].
  destruct (Hall i m Hm) as (m1 & Hm1 & Hrel).
  assert (m1 = m') by congruence. subst m1. exists m. split; assumption.
Qed.

Lemma parsed_store (h : heap) (q : ptr) (n : Node) :
  parsed h = true -> fits h n -> parsed (<[q := n]> h) = true.
Proof.
  intros Hparsed Hfit. apply (parsed_step h _ Hparsed).
  - rewrite length_insert. lia.
  - intros i m' Hi. destruct (decide (i = q)) as [-> | Hne].
    + right. rewrite list_lookup_insert_eq in Hi
        by (apply lookup_lt_Some in Hi; rewrite length_insert in Hi; exact Hi).
      injection Hi as <-. eapply fits_grow; [| exact Hfit].
      rewrite length_insert. lia.
    + left. rewrite list_lookup_insert_ne in Hi by congruence.
      exists m'. split; [exact Hi | apply prunedNode_refl].
Qed.

Lemma parsed_alloc (h : heap) (n : Node) :
  parsed h = true -> fits h n -> parsed (h ++ [n]) = true.
Proof.
  intros Hparsed Hfit. apply (parsed_step h _ Hparsed).
  - rewrite length_app. lia.
  - intros i m' Hi. destruct (decide (i < List.length h)) as [Hlt | Hge].
    + left. rewrite lookup_app_l in Hi by exact Hlt.
      exists m'. split; [exact Hi | apply prunedNode_refl].
    + right. rewrite lookup_app_r in Hi by lia.
      destruct (i - List.length h) as [| j]; [| destruct j; discriminate].
      injection Hi as <-. eapply fits_grow; [| exact Hfit].
      rewrite length_app. lia.
Qed.

(** ** Computations that are safe on a parsed tree *)

Lemma safely_ret {E A} (P : heap -> Prop) (a : A) (Q : A -> heap -> Prop) :
  (forall h, P h -> Q a h) -> safely P (@ret E A a) Q.
Proof.
  intros HQ h Hparsed HP. exists h, (Ok a).
  repeat split; try assumption; [lia |].
  intros a' Heq. injection Heq as <-. apply HQ. exact HP.
Qed.

Lemma safely_fail {E A} (P : heap -> Prop) (e : E) (Q : A -> heap -> Prop) :
  safely P (@fail E A e) Q.
Proof.
  intros h Hparsed HP. exists h, (Err e).
  repeat split; try assumption; [lia | discriminate].
Qed.

Lemma safely_bind {E A B} (P : heap -> Prop) (m : M E A) (k : A -> M E B)
    (Q : A -> heap -> Prop) (R : B -> heap -> Prop) :
  safely P m Q -> (forall a, safely (Q a) (k a) R) -> safely P (bind m k) R.
Proof.
  intros Hm Hk h Hparsed HP.
  destruct (Hm h Hparsed HP) as (h1 & r & Hrun & Hparsed1 & Hlen1 & HQ).
  unfold bind. rewrite Hrun. destruct r as [a | e].
  - destruct (Hk a h1 Hparsed1 (HQ a eq_refl)) as (h2 & r2 & Hrun2 & Hp2 & Hlen2 & HR).
    exists h2, r2. repeat split; try assumption. lia.
  - exists h1, (Err e). repeat split; try assumption. discriminate.
Qed.

Lemma safely_weaken {E A} (P P' : heap -> Prop) (m : M E A)
    (Q Q' : A -> heap -> Prop) :
  safely P m Q -> (forall h, P' h -> P h) -> (forall a h, Q a h -> Q' a h) ->
  safely P' m Q'.
Proof.
  intros Hm HP HQ h Hparsed HP'.
  destruct (Hm h Hparsed (HP h HP')) as (h1 & r & Hrun & Hp1 & Hlen & Hpost).
  exists h1, r. repeat split; try assumption.
  intros a Ha. apply HQ, Hpost, Ha.
Qed.

(** A loop is safe when its body keeps an invariant of the heap. *)
Lemma safely_forRange {E A S} (I : heap -> Prop) (l : list A)
    (body : S -> A -> M E S) :
  (forall acc x, In x l -> safely I (body acc x) (fun _ => I)) ->
  forall acc, safely I (forRange l body acc) (fun _ => I).
Proof.
  induction l as [| x rest IH]; intros Hbody acc; simpl.
  - apply safely_ret. auto.
  - eapply safely_bind; [apply Hbody; left; reflexivity |].
    intro acc'. apply IH. intros acc0 y Hy. apply Hbody. right. exact Hy.
Qed.

Lemma safely_load {E} (P : heap -> Prop) (q : ptr) :
  (forall h, P h -> q < List.length h) ->
  safely P (@load E q) (fun n h => P h /\ h !! q = Some n).
Proof.
  intros Hq h Hparsed HP.
  destruct (lookup_lt_is_Some_2 h q (Hq h HP)) as [n Hn].
  exists h, (Ok n). split; [apply run_load; exact Hn |].
  split; [exact Hparsed |]. split; [lia |].
  intros a Heq. injection Heq as <-. split; assumption.
Qed.

Lemma safely_store {E} (P : heap -> Prop) (Q : heap -> Prop) (q : ptr) (n : Node) :
  (forall h, parsed h = true -> P h -> q < List.length h /\ fits h n) ->
  (forall h, P h -> Q (<[q := n]> h)) ->
  safely P (@store E q n) (fun _ => Q).
Proof.
  intros Hpre Hpost h Hparsed HP. destruct (Hpre h Hparsed HP) as [Hq Hfit].
  exists (<[q := n]> h), (Ok tt). split; [| split; [| split]].
  - unfold store. destruct (decide (q < List.length h)); [reflexivity | lia].
  - apply parsed_store; assumption.
  - rewrite length_insert. lia.
  - intros _ _. apply Hpost. exact HP.
Qed.

Lemma safely_alloc {E} (P : heap -> Prop) (n : Node) :
  growing P -> (forall h, P h -> fits h n) ->
  safely P (@alloc E n) (fun q h => P h /\ q < List.length h).
Proof.
  intros Hgrowing Hfit h Hparsed HP. exists (h ++ [n]), (Ok (List.length h)).
  split; [reflexivity |]. split; [| split].
  - apply parsed_alloc; [exact Hparsed | apply Hfit; exact HP].
  - rewrite length_app. lia.
  - intros a Heq. injection Heq as <-. split.
    + apply (Hgrowing h); [rewrite length_app; lia | exact HP].
    + rewrite length_app. simpl. lia.
Qed.

Lemma growing_valid (nodes : list ptr) :
  growing (fun h => Forall (fun q => q < List.length h) nodes).
Proof.
  intros h h' Hlen Hall. eapply Forall_impl; [exact Hall |].
  intros q Hq. simpl in *. lia.
Qed.

Lemma growing_and (P Q : heap -> Prop) :
  growing P -> growing Q -> growing (fun h => P h /\ Q h).
Proof. intros HP HQ h h' Hlen [Hp Hq]. split; [eapply HP | eapply HQ]; eassumption. Qed.

Lemma growing_fits (n : Node) : growing (fun h => fits h n).
Proof. intros h h' Hlen Hfit. eapply fits_grow; eassumption. Qed.

Lemma fits_scalarNode (h : heap) (tag value : string) :
  fits h (scalarNode tag value).
Proof. repeat split; discriminate. Qed.

Section SafeEncode.

Context {E : Type}.

(** The [Content] an encoded mapping or sequence is given: nodes of the
    heap, [width] of them for each entry. *)
Lemma safely_encodeContent {A} (encodeEntry : A -> M E (list ptr)) (width : nat)
    (entries : list A) :
  (forall P entry, growing P -> In entry entries ->
     safely P (encodeEntry entry)
       (fun nodes h =>
          P h /\ Forall (fun q => q < List.length h) nodes
          /\ List.length nodes = width)) ->
  forall P, growing P ->
    safely P (encodeContent encodeEntry entries)
      (fun content h =>
         P h /\ Forall (fun q => q < List.length h) content
         /\ List.length content = width * List.length entries).
Proof.
  induction entries as [| entry rest IH]; intros Hentry P HP; cbn [encodeContent].
  - apply safely_ret. intros h Hh. repeat split; [exact Hh | constructor | simpl; lia].
  - eapply safely_bind; [apply Hentry; [exact HP | left; reflexivity] |].
    intros nodes. cbv beta.
    eapply safely_bind.
    + apply (IH (fun P0 e HP0 Hin => Hentry P0 e HP0 (or_intror Hin))
               (fun h => P h /\ Forall (fun q => q < List.length h) nodes
                         /\ List.length nodes = width)).
      intros h h' Hlen (Hp & Hnodes & Hwidth). split; [| split].
      * eapply HP; eassumption.
      * eapply growing_valid; eassumption.
      * exact Hwidth.
    + intros more. cbv beta. apply safely_ret.
      intros h ((Hp & Hnodes & Hwidth) & Hmore & Hlength). split; [| split].
      * exact Hp.
      * apply Forall_app. split; assumption.
      * rewrite length_app, Hwidth, Hlength. cbn [List.length]. lia.
Qed.

Lemma safely_Encode (v : RuleValue) : forall P, growing P ->
  safely P (@Encode E v) (fun n h => P h /\ fits h n).
Proof.
  induction v as [| b | n | text | s | members IH | elems IH]
    using RuleValue_nested_ind; intros P HP; cbn [Encode];
    try (apply safely_ret; intros h Hh; split;
         [exact Hh | apply fits_scalarNode]).
  - eapply safely_bind.
    + apply (safely_encodeContent _ 2 members); [| exact HP].
      intros P0 [key value] HP0 Hin. cbn [fst snd].
      rewrite List.Forall_forall in IH. specialize (IH (key, value) Hin).
      cbn [snd] in IH.
      eapply safely_bind;
        [apply safely_alloc; [exact HP0 | intros; apply fits_scalarNode] |].
      intros keyNode. cbv beta.
      eapply safely_bind.
      * apply (IH (fun h => P0 h /\ keyNode < List.length h)).
        intros h h' Hlen [Hp Hk]. split; [eapply HP0; eassumption | lia].
      * intros encoded. cbv beta.
        eapply safely_bind.
        -- apply (safely_alloc
                    (fun h => (P0 h /\ keyNode < List.length h) /\ fits h encoded)).
           ++ apply growing_and; [| apply growing_fits].
              intros h h' Hlen [Hp Hk]. split; [eapply HP0; eassumption | lia].
           ++ intros h [_ Hfit]. exact Hfit.
        -- intros valueNode. cbv beta. apply safely_ret.
           intros h ([[Hp Hk] _] & Hv). repeat split; try assumption.
           repeat constructor; assumption.
    + intros content. cbv beta. apply safely_ret.
      intros h (Hp & Hcontent & Hlength). split; [exact Hp |].
      repeat split; try discriminate.
      unfold nodeWellFormed. cbn [Content Alias kind].
      repeat (apply andb_true_iff; split); [| reflexivity |].
      * apply forallb_forall. intros q Hq. apply Nat.ltb_lt.
        rewrite List.Forall_forall in Hcontent. apply Hcontent. exact Hq.
      * cbn [Kind_eqb negb orb]. rewrite Hlength.
        rewrite Nat.even_mul. reflexivity.
  - eapply safely_bind.
    + apply (safely_encodeContent _ 1 elems); [| exact HP].
      intros P0 elem HP0 Hin.
      rewrite List.Forall_forall in IH. specialize (IH elem Hin).
      eapply safely_bind; [apply (IH P0 HP0) |].
      intros encoded. cbv beta.
      eapply safely_bind.
      * apply (safely_alloc (fun h => P0 h /\ fits h encoded)).
        -- apply growing_and; [exact HP0 | apply growing_fits].
        -- intros h [_ Hfit]. exact Hfit.
      * intros elemNode. cbv beta. apply safely_ret.
        intros h ([Hp _] & Hv). repeat split; try assumption.
        repeat constructor; assumption.
    + intros content. cbv beta. apply safely_ret.
      intros h (Hp & Hcontent & Hlength). split; [exact Hp |].
      repeat split; try discriminate.
      unfold nodeWellFormed. cbn [Content Alias kind].
      repeat (apply andb_true_iff; split); try reflexivity.
      apply forallb_forall. intros q Hq. apply Nat.ltb_lt.
      rewrite List.Forall_forall in Hcontent. apply Hcontent. exact Hq.
Qed.

End SafeEncode.

(** ** The actions on a parsed tree *)

Lemma growing_insert (P : heap -> Prop) (h : heap) (q : ptr) (n : Node) :
  growing P -> P h -> P (<[q := n]> h).
Proof. intros HP Hh. apply (HP h); [rewrite length_insert; lia | exact Hh]. Qed.

Lemma fits_setScalar (h : heap) (q : ptr) (n : Node) (tag value : string) :
  parsed h = true -> h !! q = Some n -> fits h (setScalar n tag value).
Proof.
  intros Hparsed Hq.
  pose proof (wellFormed_lookup h q n (parsed_wellFormed h Hparsed) Hq) as Hwf.
  repeat split; try discriminate.
  unfold nodeWellFormed in *. cbn [setScalar Content Alias kind Kind_eqb negb orb].
  apply andb_true_iff in Hwf as [Hwf _]. rewrite Hwf. reflexivity.
Qed.

Lemma fits_setValue (h : heap) (q : ptr) (n : Node) (value : string) :
  parsed h = true -> h !! q = Some n -> Kind_eqb (kind n) ScalarNode = true ->
  fits h (setValue n value).
Proof.
  intros Hparsed Hq Hkind.
  pose proof (wellFormed_lookup h q n (parsed_wellFormed h Hparsed) Hq) as Hwf.
  assert (Hscalar : kind n = ScalarNode)
    by (revert Hkind; destruct (kind n); simpl; congruence).
  repeat split; cbn [setValue kind]; try congruence. exact Hwf.
Qed.

Section SafeActions.

Variable nodes : list ptr.

Local Abbreviation resolved := (fun h : heap => Forall (fun q => q < List.length h) nodes).

Lemma resolved_In (h : heap) (q : ptr) : resolved h -> In q nodes -> q < List.length h.
Proof. intros Hall Hin. rewrite List.Forall_forall in Hall. apply Hall. exact Hin. Qed.

Lemma safely_replace_tail (v : RuleValue) :
  safely resolved
    (do newNode <- @Encode EngineError v ;;
     forRange nodes (fun _ node => store node newNode) tt)
    (fun _ _ => True).
Proof.
  eapply safely_bind; [apply safely_Encode, growing_valid |].
  intro newNode. cbv beta.
  eapply safely_weaken;
    [apply (safely_forRange (fun h => resolved h /\ fits h newNode)) | auto | auto].
  intros acc node Hin. apply safely_store.
  - intros h _ [Hall Hfit]. split; [eapply resolved_In; eassumption | exact Hfit].
  - intros h Hh. apply growing_insert; [| exact Hh].
    apply growing_and; [apply growing_valid | apply growing_fits].
Qed.

Lemma safely_setScalar (node : ptr) (tag value : string) :
  In node nodes ->
  safely resolved
    (do n <- @load EngineError node ;; store node (setScalar n tag value))
    (fun _ => resolved).
Proof.
  intro Hin. eapply safely_bind.
  - apply safely_load. intros h Hall. eapply resolved_In; eassumption.
  - intro n. cbv beta. apply safely_store.
    + intros h Hparsed [Hall Hn]. split; [eapply resolved_In; eassumption |].
      eapply fits_setScalar; eassumption.
    + intros h [Hall _]. apply growing_insert; [apply growing_valid | exact Hall].
Qed.

Lemma safely_set_tail (rule : Rule) :
  safely resolved
    (forRange nodes
       (fun _ node =>
          match RuleVal rule with
          | VString s =>
              do n <- @load EngineError node ;; store node (setScalar n "!!str" s)
          | VInt i =>
              do n <- load node ;;
              store node (setScalar n "!!int" (GoStrings.SprintInt i))
          | VBool b =>
              do n <- load node ;;
              store node (setScalar n "!!bool" (GoStrings.SprintBool b))
          | other =>
              do newNode <- Encode other ;; store node newNode
          end) tt)
    (fun _ _ => True).
Proof.
  eapply safely_weaken; [apply (safely_forRange resolved) | auto | auto].
  intros acc node Hin.
  assert (Hencode : forall other,
    safely resolved
      (do newNode <- @Encode EngineError other ;; store node newNode)
      (fun _ => resolved)).
  { intro other. eapply safely_bind; [apply safely_Encode, growing_valid |].
    intro newNode. cbv beta. apply safely_store.
    - intros h _ [Hall Hfit]. split; [eapply resolved_In; eassumption | exact Hfit].
    - intros h [Hall _]. apply growing_insert; [apply growing_valid | exact Hall]. }
  destruct (RuleVal rule); try apply Hencode; apply safely_setScalar; exact Hin.
Qed.

Lemma safely_regexReplace_tail (rewrite_ : string -> string) :
  safely resolved
    (forRange nodes
       (fun _ node =>
          do n <- @load EngineError node ;;
          if negb (Kind_eqb (kind n) ScalarNode) then ret tt
          else store node (setValue n (rewrite_ (Value n)))) tt)
    (fun _ _ => True).
Proof.
  eapply safely_weaken; [apply (safely_forRange resolved) | auto | auto].
  intros acc node Hin. eapply safely_bind.
  - apply safely_load. intros h Hall. eapply resolved_In; eassumption.
  - intro n. cbv beta.
    destruct (Kind_eqb (kind n) ScalarNode) eqn:Hkind; cbn [negb].
    + apply safely_store.
      * intros h Hparsed [Hall Hn]. split; [eapply resolved_In; eassumption |].
        eapply fits_setValue; eassumption.
      * intros h [Hall _]. apply growing_insert; [apply growing_valid | exact Hall].
    + apply safely_ret. intros h [Hall _]. exact Hall.
Qed.

End SafeActions.

Section KeepsParsed.

Variable regexp2_Compile : string -> bool.
Variable regexp_MatchString : string -> string -> option bool.
Variable regexp_Compile : string -> bool.
Variable regexp_ReplaceAllString : string -> string -> string -> string.

(** An action up to its resolved nodes, then a part that is safe on them. *)
Lemma lookup_then_safe (fuel : nat) (root : ptr) (pathStr : string)
    (onNodes : list ptr -> M EngineError unit) (h : heap) :
  parsed h = true -> root < List.length h ->
  (forall nodes,
     safely (fun h0 => Forall (fun q => q < List.length h0) nodes)
       (onNodes nodes) (fun _ _ => True)) ->
  let run :=
    match Parse regexp2_Compile pathStr with
    | Err e => fail (ErrParsePath e)
    | Ok p =>
        do found <- attempt (Find regexp_MatchString fuel root p) ;;
        match found with
        | Err e => fail (ErrFindNodes e)
        | Ok nodes => onNodes nodes
        end
    end h in
  parsed (fst run) = true /\ List.length h <= List.length (fst run) /\
  ((forall p, Parse regexp2_Compile pathStr = Ok p ->
              2 * List.length (Segments p) <= fuel) ->
   exists r, snd run = Return r).
Proof.
  intros Hparsed Hroot Hsafe run. unfold run. clear run.
  destruct (Parse regexp2_Compile pathStr) as [p | e] eqn:Hparse.
  2:{ cbn. split; [exact Hparsed | split; [lia | eauto]]. }
  unfold bind, attempt.
  rewrite (readonly_run (Find regexp_MatchString fuel root p) h)
    by apply readonly_Find.
  destruct (snd (Find regexp_MatchString fuel root p h))
    as [[nodes | e] | |] eqn:Hfind.
  - assert (Hvalid : Forall (fun q => q < List.length h) nodes).
    { eapply findRecursive_valid;
        [apply parsed_wellFormed; exact Hparsed | exact Hroot | exact Hfind]. }
    destruct (Hsafe nodes h Hparsed Hvalid) as (h' & r & Hrun & Hparsed' & Hlen & _).
    rewrite Hrun. cbn. split; [exact Hparsed' | split; [exact Hlen | eauto]].
  - cbn. split; [exact Hparsed | split; [lia | eauto]].
  - cbn. split; [exact Hparsed | split; [lia |]].
    intro Hfuel.
    destruct (returns_findRecursive regexp_MatchString h Hparsed (Segments p) fuel
                root 0 Hroot) as (r & Hr & _).
    { left. specialize (Hfuel p eq_refl). lia. }
    unfold Find in Hfind. rewrite Hr in Hfind. discriminate.
  - cbn. split; [exact Hparsed | split; [lia |]].
    intro Hfuel.
    destruct (returns_findRecursive regexp_MatchString h Hparsed (Segments p) fuel
                root 0 Hroot) as (r & Hr & _).
    { left. specialize (Hfuel p eq_refl). lia. }
    unfold Find in Hfind. rewrite Hr in Hfind. discriminate.
Qed.

End KeepsParsed.

(** X21.  Every action keeps the tree in the shape the lookups rely on.
    Applied to a tree as yaml.v3 parses it (pointers inside the tree,
    mappings in pairs, document content and alias targets neither document
    nor alias), [Apply] leaves such a tree again, whatever the rule and
    whatever the outcome, and never a smaller heap; and replace, set and
    regex_replace return, with success or an error, once the recursion
    budget allows two levels for each segment of the address: they do not
    panic. *)
Theorem Apply_keeps_tree_parsed
    (regexp2_Compile : string -> bool)
    (regexp_MatchString : string -> string -> option bool)
    (regexp_Compile : string -> bool)
    (regexp_ReplaceAllString : string -> string -> string -> string)
    (fuel : nat) (root : ptr) (rule : Rule) (h : heap) :
  parsed h = true -> root < List.length h ->
  let run := Apply regexp2_Compile regexp_MatchString regexp_Compile
               regexp_ReplaceAllString fuel root rule h in
  parsed (fst run) = true /\ List.length h <= List.length (fst run) /\
  (Action rule <> ActionDelete ->
   (forall p, Parse regexp2_Compile (RulePath rule) = Ok p ->
              2 * List.length (Segments p) <= fuel) ->
   exists r, snd run = Return r).
Proof.
  intros Hparsed Hroot run. unfold run, Apply. clear run.
  destruct (String.eqb (Action rule) ActionReplace) eqn:Hreplace.
  { destruct (lookup_then_safe regexp2_Compile regexp_MatchString fuel root
                (RulePath rule)
                (fun nodes =>
                   if List.length nodes =? 0 then fail ErrNoNodesFound
                   else do newNode <- Encode (RuleVal rule) ;;
                        forRange nodes (fun _ node => store node newNode) tt)
                h Hparsed Hroot) as (Hp & Hlen & Hret).
    - intro nodes. destruct (List.length nodes =? 0);
        [apply safely_fail | apply safely_replace_tail].
    - split; [exact Hp | split; [exact Hlen | intros _; exact Hret]]. }
  destruct (String.eqb (Action rule) ActionSet) eqn:Hset.
  { destruct (lookup_then_safe regexp2_Compile regexp_MatchString fuel root
                (RulePath rule)
                (fun nodes =>
                   if List.length nodes =? 0 then fail ErrNoNodesFound
                   else
                     forRange nodes
                       (fun _ node =>
                          match RuleVal rule with
                          | VString v =>
                              do n <- load node ;; store node (setScalar n "!!str" v)
                          | VInt v =>
                              do n <- load node ;;
                              store node (setScalar n "!!int" (GoStrings.SprintInt v))
                          | VBool v =>
                              do n <- load node ;;
                              store node
                                (setScalar n "!!bool" (GoStrings.SprintBool v))
                          | v => do newNode <- Encode v ;; store node newNode
                          end) tt)
                h Hparsed Hroot) as (Hp & Hlen & Hret).
    - intro nodes. destruct (List.length nodes =? 0);
        [apply safely_fail | apply safely_set_tail].
    - split; [exact Hp | split; [exact Hlen | intros _; exact Hret]]. }
  destruct (String.eqb (Action rule) ActionDelete) eqn:Hdelete.
  { apply String.eqb_eq in Hdelete.
    assert (Hpruned : pruned h
              (fst (delete regexp2_Compile regexp_MatchString fuel root rule h))).
    { unfold delete.
      destruct (Parse regexp2_Compile (RulePath rule)); [| apply pruned_refl].
      apply prunes_bind.
      - apply prunes_readonly, readonly_attempt, readonly_FindWithWhere.
      - intros [nodes | e]; [| intro; apply pruned_refl].
        destruct (List.length nodes =? 0); [intro; apply pruned_refl |].
        apply prunes_forRange. intros acc node.
        apply prunes_deleteNodeRecursive. }
    split; [eapply parsed_pruned; eassumption |].
    split; [destruct Hpruned as [Hlen _]; lia | congruence]. }
  destruct (String.eqb (Action rule) ActionRegexReplace) eqn:Hregex.
  { destruct (lookup_then_safe regexp2_Compile regexp_MatchString fuel root
                (RulePath rule)
                (fun nodes =>
                   if List.length nodes =? 0 then fail ErrNoNodesFound
                   else if String.eqb (Pattern rule) "" then fail ErrPatternRequired
                   else if negb (regexp_Compile (Pattern rule)) then fail ErrCompileRegex
                   else
                     match RuleVal rule with
                     | VString replacement =>
                         forRange nodes
                           (fun _ node =>
                              do n <- load node ;;
                              if negb (Kind_eqb (kind n) ScalarNode) then ret tt
                              else
                                store node
                                  (setValue n
                                     (regexp_ReplaceAllString (Pattern rule)
                                        (Value n) replacement))) tt
                     | _ => fail ErrReplacementMustBeString
                     end)
                h Hparsed Hroot) as (Hp & Hlen & Hret).
    - intro nodes. destruct (List.length nodes =? 0); [apply safely_fail |].
      destruct (String.eqb (Pattern rule) ""); [apply safely_fail |].
      destruct (negb (regexp_Compile (Pattern rule))); [apply safely_fail |].
      destruct (RuleVal rule) as [| | | | replacement | |]; try apply safely_fail.
      apply (safely_regexReplace_tail nodes
               (fun text => regexp_ReplaceAllString (Pattern rule) text replacement)).
    - split; [exact Hp | split; [exact Hlen | intros _; exact Hret]]. }
  cbn. split; [exact Hparsed | split; [lia | eauto]].
Qed.

(** An instance on scenario A: the containers replaced by a mapping. *)
Lemma Apply_keeps_parsed_witness :
  parsed (fst (Apply Sample.regexp2_Compile Sample.regexp_MatchString
                 Sample.regexp_Compile Sample.regexp_ReplaceAllString 8 0
                 (mkRule ActionReplace "spec.containers[*]"
                    (VMap [("name", VString "app"); ("ports", VSlice [VInt 80])])
                    "" None) scenarioA)) = true.
Proof.
  refine (proj1 (Apply_keeps_tree_parsed Sample.regexp2_Compile
                   Sample.regexp_MatchString Sample.regexp_Compile
                   Sample.regexp_ReplaceAllString 8 0
                   (mkRule ActionReplace "spec.containers[*]"
                      (VMap [("name", VString "app"); ("ports", VSlice [VInt 80])])
                      "" None) scenarioA eq_refl _)).
  simpl. lia.
Defined.

(** * The processor: a directory of files *)

Section DirectoryRun.

Variable filepath_Rel : string -> string -> option string.
Variable filepath_Join : string -> string -> string.
Variable copyFile : string -> string -> bool.
Variable ProcessFile : string -> string -> bool -> bool.
Variables (inputDir outputDir : string) (dryRun backup : bool).
Variable entries : list WalkEntry.

Local Abbreviation balanced := (booksBalance entries outputDir dryRun backup).
Local Abbreviation callback :=
  (walkFunc filepath_Rel filepath_Join copyFile ProcessFile
     inputDir outputDir dryRun backup).

Lemma In_snoc {A} (x y : A) (l : list A) : In x (l ++ [y]) -> In x l \/ x = y.
Proof.
  intro Hin. apply in_app_or in Hin as [Hin | [Heq | []]]; [left | right]; auto.
Qed.

Lemma balanced_failure result log path (e : FileError) :
  balanced result log -> isYamlFile entries path ->
  balanced
    (mkProcessResult (TotalFiles result + 1)%Z (SuccessFiles result)
       (FailedFiles result ++ [mkFailedFile path e])) log.
Proof.
  intros (Hcount & Hcopy & Hprocess & Hfailed) Hfile.
  split; [| split; [exact Hcopy | split; [exact Hprocess |]]].
  - cbn [TotalFiles SuccessFiles FailedFiles]. rewrite length_app, Hcount.
    cbn [List.length]. lia.
  - cbn [FailedFiles]. intros failed Hin.
    apply In_snoc in Hin as [Hin | ->]; [apply Hfailed; exact Hin | exact Hfile].
Qed.

Lemma balanced_log result log op :
  balanced result log ->
  (forall src dst, op = OpCopyFile src dst ->
     backup = true /\ dryRun = false /\ outputDir = EmptyString
     /\ dst = (src ++ ".bak")%string /\ isYamlFile entries src) ->
  (forall inputPath outputPath flag, op = OpProcessFile inputPath outputPath flag ->
     flag = dryRun /\ (outputDir = EmptyString -> outputPath = inputPath)
     /\ isYamlFile entries inputPath) ->
  balanced result (log ++ [op]).
Proof.
  intros (Hcount & Hcopy & Hprocess & Hfailed) Hop_copy Hop_process.
  split; [exact Hcount | split; [| split; [| exact Hfailed]]].
  - intros src dst Hin. apply In_snoc in Hin as [Hin | Heq];
      [apply Hcopy; exact Hin | apply Hop_copy; symmetry; exact Heq].
  - intros i o f Hin. apply In_snoc in Hin as [Hin | Heq];
      [apply Hprocess; exact Hin | apply Hop_process; symmetry; exact Heq].
Qed.

Lemma balanced_success result log :
  balanced result log ->
  balanced
    (mkProcessResult (TotalFiles result + 1)%Z (SuccessFiles result + 1)%Z
       (FailedFiles result)) log.
Proof.
  intros (Hcount & Hcopy & Hprocess & Hfailed).
  split; [| split; [exact Hcopy | split; [exact Hprocess | exact Hfailed]]].
  cbn [TotalFiles SuccessFiles FailedFiles]. lia.
Qed.

Lemma walkFunc_balanced result log entry result' log' :
  In entry entries -> balanced result log ->
  callback result log entry = Some (result', log') ->
  balanced result' log'.
Proof.
  intros Hin Hbalanced. unfold walkFunc.
  destruct (EntryErr entry); [discriminate |].
  destruct (EntryIsDir entry) eqn:Hdir; cbn [orb].
  { intro Heq. injection Heq as <- <-. exact Hbalanced. }
  destruct (negb (hasSuffix (EntryPath entry) ".yaml")
            && negb (hasSuffix (EntryPath entry) ".yml")) eqn:Hsuffix.
  { intro Heq. injection Heq as <- <-. exact Hbalanced. }
  assert (Hfile : isYamlFile entries (EntryPath entry)).
  { exists entry. repeat split; try assumption.
    destruct (hasSuffix (EntryPath entry) ".yaml");
      destruct (hasSuffix (EntryPath entry) ".yml"); try reflexivity.
    discriminate. }
  cbn [TotalFiles SuccessFiles FailedFiles].
  destruct (filepath_Rel inputDir (EntryPath entry)) as [relPath |].
  2:{ intro Heq. injection Heq as <- <-. apply balanced_failure; assumption. }
  cbv zeta.
  destruct (backup && negb dryRun && String.eqb outputDir "") eqn:Hbackup.
  - apply andb_true_iff in Hbackup as [Hbackup Hplace].
    apply andb_true_iff in Hbackup as [Hflag Hdry].
    apply negb_true_iff in Hdry. apply String.eqb_eq in Hplace.
    assert (Hcopied : balanced result
              (log ++ [OpCopyFile (EntryPath entry) (EntryPath entry ++ ".bak")])).
    { apply balanced_log; [exact Hbalanced | | discriminate].
      intros src dst Heq. injection Heq as <- <-. repeat split; assumption. }
    cbn [andb].
    destruct (copyFile (EntryPath entry) (EntryPath entry ++ ".bak")); cbn [negb].
    2:{ intro Heq. injection Heq as <- <-. apply balanced_failure; assumption. }
    assert (Hprocessed : balanced result
              ((log ++ [OpCopyFile (EntryPath entry) (EntryPath entry ++ ".bak")])
               ++ [OpProcessFile (EntryPath entry)
                     (if negb (String.eqb outputDir "")
                      then filepath_Join outputDir relPath
                      else EntryPath entry) dryRun])).
    { apply balanced_log; [exact Hcopied | discriminate |].
      intros i o f Heq. injection Heq as <- <- <-. repeat split; try assumption.
      intros ->. reflexivity. }
    destruct (ProcessFile _ _ _); cbn [negb]; intro Heq; injection Heq as <- <-.
    + apply balanced_success. exact Hprocessed.
    + apply balanced_failure; assumption.
  - cbn [andb].
    assert (Hprocessed : balanced result
              (log ++ [OpProcessFile (EntryPath entry)
                         (if negb (String.eqb outputDir "")
                          then filepath_Join outputDir relPath
                          else EntryPath entry) dryRun])).
    { apply balanced_log; [exact Hbalanced | discriminate |].
      intros i o f Heq. injection Heq as <- <- <-. repeat split; try assumption.
      intros ->. reflexivity. }
    destruct (ProcessFile _ _ _); cbn [negb]; intro Heq; injection Heq as <- <-.
    + apply balanced_success. exact Hprocessed.
    + apply balanced_failure; assumption.
Qed.

Lemma walk_balanced (rest : list WalkEntry) : forall result log,
  incl rest entries -> balanced result log ->
  let '(result', log', _) :=
    walk filepath_Rel filepath_Join copyFile ProcessFile
      inputDir outputDir dryRun backup rest result log in
  balanced result' log'.
Proof.
  induction rest as [| entry rest IH]; intros result log Hincl Hbalanced;
    cbn [walk]; [exact Hbalanced |].
  destruct (callback result log entry) as [[result' log'] |] eqn:Hstep;
    [| exact Hbalanced].
  apply IH.
  - intros e He. apply Hincl. right. exact He.
  - eapply walkFunc_balanced; [apply Hincl; left; reflexivity | exact Hbalanced | exact Hstep].
Qed.

End DirectoryRun.

(** X22.  The books of [ProcessDirectory] balance, also when the walk ends
    in an error: the number of files counted is the number of successes
    plus the number of failures listed; a backup is written only for a file
    processed in place and outside a dry run, under the file's name with
    ".bak"; only files of the walk that are no directories and end in
    ".yaml" or ".yml" are processed, backed up or listed as failed; every
    file is processed with the dry-run flag of the run and, without an
    output directory, onto itself. *)
Theorem ProcessDirectory_books_balance
    (filepath_Rel : string -> string -> option string)
    (filepath_Join : string -> string -> string)
    (copyFile : string -> string -> bool)
    (ProcessFile : string -> string -> bool -> bool)
    (inputDir outputDir : string) (dryRun backup : bool)
    (entries : list WalkEntry) :
  let run := ProcessDirectory filepath_Rel filepath_Join copyFile ProcessFile
               inputDir outputDir dryRun backup entries in
  booksBalance entries outputDir dryRun backup (fst (fst run)) (snd (fst run)).
Proof.
  intro run. unfold run, ProcessDirectory.
  pose proof (walk_balanced filepath_Rel filepath_Join copyFile ProcessFile
                inputDir outputDir dryRun backup entries entries
                (mkProcessResult 0 0 []) [] (fun e He => He)) as Hwalk.
  destruct (walk _ _ _ _ _ _ _ _ entries _ _) as [[result log] failed].
  apply Hwalk. repeat split; try (intros; contradiction). 
Qed.

(** * What delete leaves of a tree without cycles *)

Lemma filter_idem {A} (f : A -> bool) (l : list A) :
  List.filter f (List.filter f l) = List.filter f l.
Proof.
  induction l as [| x l IH]; [reflexivity |]. cbn [List.filter].
  destruct (f x) eqn:Hx; [| exact IH].
  cbn [List.filter]. rewrite Hx, IH. reflexivity.
Qed.

Lemma dropPairs_idem (target : ptr) (content : list ptr) :
  dropPairs target (dropPairs target content) = dropPairs target content.
Proof.
  induction content as [| k | k v rest IH] using list_pair_ind;
    try reflexivity.
  cbn [dropPairs]. destruct (v =? target) eqn:Hv; [exact IH |].
  cbn [dropPairs]. rewrite Hv, IH. reflexivity.
Qed.

Lemma values_dropPairs (target : ptr) (content : list ptr) :
  values (dropPairs target content)
  = List.filter (fun child => negb (child =? target)) (values content).
Proof.
  induction content as [| k | k v rest IH] using list_pair_ind;
    try reflexivity.
  cbn [dropPairs values List.filter].
  destruct (v =? target); cbn [negb values]; rewrite IH; reflexivity.
Qed.

Lemma values_In (content : list ptr) (v : ptr) :
  In v (values content) -> In v content.
Proof.
  induction content as [| k | k w rest IH] using list_pair_ind;
    cbn [values]; try contradiction.
  intros [-> | Hin]; [right; left; reflexivity | right; right; apply IH; exact Hin].
Qed.

Lemma kids_In (target : ptr) (n : Node) (child : ptr) :
  In child (kids target n) -> In child (Content n) /\ (kind n = DocumentNode \/ child <> target).
Proof.
  unfold kids. destruct (kind n); try contradiction.
  - intro Hin. split; [exact Hin | left; reflexivity].
  - intro Hin. apply filter_In in Hin as [Hin Hne]. split; [exact Hin |].
    right. apply negb_true_iff, Nat.eqb_neq in Hne. exact Hne.
  - intro Hin. apply filter_In in Hin as [Hin Hne].
    split; [apply values_In; exact Hin |].
    right. apply negb_true_iff, Nat.eqb_neq in Hne. exact Hne.
Qed.

Lemma withoutTarget_kind (target : ptr) (n : Node) :
  kind (withoutTarget target n) = kind n.
Proof. unfold withoutTarget. destruct (kind n) eqn:Hkind; cbn; congruence. Qed.

Lemma withoutTarget_idem (target : ptr) (n : Node) :
  withoutTarget target (withoutTarget target n) = withoutTarget target n.
Proof.
  unfold withoutTarget at 1. rewrite withoutTarget_kind.
  unfold withoutTarget. destruct (kind n) eqn:Hkind; try reflexivity;
    cbn [setContent Content kind Tag Value Alias].
  - rewrite filter_idem. reflexivity.
  - rewrite dropPairs_idem. reflexivity.
Qed.

Lemma kids_withoutTarget (target : ptr) (n : Node) :
  kids target (withoutTarget target n) = kids target n.
Proof.
  unfold kids. rewrite withoutTarget_kind.
  unfold withoutTarget. destruct (kind n) eqn:Hkind; try reflexivity;
    cbn [setContent Content].
  - apply filter_idem.
  - rewrite values_dropPairs. apply filter_idem.
Qed.

(** The record of a node delete may already have got to. *)
Lemma current_record (target : ptr) (n0 nc : Node) :
  nc = n0 \/ nc = withoutTarget target n0 ->
  kind nc = kind n0 /\
  kids target nc = kids target n0 /\
  withoutTarget target nc = withoutTarget target n0 /\
  (forall c, setContent nc c = setContent n0 c) /\
  (forall child, In child (Content nc) -> In child (Content n0)).
Proof.
  intros [-> | ->]; [repeat split; auto |].
  split; [apply withoutTarget_kind |].
  split; [apply kids_withoutTarget |].
  split; [apply withoutTarget_idem |].
  split.
  - intro c. unfold withoutTarget. destruct (kind n0); reflexivity.
  - intros child. unfold withoutTarget.
    destruct (kind n0); cbn [setContent Content]; try tauto.
    + intro Hin. apply filter_In in Hin as [Hin _]. exact Hin.
    + intro Hin.
      assert (Hsub : forall c (l : list ptr), In c (dropPairs target l) -> In c l).
      { intros c l. induction l as [| k | k v rest IH] using list_pair_ind;
          cbn [dropPairs]; try contradiction.
        destruct (v =? target).
        - intro H. right. right. apply IH. exact H.
        - intros [-> | [-> | H]]; [left | right; left | right; right; apply IH];
            auto. }
      apply Hsub. exact Hin.
Qed.

Section Sweeping.

Variables (h0 : heap) (target : ptr) (measure : ptr -> nat).
Hypothesis Hmeasured : measured h0 measure.

Local Abbreviation partly := (partlyDeleted h0 target).
Local Abbreviation sweep := (swept h0 target).

Lemma partly_lookup (h : heap) (q : ptr) (n0 : Node) :
  partly h -> h0 !! q = Some n0 ->
  exists nc, h !! q = Some nc /\ (nc = n0 \/ nc = withoutTarget target n0).
Proof.
  intros [_ Hall] Hq. destruct (Hall q n0 Hq) as [H | H]; eauto.
Qed.

(** Going down never raises the measure: there is no way back up. *)
Lemma visits_measure (c q : ptr) :
  visits h0 target c q -> measure q <= measure c.
Proof.
  induction 1 as [node | node n child q Hnode Hchild _ IH]; [lia |].
  apply kids_In in Hchild as [Hchild _].
  destruct (Hmeasured node n Hnode) as [_ Hdown].
  specialize (Hdown child Hchild). lia.
Qed.

Lemma sweep_nil (h : heap) : partly h -> sweep [] h h.
Proof.
  intro Hpartly. split; [exact Hpartly | split].
  - intros q n0 _ (c & [] & _).
  - intro q. left. reflexivity.
Qed.

Lemma sweep_app (from1 from2 : list ptr) (h h1 h2 : heap) :
  sweep from1 h h1 -> sweep from2 h1 h2 -> sweep (from1 ++ from2) h h2.
Proof.
  intros (_ & Hdone1 & Hframe1) (Hpartly2 & Hdone2 & Hframe2).
  split; [exact Hpartly2 | split].
  - intros q n0 Hq (c & Hin & Hvisit). apply in_app_or in Hin as [Hin | Hin].
    + destruct (Hframe2 q) as [Hsame | (_ & n0' & Hq' & Hpruned)].
      * rewrite Hsame. apply (Hdone1 q n0 Hq). eauto.
      * congruence.
    + apply (Hdone2 q n0 Hq). eauto.
  - intro q. destruct (Hframe2 q) as [Hsame | ((c & Hin & Hvisit) & Hpruned)].
    + destruct (Hframe1 q) as [Hsame1 | ((c & Hin & Hvisit) & n0 & Hq & Hpruned)].
      * left. congruence.
      * right. split; [exists c; split; [apply in_or_app; left |]; assumption |].
        exists n0. split; [exact Hq | congruence].
    + right. split; [| exact Hpruned].
      exists c. split; [apply in_or_app; right |]; assumption.
Qed.

(** From the children of a node to the node itself. *)
Lemma sweep_node (node : ptr) (n0 : Node) (h h1 h2 : heap) :
  h0 !! node = Some n0 ->
  sweep (kids target n0) h h1 ->
  List.length h2 = List.length h1 ->
  h2 !! node = Some (withoutTarget target n0) ->
  (forall q, q <> node -> h2 !! q = h1 !! q) ->
  sweep [node] h h2.
Proof.
  intros Hnode ([Hlen Hpartly] & Hdone & Hframe) Hlen2 Hat Hrest.
  split; [| split].
  - split; [congruence |]. intros q m0 Hq.
    destruct (decide (q = node)) as [-> | Hne].
    + right. congruence.
    + rewrite (Hrest q Hne). apply Hpartly. exact Hq.
  - intros q m0 Hq (c & [<- | []] & Hvisit).
    destruct (decide (q = node)) as [-> | Hne]; [congruence |].
    rewrite (Hrest q Hne).
    inversion Hvisit as [| ? n child ? Hn Hchild Hdown]; subst; [congruence |].
    assert (n = n0) by congruence. subst n.
    apply (Hdone q m0 Hq). eauto.
  - intro q. destruct (decide (q = node)) as [-> | Hne].
    + right. split; [exists node; split; [left; reflexivity | constructor] |].
      exists n0. split; assumption.
    + rewrite (Hrest q Hne).
      destruct (Hframe q) as [Hsame | ((c & Hin & Hvisit) & Hpruned)];
        [left; exact Hsame | right].
      split; [| exact Hpruned].
      exists node. split; [left; reflexivity |].
      eapply visits_child; eassumption.
Qed.

(** The record of a node stays while delete is below it. *)
Lemma sweep_above (node c : ptr) (n0 : Node) (h h1 : heap) :
  h0 !! node = Some n0 -> In c (Content n0) ->
  sweep [c] h h1 -> h1 !! node = h !! node.
Proof.
  intros Hnode Hchild (_ & _ & Hframe).
  destruct (Hframe node) as [Hsame | ((c' & [<- | []] & Hvisit) & _)];
    [exact Hsame |].
  apply visits_measure in Hvisit.
  destruct (Hmeasured node n0 Hnode) as [_ Hdown].
  specialize (Hdown c Hchild). lia.
Qed.

End Sweeping.

Section DeleteLoops.

Context {E : Type}.
Variables (h0 : heap) (target : ptr) (measure : ptr -> nat).
Hypothesis Hmeasured : measured h0 measure.

Variable recurse : ptr -> M E unit.
Variable bound : nat.
Hypothesis Hrecurse : forall c h,
  partlyDeleted h0 target h -> c < List.length h0 -> measure c < bound ->
  exists h', recurse c h = (h', Return (Ok tt)) /\ swept h0 target [c] h h'.

Local Abbreviation partly := (partlyDeleted h0 target).
Local Abbreviation sweep := (swept h0 target).
Local Abbreviation low := (fun c : ptr => c < List.length h0 /\ measure c < bound).

Lemma sweep_document (elems : list ptr) : forall h,
  partly h -> Forall low elems ->
  exists h',
    forRange elems (fun _ child => recurse child) tt h = (h', Return (Ok tt))
    /\ sweep elems h h'.
Proof.
  induction elems as [| elem rest IH]; intros h Hpartly Hlow; cbn [forRange].
  - exists h. split; [reflexivity | apply sweep_nil; exact Hpartly].
  - inversion Hlow as [| ? ? [Hvalid Hbound] Hrest]; subst.
    destruct (Hrecurse elem h Hpartly Hvalid Hbound) as (h1 & Hrun & Hswept).
    destruct (IH h1 (proj1 Hswept) Hrest) as (h2 & Hrun2 & Hswept2).
    exists h2. split.
    + erewrite run_bind by exact Hrun. exact Hrun2.
    + apply (sweep_app h0 target [elem] rest h h1 h2); assumption.
Qed.

Lemma sweep_sequence (elems : list ptr) : forall acc h,
  partly h -> Forall low elems ->
  exists h',
    forRange elems
      (fun newContent elem =>
         if elem =? target then ret newContent
         else do _ <- recurse elem ;; ret (newContent ++ [elem])) acc h
    = (h', Return (Ok (acc ++ List.filter (fun c => negb (c =? target)) elems)))
    /\ sweep (List.filter (fun c => negb (c =? target)) elems) h h'.
Proof.
  induction elems as [| elem rest IH]; intros acc h Hpartly Hlow;
    cbn [forRange List.filter].
  - exists h. rewrite app_nil_r. split; [reflexivity | apply sweep_nil; exact Hpartly].
  - inversion Hlow as [| ? ? [Hvalid Hbound] Hrest]; subst.
    destruct (elem =? target); cbn [negb].
    + erewrite run_bind by reflexivity. apply IH; assumption.
    + destruct (Hrecurse elem h Hpartly Hvalid Hbound) as (h1 & Hrun & Hswept).
      destruct (IH (acc ++ [elem]) h1 (proj1 Hswept) Hrest) as (h2 & Hrun2 & Hswept2).
      exists h2. split.
      * erewrite run_bind.
        2:{ erewrite run_bind by exact Hrun. reflexivity. }
        rewrite Hrun2, <- app_assoc. reflexivity.
      * apply (sweep_app h0 target [elem] _ h h1 h2); assumption.
Qed.

(** The loop over a mapping from the pair at position [length done]. *)
Lemma sweep_mapping (node : ptr) (n0 nc : Node) (rest : list ptr) :
  h0 !! node = Some n0 ->
  (forall child, In child (Content nc) -> In child (Content n0)) ->
  forall done budget newContent h,
    Content nc = done ++ rest ->
    Nat.even (List.length rest) = true ->
    List.length rest <= 2 * budget ->
    partly h -> h !! node = Some nc ->
    Forall low rest ->
    exists h',
      deleteMappingLoop recurse budget node target (List.length done) newContent h
      = (h', Return (Ok (newContent ++ dropPairs target rest)))
      /\ sweep (List.filter (fun c => negb (c =? target)) (values rest)) h h'
      /\ h' !! node = Some nc.
Proof.
  intros Hnode Hsub.
  induction rest as [| k | k v rest IH] using list_pair_ind;
    intros done budget newContent h Hcontent Heven Hbudget Hpartly Hcurrent Hlow.
  - exists h. split; [| split; [apply sweep_nil; exact Hpartly | exact Hcurrent]].
    destruct budget; cbn [deleteMappingLoop];
      (erewrite run_bind by (apply run_load; exact Hcurrent));
      rewrite Hcontent, app_nil_r, Nat.leb_refl, app_nil_r; reflexivity.
  - discriminate.
  - destruct budget as [| budget]; [cbn [List.length] in Hbudget; lia |].
    inversion Hlow as [| ? ? _ Hlow']; subst.
    inversion Hlow' as [| ? ? [Hvalid Hbound] Hrest]; subst.
    assert (Hkey : Content nc !! List.length done = Some k).
    { rewrite Hcontent, lookup_app_r by lia. rewrite Nat.sub_diag. reflexivity. }
    assert (Hvalue : Content nc !! (List.length done + 1) = Some v).
    { rewrite Hcontent, lookup_app_r by lia.
      replace (List.length done + 1 - List.length done) with 1 by lia. reflexivity. }
    assert (Hmore : (List.length (Content nc) <=? List.length done) = false).
    { apply Nat.leb_gt. rewrite Hcontent, length_app. cbn [List.length]. lia. }
    assert (Hnext : Content nc = (done ++ [k; v]) ++ rest).
    { rewrite Hcontent, <- app_assoc. reflexivity. }
    assert (Hlength : List.length (done ++ [k; v]) = List.length done + 2).
    { rewrite length_app. reflexivity. }
    cbn [deleteMappingLoop].
    erewrite run_bind by (apply run_load; exact Hcurrent).
    rewrite Hmore, Hkey, Hvalue. cbn [dropPairs values List.filter].
    destruct (v =? target) eqn:Hv; cbn [negb].
    + rewrite <- Hlength. apply IH; try assumption.
      cbn [List.length] in Hbudget. lia.
    + destruct (Hrecurse v h Hpartly Hvalid Hbound) as (h1 & Hrun & Hswept).
      assert (Hkept : h1 !! node = Some nc).
      { rewrite <- Hcurrent.
        apply (sweep_above h0 target measure Hmeasured node v n0 h h1 Hnode);
          [| exact Hswept].
        apply Hsub. rewrite Hcontent. apply in_or_app. right. right. left.
        reflexivity. }
      destruct (IH (done ++ [k; v]) budget (newContent ++ [k; v]) h1 Hnext)
        as (h2 & Hrun2 & Hswept2 & Hkept2); try assumption.
      { cbn [List.length] in Hbudget. lia. }
      { exact (proj1 Hswept). }
      exists h2. split; [| split; [| exact Hkept2]].
      * erewrite run_bind by exact Hrun. rewrite <- Hlength, Hrun2.
        rewrite <- app_assoc. reflexivity.
      * apply (sweep_app h0 target [v] _ h h1 h2); assumption.
Qed.

End DeleteLoops.

Section DeleteExactly.

Variables (h0 : heap) (target : ptr) (measure : ptr -> nat).
Hypothesis Hwf : wellFormed h0 = true.
Hypothesis Hmeasured : measured h0 measure.

Lemma children_low (node : ptr) (n0 nc : Node) (fuel : nat) :
  h0 !! node = Some n0 -> measure node < S fuel ->
  (forall child, In child (Content nc) -> In child (Content n0)) ->
  Forall (fun c => c < List.length h0 /\ measure c < fuel) (Content nc).
Proof.
  intros Hnode Hfuel Hsub. apply List.Forall_forall. intros c Hc.
  apply Hsub in Hc.
  destruct (wellFormed_node h0 node n0 Hwf Hnode) as [Hvalid _].
  destruct (Hmeasured node n0 Hnode) as [_ Hdown].
  rewrite List.Forall_forall in Hvalid.
  split; [apply Hvalid; exact Hc | specialize (Hdown c Hc); lia].
Qed.

Lemma deleteNodeRecursive_sweeps {E} (fuel : nat) : forall node h,
  partlyDeleted h0 target h -> node < List.length h0 -> measure node < fuel ->
  exists h',
    @deleteNodeRecursive E fuel node target h = (h', Return (Ok tt))
    /\ swept h0 target [node] h h'.
Proof.
  induction fuel as [| fuel IH]; intros node h Hpartly Hvalid Hfuel; [lia |].
  destruct (lookup_lt_is_Some_2 h0 node Hvalid) as [n0 Hnode].
  destruct (partly_lookup h0 target h node n0 Hpartly Hnode) as (nc & Hcurrent & Hnc).
  destruct (current_record target n0 nc Hnc)
    as (Hkind & Hkids & Hwithout & Hset & Hsub).
  pose proof (children_low node n0 nc fuel Hnode Hfuel Hsub) as Hlow.
  cbn [deleteNodeRecursive].
  erewrite run_bind by (apply run_load; exact Hcurrent).
  assert (Hleaf : kids target n0 = [] -> withoutTarget target n0 = n0 ->
                  swept h0 target [node] h h).
  { intros Hnone Hsame.
    apply (sweep_node h0 target node n0 h h h Hnode); try reflexivity.
    - rewrite Hnone. apply sweep_nil. exact Hpartly.
    - rewrite Hsame. rewrite Hcurrent. f_equal.
      destruct Hnc as [-> | ->]; [reflexivity | exact Hsame]. }
  rewrite Hkind. destruct (kind n0) eqn:Hkind0.
  - (* document *)
    destruct (sweep_document h0 target measure
                (fun child => deleteNodeRecursive fuel child target) fuel
                (fun c hc Hp Hv Hb => IH c hc Hp Hv Hb)
                (Content nc) h Hpartly Hlow) as (h1 & Hrun & Hswept).
    exists h1. split; [exact Hrun |].
    assert (Hcontent : Content nc = Content n0).
    { destruct Hnc as [-> | ->]; [reflexivity |].
      unfold withoutTarget. rewrite Hkind0. reflexivity. }
    assert (Hsame : withoutTarget target n0 = n0)
      by (unfold withoutTarget; rewrite Hkind0; reflexivity).
    apply (sweep_node h0 target node n0 h h1 h1 Hnode); try reflexivity.
    + unfold kids. rewrite Hkind0, <- Hcontent. exact Hswept.
    + destruct Hswept as ([_ Hall] & _ & _).
      destruct (Hall node n0 Hnode) as [H | H]; rewrite H; congruence.
  - (* sequence *)
    destruct (sweep_sequence h0 target measure
                (fun child => deleteNodeRecursive fuel child target) fuel
                (fun c hc Hp Hv Hb => IH c hc Hp Hv Hb)
                (Content nc) [] h Hpartly Hlow) as (h1 & Hrun & Hswept).
    destruct (partly_lookup h0 target h1 node n0 (proj1 Hswept) Hnode)
      as (n1 & Hcurrent1 & Hn1).
    destruct (current_record target n0 n1 Hn1) as (_ & _ & _ & Hset1 & _).
    assert (Hfiltered :
      List.filter (fun c => negb (c =? target)) (Content nc)
      = List.filter (fun c => negb (c =? target)) (Content n0)).
    { pose proof Hkids as Hk. unfold kids in Hk. rewrite Hkind, Hkind0 in Hk.
      exact Hk. }
    exists (<[node := withoutTarget target n0]> h1). split.
    + erewrite run_bind by exact Hrun.
      erewrite run_bind by (apply run_load; exact Hcurrent1).
      unfold store.
      destruct (decide (node < List.length h1)) as [| Hout].
      * cbn [app]. rewrite Hset1, Hfiltered. unfold withoutTarget.
        rewrite Hkind0. reflexivity.
      * exfalso. apply Hout. eapply lookup_lt_Some. exact Hcurrent1.
    + apply (sweep_node h0 target node n0 h h1 _ Hnode).
      * unfold kids. rewrite Hkind0, <- Hfiltered. exact Hswept.
      * apply length_insert.
      * apply list_lookup_insert_eq. eapply lookup_lt_Some. exact Hcurrent1.
      * intros q Hne. apply list_lookup_insert_ne. congruence.
  - (* mapping *)
    assert (Heven : Nat.even (List.length (Content nc)) = true).
    { destruct (wellFormed_node h0 node n0 Hwf Hnode) as [_ Hpairs].
      specialize (Hpairs Hkind0).
      destruct Hnc as [-> | ->]; [exact Hpairs |].
      unfold withoutTarget. rewrite Hkind0. cbn [setContent Content].
      clear -Hpairs. revert Hpairs.
      induction (Content n0) as [| k | k v rest IHc] using list_pair_ind;
        cbn [dropPairs]; try reflexivity.
      intro Hpairs. destruct (v =? target); [apply IHc; exact Hpairs |].
      cbn [List.length] in *. exact (IHc Hpairs). }
    assert (Hbudget : List.length (Content nc) <= 2 * fuel).
    { destruct (Hmeasured node n0 Hnode) as [Hsize _].
      assert (List.length (Content nc) <= List.length (Content n0)); [| lia].
      destruct Hnc as [-> | ->]; [lia |].
      unfold withoutTarget. rewrite Hkind0. cbn [setContent Content].
      clear. induction (Content n0) as [| k | k v rest IHc] using list_pair_ind;
        cbn [dropPairs List.length]; try lia.
      destruct (v =? target); cbn [List.length]; lia. }
    destruct (sweep_mapping h0 target measure Hmeasured
                (fun child => deleteNodeRecursive fuel child target) fuel
                (fun c hc Hp Hv Hb => IH c hc Hp Hv Hb)
                node n0 nc (Content nc) Hnode Hsub [] fuel [] h
                eq_refl Heven Hbudget Hpartly Hcurrent Hlow)
      as (h1 & Hrun & Hswept & Hcurrent1).
    assert (Hdropped :
      dropPairs target (Content nc) = dropPairs target (Content n0)).
    { destruct Hnc as [-> | ->]; [reflexivity |].
      unfold withoutTarget. rewrite Hkind0. cbn [setContent Content].
      apply dropPairs_idem. }
    exists (<[node := withoutTarget target n0]> h1). split.
    + erewrite run_bind by exact Hrun.
      erewrite run_bind by (apply run_load; exact Hcurrent1).
      unfold store.
      destruct (decide (node < List.length h1)) as [| Hout].
      * cbn [app]. rewrite Hset, Hdropped. unfold withoutTarget.
        rewrite Hkind0. reflexivity.
      * exfalso. apply Hout. eapply lookup_lt_Some. exact Hcurrent1.
    + apply (sweep_node h0 target node n0 h h1 _ Hnode).
      * rewrite <- Hkids. unfold kids. rewrite Hkind. exact Hswept.
      * apply length_insert.
      * apply list_lookup_insert_eq. eapply lookup_lt_Some. exact Hcurrent1.
      * intros q Hne. apply list_lookup_insert_ne. congruence.
  - exists h. split; [reflexivity |].
    apply Hleaf; [unfold kids | unfold withoutTarget]; rewrite Hkind0; reflexivity.
  - exists h. split; [reflexivity |].
    apply Hleaf; [unfold kids | unfold withoutTarget]; rewrite Hkind0; reflexivity.
  - exists h. split; [reflexivity |].
    apply Hleaf; [unfold kids | unfold withoutTarget]; rewrite Hkind0; reflexivity.
Qed.

End DeleteExactly.

(** X23.  What delete does to a tree without cycles.  On a well-formed tree
    whose nodes a measure orders (every child below its parent, and no
    content longer than twice the measure of its node), with a recursion
    budget above the measure of the root, [deleteNode] returns
    without error and leaves a heap of the same size in which every node it
    went through from the root has lost exactly its entries for the target
    (a sequence its elements equal to the target, a mapping the pairs whose
    value is the target, keys included) and every node it did not go through
    is as it was.  It goes through the root, through the children of a
    document, and through the elements and member values that are not the
    target. *)
Theorem delete_prunes_what_it_visits
    (fuel : nat) (root target : ptr) (h : heap) (measure : ptr -> nat) :
  wellFormed h = true -> root < List.length h ->
  measured h measure -> measure root < fuel ->
  exists h',
    @deleteNode EngineError fuel root target h = (h', Return (Ok tt))
    /\ List.length h' = List.length h
    /\ (forall q n, h !! q = Some n -> visits h target root q ->
          h' !! q = Some (withoutTarget target n))
    /\ (forall q, ~ visits h target root q -> h' !! q = h !! q).
Proof.
  intros Hwf Hroot Hmeasured Hfuel.
  assert (Hpartly : partlyDeleted h target h).
  { split; [reflexivity |]. intros q n0 Hq. left. exact Hq. }
  destruct (deleteNodeRecursive_sweeps h target measure Hwf Hmeasured
              (E := EngineError) fuel root h Hpartly Hroot Hfuel)
    as (h' & Hrun & (Hlen & _) & Hvisited & Hothers).
  exists h'. split; [exact Hrun |]. split; [exact Hlen |]. split.
  - intros q n Hq Hvisit. apply (Hvisited q n Hq).
    exists root. split; [left; reflexivity | exact Hvisit].
  - intros q Hnot. destruct (Hothers q) as [Hsame | [(c & Hin & Hvisit) _]].
    + exact Hsame.
    + destruct Hin as [<- | []]. contradiction.
Qed.

(** An instance on scenario B, deleting the element named foo3. *)
Lemma delete_prunes_witness :
  exists h',
    @deleteNode EngineError 17 0 10 scenarioB = (h', Return (Ok tt))
    /\ List.length h' = List.length scenarioB
    /\ (forall q n, scenarioB !! q = Some n -> visits scenarioB 10 0 q ->
          h' !! q = Some (withoutTarget 10 n))
    /\ (forall q, ~ visits scenarioB 10 0 q -> h' !! q = scenarioB !! q).
Proof.
  apply (delete_prunes_what_it_visits 17 0 10 scenarioB (fun q => 16 - q)).
  - reflexivity.
  - simpl. lia.
  - intros node n Hnode.
    do 16 (destruct node as [| node];
           [injection Hnode as <-; split;
            [simpl; lia
            | intros child Hin; simpl in Hin;
              repeat (destruct Hin as [<- | Hin]; [lia |]); destruct Hin]
           |]).
    discriminate Hnode.
  - lia.
Defined.
